(** * Zap-receipt matching and multi-relay query coordination

    A shallow embedding of the module [lib/spark/fetchZapReceipts]
    ([parseZapReceipt], [fetchZapReceiptForInvoice] and
    [fetchZapReceiptsForInvoices], found in [src/lib/zap.ts]) and the
    properties its specification states about it; then of the code around
    it: the wallet service that calls it ([fetchZapReceiptForPayment],
    [enrichPaymentWithZapData]), the zap helpers of [lib/zap]
    ([getZapData], [getZapEndpoint], [canUserReceiveZaps], [convertToZap])
    and the helpers of the payments list ([formatPendingDuration],
    [isPendingTooLong], [toggleExpanded]).

    Conventions.
    - JavaScript strings are [string]s (their UTF-8 bytes).
    - [undefined] is [None]; a JSON value is a [json].
    - A thrown exception is [Throw]; [try]/[catch] is a match on it.
    - Time is in milliseconds, as in the [setTimeout] calls. *)

From Stdlib Require Import ZArith NArith Ascii String List Bool Lia.
From stdpp Require Import base option list strings gmap pretty.

Local Open Scope string_scope.
Local Open Scope list_scope.

(** ** JSON values, as produced by [JSON.parse] *)

Module Json.

(** A number is a double.  A finite double is kept as its exact value in
    decimal, [m * 10^e], normalised so that [m] has no trailing decimal
    zero ([0] is [JNumber 0 0]; the code does not tell [-0] from [0]); the
    two infinite doubles, which [JSON.parse] gives for numerals beyond the
    range, are [JInfinity]. *)
#[warnings="-register-all"]
Inductive json : Type :=
| JNull
| JBool (b : bool)
| JNumber (m e : Z)
| JString (s : string)
| JArray (l : list json)
| JObject (l : list (string * json))
| JInfinity (negative : bool).

(** [ToBoolean]: [undefined], [null], [false], [0] and the empty string
    are falsy, everything else (objects and arrays included) is truthy. *)
Definition truthy (v : option json) : bool :=
  match v with
  | None => false
  | Some JNull => false
  | Some (JBool b) => b
  | Some (JNumber m _) => negb (m =? 0)%Z
  | Some (JString s) => negb (String.eqb s "")
  | Some (JArray _) => true
  | Some (JObject _) => true
  | Some (JInfinity _) => true
  end.

(** [ToBoolean] of a value that is a string or [undefined]. *)
Definition truthy_str (v : option string) : bool :=
  match v with
  | None => false
  | Some s => negb (String.eqb s "")
  end.

(** Own-property lookup in a parsed object: with duplicate keys
    [JSON.parse] keeps the last member. *)
Fixpoint obj_lookup (k : string) (l : list (string * json)) : option json :=
  match l with
  | [] => None
  | (k', v) :: l' =>
      match obj_lookup k l' with
      | Some w => Some w
      | None => if String.eqb k' k then Some v else None
      end
  end.

(** ** Characters *)

Definition dquote : ascii := ascii_of_N 34.
Definition backslash : ascii := ascii_of_N 92.

Definition is_ws (c : ascii) : bool :=
  let n := N_of_ascii c in
  (n =? 32)%N || (n =? 9)%N || (n =? 10)%N || (n =? 13)%N.

Definition digit_of (c : ascii) : option Z :=
  let n := N_of_ascii c in
  if (48 <=? n)%N && (n <=? 57)%N then Some (Z.of_N n - 48)%Z else None.

Definition hex_of (c : ascii) : option N :=
  let n := N_of_ascii c in
  if (48 <=? n)%N && (n <=? 57)%N then Some (n - 48)%N
  else if (65 <=? n)%N && (n <=? 70)%N then Some (n - 55)%N
  else if (97 <=? n)%N && (n <=? 102)%N then Some (n - 87)%N
  else None.

Fixpoint skip_ws (s : string) : string :=
  match s with
  | String c s' => if is_ws c then skip_ws s' else s
  | EmptyString => s
  end.

(** UTF-8 bytes of a code point (a lone surrogate is written in the same
    three-byte form). *)
Definition utf8 (n : N) : string :=
  let b (x : N) := ascii_of_N x in
  (if n <? 128 then String (b n) ""
   else if n <? 2048 then
     String (b (192 + n / 64)) (String (b (128 + n mod 64)) "")
   else if n <? 65536 then
     String (b (224 + n / 4096))
       (String (b (128 + (n / 64) mod 64)) (String (b (128 + n mod 64)) ""))
   else
     String (b (240 + n / 262144))
       (String (b (128 + (n / 4096) mod 64))
          (String (b (128 + (n / 64) mod 64))
             (String (b (128 + n mod 64)) ""))))%N.

(** Four hexadecimal digits. *)
Definition hex4 (s : string) : option (N * string) :=
  match s with
  | String a (String b (String c (String d rest))) =>
      match hex_of a, hex_of b, hex_of c, hex_of d with
      | Some x, Some y, Some z, Some w =>
          Some (((x * 16 + y) * 16 + z) * 16 + w, rest)%N
      | _, _, _, _ => None
      end
  | _ => None
  end.

(** The escape after [\u]: one code unit, or a surrogate pair. *)
Definition parse_unicode (s : string) : option (string * string) :=
  match hex4 s with
  | None => None
  | Some (hi, rest) =>
      let single := Some (utf8 hi, rest) in
      if (55296 <=? hi)%N && (hi <=? 56319)%N then
        match rest with
        | String c1 (String c2 rest2) =>
            if Ascii.eqb c1 backslash && Ascii.eqb c2 "u" then
              match hex4 rest2 with
              | Some (lo, rest3) =>
                  if (56320 <=? lo)%N && (lo <=? 57343)%N then
                    let cp := (65536 + (hi - 55296) * 1024 + (lo - 56320))%N in
                    Some (utf8 cp, rest3)
                  else single
              | None => single
              end
            else single
        | _ => single
        end
      else single
  end.

(** The characters of a string literal, after its opening quote. *)
Fixpoint parse_chars (fuel : nat) (s : string) : option (string * string) :=
  match fuel with
  | O => None
  | S fuel' =>
      match s with
      | EmptyString => None
      | String c rest =>
          if Ascii.eqb c dquote then Some ("", rest)
          else if Ascii.eqb c backslash then
            match rest with
            | EmptyString => None
            | String e rest' =>
                let simple (x : N) :=
                  match parse_chars fuel' rest' with
                  | Some (t, r) => Some (String (ascii_of_N x) t, r)
                  | None => None
                  end in
                if Ascii.eqb e dquote then simple 34%N
                else if Ascii.eqb e backslash then simple 92%N
                else if Ascii.eqb e "/" then simple 47%N
                else if Ascii.eqb e "b" then simple 8%N
                else if Ascii.eqb e "f" then simple 12%N
                else if Ascii.eqb e "n" then simple 10%N
                else if Ascii.eqb e "r" then simple 13%N
                else if Ascii.eqb e "t" then simple 9%N
                else if Ascii.eqb e "u" then
                  match parse_unicode rest' with
                  | Some (u, r1) =>
                      match parse_chars fuel' r1 with
                      | Some (t, r) => Some (u +:+ t, r)
                      | None => None
                      end
                  | None => None
                  end
                else None
            end
          else if (N_of_ascii c <? 32)%N then None
          else
            match parse_chars fuel' rest with
            | Some (t, r) => Some (String c t, r)
            | None => None
            end
      end
  end.

(** A run of digits: their value, how many there were, and the rest. *)
Fixpoint parse_digits (s : string) (acc : Z) (n : nat) : Z * nat * string :=
  match s with
  | String c rest =>
      match digit_of c with
      | Some d => parse_digits rest (acc * 10 + d)%Z (S n)
      | None => (acc, n, s)
      end
  | EmptyString => (acc, n, s)
  end.

Fixpoint strip_zeros (fuel : nat) (m e : Z) : Z * Z :=
  match fuel with
  | O => (m, e)
  | S fuel' =>
      if (m =? 0)%Z then (0, 0)%Z
      else if (m mod 10 =? 0)%Z then strip_zeros fuel' (m / 10)%Z (e + 1)%Z
      else (m, e)
  end.

(** The integer nearest to [p / q], for a positive [q]; of two nearest
    integers the even one. *)
Definition round_half_even (p q : Z) : Z :=
  let d := (p / q)%Z in
  let r := (p mod q)%Z in
  if (2 * r <? q)%Z then d
  else if (q <? 2 * r)%Z then (d + 1)%Z
  else if Z.even d then d else (d + 1)%Z.

(** The double nearest to [m * 10^e], for a positive [m], as [JSON.parse]
    rounds (IEEE 754, to nearest, ties to even): [Some (n, x)] is the
    double [n * 2^x], [None] is infinity.  With [k] the binary exponent of
    the value, the double is a multiple of [2^(k - 52)], or of [2^-1074]
    for a subnormal one.  The first two tests settle values above [10^309]
    and below [10^-324], which are beyond the range. *)
Definition nearest_double (m e : Z) : option (Z * Z) :=
  if (309 <=? e)%Z then None
  else if (Z.log2 m + 1 + e <=? -324)%Z then Some (0%Z, 0%Z)
  else
    let p := if (0 <=? e)%Z then (m * 10 ^ e)%Z else m in
    let q := if (0 <=? e)%Z then 1%Z else (10 ^ (- e))%Z in
    let k0 := (Z.log2 p - Z.log2 q)%Z in
    let below :=
      if (0 <=? k0)%Z then (p <? q * 2 ^ k0)%Z
      else (p * 2 ^ (- k0) <? q)%Z in
    let k := if below then (k0 - 1)%Z else k0 in
    let x := Z.max (k - 52) (-1074) in
    let n :=
      if (0 <=? x)%Z then round_half_even p (q * 2 ^ x)
      else round_half_even (p * 2 ^ (- x)) q in
    if (971 <? x)%Z || ((x =? 971)%Z && (2 ^ 53 <=? n)%Z) then None
    else Some (n, x).

(** The exact decimal of the double [n * 2^x]. *)
Definition decimal_of_double (n x : Z) : Z * Z :=
  let m0 := if (0 <=? x)%Z then (n * 2 ^ x)%Z else (n * 5 ^ (- x))%Z in
  let e0 := if (0 <=? x)%Z then 0%Z else x in
  strip_zeros (Z.to_nat (Z.log2 m0 + 1)) m0 e0.

(** The number value of a numeral with sign [neg], digits [m] and
    exponent [e]. *)
Definition number_value (neg : bool) (m e : Z) : json :=
  if (m =? 0)%Z then JNumber 0 0
  else
    match nearest_double m e with
    | None => JInfinity neg
    | Some (n, x) =>
        let '(m', e') := decimal_of_double n x in
        JNumber (if neg then (- m')%Z else m') e'
    end.

(** [-? int frac? exp?] *)
Definition parse_number (s : string) : option (json * string) :=
  let '(neg, s1) :=
    match s with
    | String "-" r => (true, r)
    | _ => (false, s)
    end in
  let '(ip, ni, s2) := parse_digits s1 0%Z 0 in
  let leading_zero :=
    match s1 with
    | String "0" _ => negb (Nat.eqb ni 1)
    | _ => false
    end in
  if Nat.eqb ni 0 || leading_zero then None
  else
    let frac :=
      match s2 with
      | String "." r =>
          let '(m, nf, s3) := parse_digits r ip 0 in
          if Nat.eqb nf 0 then None else Some (m, nf, s3)
      | _ => Some (ip, 0, s2)
      end in
    match frac with
    | None => None
    | Some (m, nf, s3) =>
        let expo :=
          match s3 with
          | String c r =>
              if Ascii.eqb c "e" || Ascii.eqb c "E" then
                let '(sg, r1) :=
                  match r with
                  | String "+" r' => (1%Z, r')
                  | String "-" r' => ((-1)%Z, r')
                  | _ => (1%Z, r)
                  end in
                let '(x, nx, s4) := parse_digits r1 0%Z 0 in
                if Nat.eqb nx 0 then None else Some ((sg * x)%Z, s4)
              else Some (0%Z, s3)
          | EmptyString => Some (0%Z, s3)
          end in
        match expo with
        | None => None
        | Some (x, s4) =>
            Some (number_value neg m (x - Z.of_nat nf)%Z, s4)
        end
    end.

(** A fixed keyword ([true], [false], [null]). *)
Fixpoint expect (kw s : string) : option string :=
  match kw with
  | EmptyString => Some s
  | String k kw' =>
      match s with
      | String c s' => if Ascii.eqb c k then expect kw' s' else None
      | EmptyString => None
      end
  end.

(** Values, array elements and object members.  [parse_elems] and
    [parse_members] start after the opening bracket or after a comma. *)
Fixpoint parse_value (fuel : nat) (s : string) : option (json * string) :=
  match fuel with
  | O => None
  | S fuel' =>
      match skip_ws s with
      | EmptyString => None
      | String c rest =>
          if Ascii.eqb c "{" then
            match skip_ws rest with
            | String "}" r => Some (JObject [], r)
            | _ =>
                match parse_members fuel' rest with
                | Some (l, r) => Some (JObject l, r)
                | None => None
                end
            end
          else if Ascii.eqb c "[" then
            match skip_ws rest with
            | String "]" r => Some (JArray [], r)
            | _ =>
                match parse_elems fuel' rest with
                | Some (l, r) => Some (JArray l, r)
                | None => None
                end
            end
          else if Ascii.eqb c dquote then
            match parse_chars (String.length rest + 1) rest with
            | Some (t, r) => Some (JString t, r)
            | None => None
            end
          else if Ascii.eqb c "t" then
            option_map (fun r => (JBool true, r)) (expect "rue" rest)
          else if Ascii.eqb c "f" then
            option_map (fun r => (JBool false, r)) (expect "alse" rest)
          else if Ascii.eqb c "n" then
            option_map (fun r => (JNull, r)) (expect "ull" rest)
          else parse_number (String c rest)
      end
  end
with parse_elems (fuel : nat) (s : string) : option (list json * string) :=
  match fuel with
  | O => None
  | S fuel' =>
      match parse_value fuel' s with
      | None => None
      | Some (v, r) =>
          match skip_ws r with
          | String "," r' =>
              match parse_elems fuel' r' with
              | Some (l, r'') => Some (v :: l, r'')
              | None => None
              end
          | String "]" r' => Some ([v], r')
          | _ => None
          end
      end
  end
with parse_members (fuel : nat) (s : string)
  : option (list (string * json) * string) :=
  match fuel with
  | O => None
  | S fuel' =>
      match skip_ws s with
      | String c rest =>
          if Ascii.eqb c dquote then
            match parse_chars (String.length rest + 1) rest with
            | None => None
            | Some (k, r) =>
                match skip_ws r with
                | String ":" r1 =>
                    match parse_value fuel' r1 with
                    | None => None
                    | Some (v, r2) =>
                        match skip_ws r2 with
                        | String "," r3 =>
                            match parse_members fuel' r3 with
                            | Some (l, r4) => Some ((k, v) :: l, r4)
                            | None => None
                            end
                        | String "}" r3 => Some ([(k, v)], r3)
                        | _ => None
                        end
                    end
                | _ => None
                end
            end
          else None
      | EmptyString => None
      end
  end.

(** [JSON.parse]: one value between optional white space; [None] stands
    for the [SyntaxError] it throws. *)
Definition JSON_parse (text : string) : option json :=
  match parse_value (2 * String.length text + 2) text with
  | Some (v, r) =>
      match skip_ws r with
      | EmptyString => Some v
      | String _ _ => None
      end
  | None => None
  end.

(** ** Conversion to a string *)

(** The conversion of a value to a string throws a [TypeError]: on an
    object with an own member [toString] (no JSON value is callable, and
    the inherited [valueOf] returns the object itself), and on an array
    with such an element, which [join] converts in turn. *)
Fixpoint to_string_throws (v : json) : bool :=
  match v with
  | JObject l =>
      match obj_lookup "toString" l with
      | Some _ => true
      | None => false
      end
  | JArray l => existsb to_string_throws l
  | _ => false
  end.

(** The template literal [`${v}`]. *)
Definition template_throws (v : option json) : bool :=
  match v with
  | Some x => to_string_throws x
  | None => false
  end.

(** The template literal [`${v || '...'}`]. *)
Definition template_or_throws (v : option json) : bool :=
  truthy v && template_throws v.

(** The template literal [`${v?.slice(0, 16)}`]: only strings and arrays
    have a function [slice]; the sixteen first elements of an array are
    converted to strings. *)
Definition template_slice_throws (v : option json) : bool :=
  match v with
  | None | Some JNull => false
  | Some (JString _) => false
  | Some (JArray l) => existsb to_string_throws (take 16 l)
  | Some _ => true
  end.

End Json.
Export Json.

(** ** The receipt matcher: [parseZapReceipt] *)

Module Matcher.

(** Completion of a JavaScript computation: a value, or a thrown
    exception. *)
Inductive completion (A : Type) : Type :=
| Normal (a : A)
| Throw.
Arguments Normal {A} a.
Arguments Throw {A}.

#[global] Instance completion_bind : MBind completion :=
  fun A B (k : A -> completion B) (c : completion A) =>
    match c with
    | Normal a => k a
    | Throw => Throw
    end.

(** [v.k] for one of the keys read by the matcher ([kind], [pubkey],
    [content]): a [TypeError] on [null], the member of an object,
    [undefined] on every other value (none of these keys is a property of
    a string, number, boolean or array). *)
Definition get_prop (v : json) (k : string) : completion (option json) :=
  match v with
  | JNull => Throw
  | JObject l => Normal (obj_lookup k l)
  | _ => Normal None
  end.

(** A candidate record.  The matcher reads nothing but [event.tags], which
    may be absent; a tag is a [string[]]. *)
Record event : Type := mkEvent { tags : option (list (list string)) }.

(** The value returned on acceptance.  [senderPubkey] and [comment] come
    out of [JSON.parse] unchecked, so they are JSON values. *)
Record MatchResult : Type := mkMatchResult {
  senderPubkey : json;
  recipientPubkey : string;
  eventId : option string;
  comment : json
}.

(** [event.tags?.find((t) => t[0] === k)] *)
Definition find_tag (ev : event) (k : string) : option (list string) :=
  match tags ev with
  | None => None
  | Some ts =>
      List.find
        (fun t : list string =>
           match t !! 0 with
           | Some x => String.eqb x k
           | None => false
           end) ts
  end.

(** [tag?.[1]] *)
Definition second (t : option (list string)) : option string :=
  match t with
  | None => None
  | Some t => t !! 1
  end.

(** The value of the first tag whose key is [k]. *)
Definition tag_value (ev : event) (k : string) : option string :=
  second (find_tag ev k).

(** [v !== s] for a string [s] *)
Definition strict_ne_str (v : option string) (s : string) : bool :=
  match v with
  | Some x => negb (String.eqb x s)
  | None => true
  end.

(** [v !== 9734] *)
Definition strict_ne_9734 (v : option json) : bool :=
  match v with
  | Some (JNumber 9734 0) => false
  | _ => true
  end.

(** [v || s] for the empty string [s] *)
Definition or_empty (v : option json) : json :=
  match v with
  | Some x => if truthy v then x else JString ""
  | None => JString ""
  end.

(** The body of the outer [try] block. *)
Definition parseZapReceipt_try (ev : event) (invoice : string)
  : completion (option MatchResult) :=
  let bolt11 := second (find_tag ev "bolt11") in
  if negb (truthy_str bolt11) then Normal None
  else if strict_ne_str bolt11 invoice then Normal None
  else
    let description := second (find_tag ev "description") in
    match description with
    | None => Normal None
    | Some d =>
        if negb (truthy_str description) then Normal None
        else
          match JSON_parse d with
          | None => Normal None
          | Some zapRequest =>
              kind ← get_prop zapRequest "kind";
              if strict_ne_9734 kind then Normal None
              else
                let recipient := second (find_tag ev "p") in
                match recipient with
                | None => Normal None
                | Some p =>
                    if negb (truthy_str recipient) then Normal None
                    else
                      sender ← get_prop zapRequest "pubkey";
                      match sender with
                      | None => Normal None
                      | Some sp =>
                          if negb (truthy sender) then Normal None
                          else
                            let eid := second (find_tag ev "e") in
                            content ← get_prop zapRequest "content";
                            Normal (Some (mkMatchResult sp p eid
                                            (or_empty content)))
                      end
                end
          end
    end.

(** The whole function: the outer [catch] turns any exception into
    [null]. *)
Definition parseZapReceipt (ev : event) (invoice : string)
  : completion (option MatchResult) :=
  match parseZapReceipt_try ev invoice with
  | Normal r => Normal r
  | Throw => Normal None
  end.

(** A record that passes every check of the matcher other than the
    comparison with the invoice. *)
Definition well_formed (ev : event) : bool :=
  truthy_str (tag_value ev "bolt11")
  && match tag_value ev "description" with
     | Some d =>
         match JSON_parse d with
         | Some (JObject l) =>
             negb (strict_ne_9734 (obj_lookup "kind" l))
             && truthy (obj_lookup "pubkey" l)
         | _ => false
         end
     | None => false
     end
  && truthy_str (tag_value ev "p").

(** The record has a tag with key [k] (and any value, or none). *)
Definition has_tag (ev : event) (k : string) : Prop :=
  exists ts t, tags ev = Some ts /\ t ∈ ts /\ t !! 0 = Some k.

(** The record has a tag with key [k] and value [v]. *)
Definition has_tag_value (ev : event) (k v : string) : Prop :=
  exists ts t,
    tags ev = Some ts /\ t ∈ ts /\ t !! 0 = Some k /\ t !! 1 = Some v.

(** The conditions for a match as the specification words them: a bolt11
    tag whose value equals the fingerprint, a description tag that parses
    as JSON with kind 9734 and a non-empty pubkey, and an outer p tag. *)
Definition stated_match_conditions (ev : event) (fingerprint : string)
  : Prop :=
  has_tag_value ev "bolt11" fingerprint
  /\ (exists d j sender,
        has_tag_value ev "description" d /\ JSON_parse d = Some j
        /\ get_prop j "kind" = Normal (Some (JNumber 9734 0))
        /\ get_prop j "pubkey" = Normal (Some sender)
        /\ truthy (Some sender) = true)
  /\ has_tag ev "p".

(** *** The literal scenario of the specification *)

Definition quoted (s : string) : string :=
  String dquote (s +:+ String dquote "").

(** The description of the scenario: an object with members kind 9734,
    pubkey sender1, tags [[p, abc123...]] and content gm. *)
Definition fixture_description : string :=
  "{" +:+ quoted "kind" +:+ ":9734," +:+ quoted "pubkey" +:+ ":"
  +:+ quoted "sender1" +:+ "," +:+ quoted "tags" +:+ ":[[" +:+ quoted "p"
  +:+ "," +:+ quoted "abc123..." +:+ "]]," +:+ quoted "content" +:+ ":"
  +:+ quoted "gm" +:+ "}".

Definition fixture_invoice : string := "lnbc100n1p...".

Definition fixture_event : event :=
  mkEvent (Some [["bolt11"; "lnbc100n1p..."];
               ["description"; fixture_description];
               ["p"; "abc123..."]]).

Definition fixture_result : MatchResult :=
  mkMatchResult (JString "sender1") "abc123..." None (JString "gm").

End Matcher.
Export Matcher.

(** ** The multi-relay coordinator: [fetchZapReceiptForInvoice] *)

(** The function is an event-driven program: after the executor of the
    returned promise has run, everything happens in callbacks (the
    continuation of [await relay.connect()], [onevent], [oneose], the two
    kinds of timer, the [then] of [Promise.all]).  The model keeps the
    variables these callbacks share in a [state] and runs one callback per
    [input] of the environment.

    What is taken from the relay library, as its interface says:
    [connect] succeeds, fails or never answers; [subscribe] returns a
    subscription or throws; a subscription delivers records and at most
    one end-of-stored-events signal, and nothing after [sub.close()]; the
    logger does not throw.  Callbacks run one at a time, and the reactions
    of a settled promise run before the next callback. *)

Module Coordinator.

(** The delays of the two [setTimeout] calls and the [limit] of the
    subscription filter. *)
Definition RELAY_TIMEOUT : N := 5000.
Definition OVERALL_TIMEOUT : N := 10000.
Definition FILTER_LIMIT : Z := 50.

(** The default value of the [relayUrls] parameter. *)
Definition default_relayUrls : list string :=
  ["wss://relay.primal.net"; "wss://relay.damus.io";
   "wss://relay.nostr.band"; "wss://nos.lol"].

(** The arguments of one call.  [q_recipientPubkey] is [None] when the
    argument is [undefined]. *)
Record query : Type := mkQuery {
  q_invoice : string;
  q_recipientPubkey : option string;
  q_relayUrls : list string
}.

(** [{ kinds: [9735], '#p': [recipientPubkey], limit: 50 }] *)
Record filter : Type := mkFilter {
  kinds : list Z;
  p_tags : list (option string);
  limit : Z
}.

Definition make_filter (recipient : option string) : filter :=
  mkFilter [9735%Z] [recipient] FILTER_LIMIT.

(** The connection of a branch.  Nothing in the source closes a
    connection, so there is no closed state. *)
Inductive conn_state : Type := Connecting | Connected | ConnectFailed.

(** One element of [relayPromises] with the objects it closes over. *)
Record branch : Type := mkBranch {
  url : string;
  conn : conn_state;
  subscription : option filter;  (* the filter passed to [relay.subscribe] *)
  sub_open : bool;               (* subscribed and not yet [sub.close()]d *)
  eventCount : nat;
  relay_done : bool              (* the branch's promise is resolved *)
}.

Inductive timer_id : Type := OverallTimer | RelayTimer (i : nat).

(** A pending timer: the time at which it is due, and its callback. *)
Definition timer : Type := (N * timer_id)%type.

(** The variables of one call of [fetchZapReceiptForInvoice].  [writes]
    and [matcher_calls] are ghost counters: assignments to [zapReceipt] and
    calls of [parseZapReceipt]. *)
Record state : Type := mkState {
  now : N;
  zapReceipt : option MatchResult;
  completedRelays : nat;
  totalRelays : nat;
  branches : list branch;
  timers : list timer;           (* in creation order *)
  all_done : bool;               (* the [then] of [Promise.all] has run *)
  resolved : option (option MatchResult * N);
                                 (* the returned promise: value and time *)
  writes : nat;
  matcher_calls : nat
}.

Definition set_now (t : N) (s : state) : state :=
  mkState t (zapReceipt s) (completedRelays s) (totalRelays s) (branches s)
    (timers s) (all_done s) (resolved s) (writes s) (matcher_calls s).

Definition set_zapReceipt (r : MatchResult) (s : state) : state :=
  mkState (now s) (Some r) (completedRelays s) (totalRelays s) (branches s)
    (timers s) (all_done s) (resolved s) (S (writes s)) (matcher_calls s).

Definition incr_completedRelays (s : state) : state :=
  mkState (now s) (zapReceipt s) (S (completedRelays s)) (totalRelays s)
    (branches s) (timers s) (all_done s) (resolved s) (writes s)
    (matcher_calls s).

Definition set_branches (bs : list branch) (s : state) : state :=
  mkState (now s) (zapReceipt s) (completedRelays s) (totalRelays s) bs
    (timers s) (all_done s) (resolved s) (writes s) (matcher_calls s).

Definition set_timers (ts : list timer) (s : state) : state :=
  mkState (now s) (zapReceipt s) (completedRelays s) (totalRelays s)
    (branches s) ts (all_done s) (resolved s) (writes s) (matcher_calls s).

Definition set_all_done (s : state) : state :=
  mkState (now s) (zapReceipt s) (completedRelays s) (totalRelays s)
    (branches s) (timers s) true (resolved s) (writes s) (matcher_calls s).

Definition set_resolved (v : option MatchResult) (s : state) : state :=
  mkState (now s) (zapReceipt s) (completedRelays s) (totalRelays s)
    (branches s) (timers s) (all_done s) (Some (v, now s)) (writes s)
    (matcher_calls s).

Definition incr_matcher_calls (s : state) : state :=
  mkState (now s) (zapReceipt s) (completedRelays s) (totalRelays s)
    (branches s) (timers s) (all_done s) (resolved s) (writes s)
    (S (matcher_calls s)).

Definition update_branch (i : nat) (f : branch -> branch) (s : state)
  : state :=
  set_branches (alter f i (branches s)) s.

(** [relay.subscribe([filter], ...)] after a successful [connect]. *)
Definition subscribed (f : filter) (b : branch) : branch :=
  mkBranch (url b) Connected (Some f) true (eventCount b) (relay_done b).

(** [await relay.connect()] succeeded. *)
Definition connected (b : branch) : branch :=
  mkBranch (url b) Connected (subscription b) (sub_open b) (eventCount b)
    (relay_done b).

(** The [catch] of a branch: the async function returns. *)
Definition failed (b : branch) : branch :=
  mkBranch (url b) ConnectFailed (subscription b) (sub_open b)
    (eventCount b) true.

(** [sub.close()] *)
Definition close_sub (b : branch) : branch :=
  mkBranch (url b) (conn b) (subscription b) false (eventCount b)
    (relay_done b).

(** [resolveRelay()] *)
Definition resolveRelay (b : branch) : branch :=
  mkBranch (url b) (conn b) (subscription b) (sub_open b) (eventCount b)
    true.

(** [eventCount++] *)
Definition count_event (b : branch) : branch :=
  mkBranch (url b) (conn b) (subscription b) (sub_open b)
    (S (eventCount b)) (relay_done b).

(** [resolve(v)] of the returned promise: only the first call counts. *)
Definition resolve (v : option MatchResult) (s : state) : state :=
  match resolved s with
  | Some _ => s
  | None => set_resolved v s
  end.

Definition all_settled (s : state) : bool :=
  forallb relay_done (branches s).

(** [Promise.all(relayPromises).then(() => resolve(zapReceipt))]: runs
    once, as soon as every branch promise is resolved. *)
Definition promise_all (s : state) : state :=
  if negb (all_done s) && all_settled s
  then resolve (zapReceipt s) (set_all_done s)
  else s.

(** [x.slice] is a function when [x] is a string or an array; on any other
    value [x.slice(0, 16)] throws a [TypeError]. *)
Definition has_slice (v : json) : bool :=
  match v with
  | JString _ | JArray _ => true
  | _ => false
  end.

(** The log lines that [onevent] prints for an accepted record, before it
    stores the receipt, can be printed: the sender has a [slice] and the
    slice can be converted to a string, and so can the comment when it is
    truthy.  (The recipient and the event id are strings.) *)
Definition printable (parsed : MatchResult) : bool :=
  has_slice (senderPubkey parsed)
  && negb (template_slice_throws (Some (senderPubkey parsed)))
  && negb (template_or_throws (Some (comment parsed))).

(** [await relay.connect()] succeeded: subscribe and arm the branch
    timer. *)
Definition on_connect (q : query) (i : nat) (s : state) : state :=
  match branches s !! i with
  | Some b =>
      match conn b with
      | Connecting =>
          let f := make_filter (q_recipientPubkey q) in
          let s1 := update_branch i (subscribed f) s in
          set_timers
            (timers s1 ++ [((now s1 + RELAY_TIMEOUT)%N, RelayTimer i)]) s1
      | _ => s
      end
  | None => s
  end.

(** [await relay.connect()] succeeded and [relay.subscribe] threw, inside
    the executor of the promise that the branch returns: no timer is
    armed, the promise of the branch is rejected (the [try] of the branch
    does not await it), [Promise.all] is rejected and its [catch] calls
    [resolve(null)].  The branch promise is never resolved, so the [then]
    of [Promise.all] never runs. *)
Definition on_subscribe_error (i : nat) (s : state) : state :=
  match branches s !! i with
  | Some b =>
      match conn b with
      | Connecting => resolve None (update_branch i connected s)
      | _ => s
      end
  | None => s
  end.

(** [new RelayFactory(url)] or [relay.connect()] threw. *)
Definition on_connect_error (i : nat) (s : state) : state :=
  match branches s !! i with
  | Some b =>
      match conn b with
      | Connecting => promise_all (update_branch i failed s)
      | _ => s
      end
  | None => s
  end.

(** The [onevent] callback of branch [i].  An exception thrown inside it
    (by a log line that cannot be printed) leaves the callback before
    [zapReceipt] is assigned. *)
Definition onevent (q : query) (i : nat) (ev : event) (s : state) : state :=
  match branches s !! i with
  | Some b =>
      if sub_open b then
        let s1 := update_branch i count_event s in
        match zapReceipt s1 with
        | Some _ => s1
        | None =>
            let s2 := incr_matcher_calls s1 in
            match parseZapReceipt ev (q_invoice q) with
            | Normal (Some parsed) =>
                if printable parsed then
                  promise_all
                    (update_branch i resolveRelay
                       (update_branch i close_sub (set_zapReceipt parsed s2)))
                else s2
            | Normal None => s2
            | Throw => s2
            end
        end
      else s
  | None => s
  end.

(** The [oneose] callback of branch [i]. *)
Definition oneose (i : nat) (s : state) : state :=
  match branches s !! i with
  | Some b =>
      if sub_open b then
        let s1 := incr_completedRelays (update_branch i close_sub s) in
        let s2 :=
          if (totalRelays s1 <=? completedRelays s1)%nat
             || bool_decide (is_Some (zapReceipt s1))
          then update_branch i resolveRelay s1
          else s1 in
        promise_all s2
      else s
  | None => s
  end.

(** The callbacks of the two kinds of timer. *)
Definition fire (id : timer_id) (s : state) : state :=
  match id with
  | RelayTimer i =>
      promise_all (update_branch i resolveRelay (update_branch i close_sub s))
  | OverallTimer =>
      match zapReceipt s with
      | None => resolve None s
      | Some _ => s
      end
  end.

(** The pending timer that is due first (the one created first, among
    equals), and the others. *)
Fixpoint pop_earliest (l : list timer) : option (timer * list timer) :=
  match l with
  | [] => None
  | t :: l' =>
      match pop_earliest l' with
      | Some (t', r) =>
          if (fst t' <? fst t)%N then Some (t', t :: r) else Some (t, l')
      | None => Some (t, [])
      end
  end.

(** Run, in order, the timers that are due at or before [target]. *)
Fixpoint fire_due (fuel : nat) (target : N) (s : state) : state :=
  match fuel with
  | O => s
  | S fuel' =>
      match pop_earliest (timers s) with
      | Some ((due, id), rest) =>
          if (due <=? target)%N
          then fire_due fuel' target (fire id (set_now due (set_timers rest s)))
          else s
      | None => s
      end
  end.

(** Time passes by [dt] milliseconds with nothing arriving. *)
Definition advance (dt : N) (s : state) : state :=
  let target := (now s + dt)%N in
  set_now target (fire_due (length (timers s)) target s).

(** What the environment does: a connection attempt of branch [i]
    succeeds (and so does the call of [subscribe]) or fails, a relay
    delivers a record or the end of its stored results to the subscription
    of branch [i], time passes, a connection attempt of branch [i] succeeds
    and the call of [subscribe] throws. *)
Inductive input : Type :=
| ConnectOk (i : nat)
| ConnectError (i : nat)
| Deliver (i : nat) (ev : event)
| Eose (i : nat)
| Advance (dt : N)
| SubscribeError (i : nat).

Definition step (q : query) (s : state) (inp : input) : state :=
  match inp with
  | ConnectOk i => on_connect q i s
  | ConnectError i => on_connect_error i s
  | Deliver i ev => onevent q i ev s
  | Eose i => oneose i s
  | Advance dt => advance dt s
  | SubscribeError i => on_subscribe_error i s
  end.

(** The state when the executor of the returned promise has run: every
    branch is connecting and the overall timer is armed. *)
Definition init (q : query) : state :=
  promise_all
    (mkState 0 None 0 (length (q_relayUrls q))
       (map (fun u => mkBranch u Connecting None false 0 false)
          (q_relayUrls q))
       [(OVERALL_TIMEOUT, OverallTimer)] false None 0 0).

Definition run (q : query) (s : state) (tr : list input) : state :=
  fold_left (step q) tr s.

(** One call, against an environment that behaves as [env] says. *)
Definition fetchZapReceiptForInvoice (invoice : string)
    (recipientPubkey : option string) (relayUrls : option (list string))
    (env : list input) : state :=
  let q := mkQuery invoice recipientPubkey
             (default default_relayUrls relayUrls) in
  run q (init q) env.

(** What the caller observes: the promise is still pending, or it is
    fulfilled with a receipt or with [null].  The executor never rejects
    it. *)
Inductive outcome : Type :=
| Pending
| Fulfilled (v : option MatchResult)
| Rejected.

Definition outcome_of (s : state) : outcome :=
  match resolved s with
  | Some (v, _) => Fulfilled v
  | None => Pending
  end.

End Coordinator.
Export Coordinator.

(** ** The batch wrapper: [fetchZapReceiptsForInvoices] *)

Module Batch.






End Batch.
Export Batch.

(** ** Traces and invariants *)

Module Invariants.

(** The time that passes during a trace. *)
Definition elapsed (tr : list input) : N :=
  fold_right
    (fun inp acc =>
       match inp with
       | Advance dt => (dt + acc)%N
       | _ => acc
       end) 0%N tr.

(** No call of [subscribe] throws. *)
Definition subscribes (tr : list input) : bool :=
  forallb
    (fun inp =>
       match inp with
       | SubscribeError _ => false
       | _ => true
       end) tr.

(** No relay delivers a record. *)
Definition silent (tr : list input) : bool :=
  forallb
    (fun inp =>
       match inp with
       | Deliver _ _ => false
       | _ => true
       end) tr.

(** The timers and the returned promise.  This holds after every callback,
    also between two timer callbacks of one [advance]. *)
Record timing_inv (s : state) : Prop := mkTimingInv {
  ti_due : Forall (fun x : timer => (now s <= fst x)%N) (timers s);
  ti_overall : forall d, (d, OverallTimer) ∈ timers s -> d = OVERALL_TIMEOUT;
  ti_fired :
    (OVERALL_TIMEOUT, OverallTimer) ∈ timers s
    \/ is_Some (zapReceipt s) \/ is_Some (resolved s);
  ti_null :
    forall t, resolved s = Some (None, t) ->
              (t <= OVERALL_TIMEOUT)%N \/ is_Some (zapReceipt s);
  ti_value : forall r t, resolved s = Some (Some r, t) -> zapReceipt s = Some r
}.

(** Between two inputs every pending timer is due in the future. *)
Definition timers_pending (s : state) : Prop :=
  Forall (fun x : timer => (now s < fst x)%N) (timers s).

(** While the subscription of branch [j] is open, the timer of the branch
    is pending, due by [bound]. *)
Definition sub_timed_by (bound : N) (j : nat) (s : state) : Prop :=
  forall b,
    branches s !! j = Some b -> sub_open b = true ->
    exists d, (d, RelayTimer j) ∈ timers s /\ (d <= bound)%N.

(** A branch: its subscription is open only on an open connection, and it
    was opened with the filter of this query. *)
Definition branch_ok (q : query) (b : branch) : Prop :=
  (sub_open b = true -> conn b = Connected)
  /\ (forall f, subscription b = Some f ->
                f = make_filter (q_recipientPubkey q)).

Definition branches_inv (q : query) (s : state) : Prop :=
  forall i b, branches s !! i = Some b -> branch_ok q b.

(** [zapReceipt] has been assigned exactly when it is set. *)
Definition writes_inv (s : state) : Prop :=
  writes s = match zapReceipt s with Some _ => 1 | None => 0 end.

(** The connection, or the subscription, of branch [i] is open. *)
Definition connection_open (s : state) (i : nat) : Prop :=
  conn <$> branches s !! i = Some Connected.

Definition subscription_open (s : state) (i : nat) : Prop :=
  sub_open <$> branches s !! i = Some true.

(** What a branch is, apart from its count of events. *)
Definition branch_status (b : branch)
  : string * conn_state * option filter * bool * bool :=
  (url b, conn b, subscription b, sub_open b, relay_done b).

(** Two states that differ at most in their counters of events and of
    matcher calls. *)
Definition same_but_counters (s s' : state) : Prop :=
  now s' = now s /\ zapReceipt s' = zapReceipt s
  /\ completedRelays s' = completedRelays s
  /\ totalRelays s' = totalRelays s /\ timers s' = timers s
  /\ all_done s' = all_done s /\ resolved s' = resolved s
  /\ writes s' = writes s
  /\ branch_status <$> branches s' = branch_status <$> branches s.

(** The states a call can be in. *)
Definition reachable (q : query) (s : state) : Prop :=
  exists tr, s = run q (init q) tr.

End Invariants.
Export Invariants.

(** ** Concrete scenarios *)

Module Scenarios.

Definition two_relays : query :=
  mkQuery fixture_invoice (Some "abc123...") ["relay-1"; "relay-2"].

Definition one_relay : query :=
  mkQuery fixture_invoice (Some "abc123...") ["relay-1"].

(** The record of the literal scenario, with another value in [tag]. *)
Definition fixture_with (tag : list string) : event :=
  mkEvent (Some [["bolt11"; "lnbc100n1p..."];
                 ["description"; fixture_description];
                 tag]).

(** The record of the literal scenario after a bolt11 tag with another
    invoice. *)
Definition two_bolt11_event : event :=
  mkEvent (Some [["bolt11"; "lnbc999n1p..."];
                 ["bolt11"; "lnbc100n1p..."];
                 ["description"; fixture_description];
                 ["p"; "abc123..."]]).

(** The record of the literal scenario with an empty bolt11 value. *)
Definition empty_bolt11_event : event :=
  mkEvent (Some [["bolt11"; ""];
                 ["description"; fixture_description];
                 ["p"; "abc123..."]]).

(** The record of the literal scenario with another description. *)
Definition described_as (d : string) : event :=
  mkEvent (Some [["bolt11"; "lnbc100n1p..."]; ["description"; d];
                 ["p"; "abc123..."]]).

(** A record whose embedded request has the number 5 as its pubkey. *)
Definition numeric_sender_description : string :=
  "{" +:+ quoted "kind" +:+ ":9734," +:+ quoted "pubkey" +:+ ":5}".

Definition numeric_sender_event : event :=
  mkEvent (Some [["bolt11"; "lnbc100n1p..."];
                 ["description"; numeric_sender_description];
                 ["p"; "abc123..."]]).

Definition numeric_sender_result : MatchResult :=
  mkMatchResult (JNumber 5 0) "abc123..." None (JString "").

End Scenarios.
Export Scenarios.

(** ** Progress of a call *)

Module Progress.

(** Branch [j] still waits for the answer of [relay.connect()]. *)
Definition connecting (s : state) (j : nat) : Prop :=
  conn <$> branches s !! j = Some Connecting.

(** The environment does not answer the connection attempt of branch
    [j]. *)
Definition unanswered (j : nat) (tr : list input) : bool :=
  forallb
    (fun inp =>
       match inp with
       | ConnectOk i | ConnectError i | SubscribeError i =>
           negb (Nat.eqb i j)
       | _ => true
       end) tr.

(** A branch that waits for its connection has no subscription, no timer
    and an unresolved promise. *)
Definition idle (s : state) (j : nat) : Prop :=
  exists b,
    branches s !! j = Some b /\ conn b = Connecting /\ sub_open b = false
    /\ relay_done b = false /\ forall d, (d, RelayTimer j) ∉ timers s.

Definition connecting_inv (s : state) : Prop :=
  forall j, connecting s j -> idle s j.

(** The returned promise was resolved by [bound]. *)
Definition resolved_by (bound : N) (s : state) : Prop :=
  forall v t, resolved s = Some (v, t) -> (t <= bound)%N.

(** While the call has not returned, every branch whose promise is
    unresolved waits for its connection or has its timer pending, due by
    [bound]. *)
Definition pending_timed_by (bound : N) (s : state) : Prop :=
  resolved s = None ->
  forall j b,
    branches s !! j = Some b -> relay_done b = false ->
    conn b = Connecting
    \/ exists d, (d, RelayTimer j) ∈ timers s /\ (d <= bound)%N.

(** The call with every connection attempt answered: no branch waits for
    its connection, the unresolved branches have their timers pending, due
    by [bound], and if the call has returned it did so by [bound]. *)
Definition answered_by (bound : N) (s : state) : Prop :=
  (forall j, ~ connecting s j)
  /\ pending_timed_by bound s
  /\ resolved_by bound s.

(** Once every branch promise is resolved, the continuation of
    [Promise.all] has run and the returned promise is resolved. *)
Definition settled_inv (s : state) : Prop :=
  all_done s = true \/ all_settled s = true -> is_Some (resolved s).

(** The connection of branch [j] after one callback: nothing but the
    answer to its own connection attempt changes it. *)
Definition conn_after (inp : input) (j : nat) (c : conn_state)
  : conn_state :=
  match c, inp with
  | Connecting, ConnectOk i | Connecting, SubscribeError i =>
      if Nat.eqb i j then Connected else Connecting
  | Connecting, ConnectError i =>
      if Nat.eqb i j then ConnectFailed else Connecting
  | _, _ => c
  end.



End Progress.
Export Progress.

(** ** JavaScript operations on parsed values *)

(** What the wallet code does with values that come out of [JSON.parse]
    unchecked: indexing and [Array.prototype.find] with a callback that
    may throw. *)

Module JsValues.

(** The UTF-16 code units of a string (given by its UTF-8 bytes; a code
    point above [0xFFFF] is a surrogate pair). *)
Fixpoint code_units (s : string) : list N :=
  match s with
  | EmptyString => []
  | String c r =>
      let b := N_of_ascii c in
      let x (a : ascii) := (N_of_ascii a - 128)%N in
      if (b <? 192)%N then b :: code_units r
      else if (b <? 224)%N then
        match r with
        | String c1 r1 => ((b - 192) * 64 + x c1)%N :: code_units r1
        | _ => b :: code_units r
        end
      else if (b <? 240)%N then
        match r with
        | String c1 (String c2 r2) =>
            ((b - 224) * 4096 + x c1 * 64 + x c2)%N :: code_units r2
        | _ => b :: code_units r
        end
      else
        match r with
        | String c1 (String c2 (String c3 r3)) =>
            let cp :=
              ((b - 240) * 262144 + x c1 * 4096 + x c2 * 64 + x c3)%N in
            (55296 + (cp - 65536) / 1024)%N
              :: (56320 + (cp - 65536) mod 1024)%N :: code_units r3
        | _ => b :: code_units r
        end
  end.

(** [s[n]]: the string of the [n]-th code unit. *)
Definition char_at (s : string) (n : nat) : option string :=
  utf8 <$> code_units s !! n.

(** The array index that a property key denotes: a decimal numeral
    without a leading zero. *)
Definition canonical_index (k : string) : option nat :=
  match k with
  | EmptyString => None
  | String c r =>
      let '(v, _, rest) := parse_digits k 0%Z 0 in
      if String.eqb rest ""
         && negb (Ascii.eqb c "0" && negb (String.eqb r ""))
      then Some (Z.to_nat v)
      else None
  end.

(** The number [n], as a parsed value. *)
Definition json_of_nat (n : nat) : json := number_value false (Z.of_nat n) 0.

(** The own property [k] of a parsed value: a member of an object, an
    element or the [length] of an array, a character or the [length] of a
    string.  Numbers and booleans have none. *)
Definition own_property (v : json) (k : string) : option json :=
  match v with
  | JObject l => obj_lookup k l
  | JArray l =>
      if String.eqb k "length" then Some (json_of_nat (length l))
      else match canonical_index k with
           | Some n => l !! n
           | None => None
           end
  | JString s =>
      if String.eqb k "length"
      then Some (json_of_nat (length (code_units s)))
      else match canonical_index k with
           | Some n => JString <$> char_at s n
           | None => None
           end
  | JNull | JBool _ | JNumber _ _ | JInfinity _ => None
  end.

(** [v[k]], for a key [k] that no prototype defines, such as an array
    index: a [TypeError] on [null], the own property otherwise, [undefined]
    when there is none. *)
Definition index_key (v : json) (k : string) : completion (option json) :=
  match v with
  | JNull => Throw
  | _ => Normal (own_property v k)
  end.

(** What [v[k]] gives for an arbitrary key [k], when it is not
    [undefined]: an own property, or a property that [v] inherits from its
    prototypes ([constructor], [toString], [__proto__] and so on), which
    is a built-in function or object. *)
Inductive property : Type :=
| Own (v : json)
| Inherited.

(** [v[k]] for an arbitrary key.  Which keys the prototypes of a value
    define depends on the JavaScript engine: [inherited v k] tells whether
    those of [v] define [k]. *)
Definition get_property (inherited : json -> string -> bool) (v : json)
    (k : string) : completion (option property) :=
  match v with
  | JNull => Throw
  | _ =>
      Normal (match own_property v k with
              | Some x => Some (Own x)
              | None => if inherited v k then Some Inherited else None
              end)
  end.

(** [l.find(p)] for a callback that may throw. *)
Fixpoint array_find (p : json -> completion bool) (l : list json)
  : completion (option json) :=
  match l with
  | [] => Normal None
  | x :: l' =>
      b ← p x;
      if b : bool then Normal (Some x) else array_find p l'
  end.

(** The callback [(t) => t[0] === k]. *)
Definition tag_key_is (k : string) (t : json) : completion bool :=
  x ← index_key t "0";
  Normal (match x with
          | Some (JString s) => String.eqb s k
          | _ => false
          end).

(** [tags?.find((t) => t[0] === k)]: [undefined] on a missing or [null]
    [tags], a [TypeError] when [tags] is no array (no other value has a
    function [find]). *)
Definition find_tag_in (tags : option json) (k : string)
  : completion (option json) :=
  match tags with
  | None | Some JNull => Normal None
  | Some (JArray l) => array_find (tag_key_is k) l
  | Some _ => Throw
  end.

(** The value of [tag[1]] when the condition [tag && tag[1]] holds. *)
Definition guarded_second (tag : option json) : completion (option json) :=
  match tag with
  | Some t =>
      if truthy tag then
        v ← index_key t "1";
        Normal (if truthy v then v else None)
      else Normal None
  | None => Normal None
  end.

(** The properties that every value but [null] inherits from
    [Object.prototype]. *)
Definition object_prototype_keys : list string :=
  ["constructor"; "__proto__"; "hasOwnProperty"; "isPrototypeOf";
   "propertyIsEnumerable"; "toLocaleString"; "toString"; "valueOf";
   "__defineGetter__"; "__defineSetter__"; "__lookupGetter__";
   "__lookupSetter__"].

Definition object_prototype (v : json) (k : string) : bool :=
  bool_decide (k ∈ object_prototype_keys).

(** A list of tags, as a JSON value. *)
Definition json_tags (ts : list (list string)) : json :=
  JArray ((fun t : list string => JArray (JString <$> t)) <$> ts).

End JsValues.
Export JsValues.

(** ** Zap data kept in [localStorage]: [getZapData] *)

Module ZapStorage.

Definition ZAP_DATA_STORAGE_KEY : string := "primal_spark_zap_data".

(** [localStorage] is a map from keys to strings; [getItem] gives [null]
    for a key that is not there.  The result is the property [paymentHash]
    of the parsed value when it is truthy (an inherited function or object
    is), and [null] ([None]) otherwise, also on every exception. *)
Definition getZapData (inherited : json -> string -> bool)
    (localStorage : gmap string string) (paymentHash : string)
  : option property :=
  let item := localStorage !! ZAP_DATA_STORAGE_KEY in
  let text := if truthy_str item then default "{}" item else "{}" in
  match JSON_parse text with
  | None => None
  | Some existing =>
      match get_property inherited existing paymentHash with
      | Normal (Some (Own v)) => if truthy (Some v) then Some (Own v) else None
      | Normal (Some Inherited) => Some Inherited
      | Normal None => None
      | Throw => None
      end
  end.

End ZapStorage.
Export ZapStorage.

(** ** The wallet service: [fetchZapReceiptForPayment] and
    [enrichPaymentWithZapData] *)

Module BreezWallet.

(** Amounts and timestamps are whole numbers.  The zap fields are typed
    as strings in the source but are filled with unchecked JSON values. *)
Record BreezPaymentInfo : Type := mkPayment {
  id : string;
  amount : Z;
  fees : Z;
  paymentType : string;
  status : string;
  timestamp : Z;
  description : option string;
  invoice : option string;
  preimage : option string;
  paymentHash : option string;
  isZap : option bool;
  zapSenderPubkey : option json;
  zapRecipientPubkey : option json;
  zapComment : option json;
  zapEventId : option json
}.

Definition set_isZap (payment : BreezPaymentInfo) : BreezPaymentInfo :=
  mkPayment (id payment) (amount payment) (fees payment)
    (paymentType payment) (status payment) (timestamp payment)
    (description payment) (invoice payment) (preimage payment)
    (paymentHash payment) (Some true) (zapSenderPubkey payment)
    (zapRecipientPubkey payment) (zapComment payment) (zapEventId payment).

Definition set_zapSenderPubkey (v : option json) (payment : BreezPaymentInfo)
  : BreezPaymentInfo :=
  mkPayment (id payment) (amount payment) (fees payment)
    (paymentType payment) (status payment) (timestamp payment)
    (description payment) (invoice payment) (preimage payment)
    (paymentHash payment) (isZap payment) v
    (zapRecipientPubkey payment) (zapComment payment) (zapEventId payment).

Definition set_zapRecipientPubkey (v : option json)
    (payment : BreezPaymentInfo) : BreezPaymentInfo :=
  mkPayment (id payment) (amount payment) (fees payment)
    (paymentType payment) (status payment) (timestamp payment)
    (description payment) (invoice payment) (preimage payment)
    (paymentHash payment) (isZap payment) (zapSenderPubkey payment)
    v (zapComment payment) (zapEventId payment).

Definition set_zapComment (v : option json) (payment : BreezPaymentInfo)
  : BreezPaymentInfo :=
  mkPayment (id payment) (amount payment) (fees payment)
    (paymentType payment) (status payment) (timestamp payment)
    (description payment) (invoice payment) (preimage payment)
    (paymentHash payment) (isZap payment) (zapSenderPubkey payment)
    (zapRecipientPubkey payment) v (zapEventId payment).

Definition set_zapEventId (v : option json) (payment : BreezPaymentInfo)
  : BreezPaymentInfo :=
  mkPayment (id payment) (amount payment) (fees payment)
    (paymentType payment) (status payment) (timestamp payment)
    (description payment) (invoice payment) (preimage payment)
    (paymentHash payment) (isZap payment) (zapSenderPubkey payment)
    (zapRecipientPubkey payment) (zapComment payment) v.

(** [if (c) payment.f = v] *)
Definition set_if_truthy
    (set : option json -> BreezPaymentInfo -> BreezPaymentInfo)
    (v : option json) (payment : BreezPaymentInfo) : BreezPaymentInfo :=
  if truthy v then set v payment else payment.

(** [ToBoolean] of [payment.isZap]. *)
Definition truthy_flag (v : option bool) : bool :=
  match v with
  | Some b => b
  | None => false
  end.

(** *** [fetchZapReceiptForPayment] *)

(** The assignments made when a receipt was found. *)
Definition enriched_by (zapReceipt : MatchResult) (payment : BreezPaymentInfo)
  : BreezPaymentInfo :=
  set_zapComment (Some (comment zapReceipt))
    (set_zapEventId (JString <$> eventId zapReceipt)
       (set_zapRecipientPubkey (Some (JString (recipientPubkey zapReceipt)))
          (set_zapSenderPubkey (Some (senderPubkey zapReceipt))
             (set_isZap payment)))).

(** The two log lines after the assignments. *)
Definition receipt_log_lines (payment : BreezPaymentInfo) : completion unit :=
  if template_slice_throws (zapSenderPubkey payment)
     || template_or_throws (zapEventId payment)
  then Throw
  else Normal ().

(** One call, against relays that behave as [env] says.  The result is
    [None] while the promise is pending.  The dynamic import of the fetch
    module is taken to succeed. *)
Definition fetchZapReceiptForPayment (payment : BreezPaymentInfo)
    (userPubkey : string) (env : list input) : option BreezPaymentInfo :=
  if negb (String.eqb (paymentType payment) "receive")
     || truthy_flag (isZap payment)
     || negb (truthy_str (invoice payment))
  then Some payment
  else
    match invoice payment with
    | None => Some payment
    | Some inv =>
        match outcome_of
                (fetchZapReceiptForInvoice inv (Some userPubkey) None env)
        with
        | Pending => None
        | Rejected => Some payment
        | Fulfilled None => Some payment
        | Fulfilled (Some zapReceipt) =>
            let payment' := enriched_by zapReceipt payment in
            match receipt_log_lines payment' with
            | Normal _ => Some payment'
            | Throw => Some payment'
            end
        end
    end.

(** *** [enrichPaymentWithZapData] *)

(** The four log lines that end both [try] blocks. *)
Definition zap_log_lines (payment : BreezPaymentInfo) : completion unit :=
  if template_slice_throws (zapSenderPubkey payment)
     || template_slice_throws (zapRecipientPubkey payment)
     || template_or_throws (zapEventId payment)
     || template_or_throws (zapComment payment)
  then Throw
  else Normal ().

(** The body of [if (zapData)] in the first [try] block, for a stored
    value: the payment as it is when the block is left, and how it is
    left. *)
Definition enrich_from_stored (zapData : json) (payment : BreezPaymentInfo)
  : BreezPaymentInfo * completion unit :=
  let p1 := set_isZap payment in
  match get_prop zapData "zapRequest" with
  | Throw | Normal None => (p1, Throw)
  | Normal (Some zapRequest) =>
      match get_prop zapRequest "pubkey" with
      | Throw => (p1, Throw)
      | Normal pubkey =>
          let p2 := set_zapSenderPubkey pubkey p1 in
          match get_prop zapData "recipientPubkey" with
          | Throw => (p2, Throw)
          | Normal recipient =>
              let p3 := set_zapRecipientPubkey recipient p2 in
              match get_prop zapRequest "content" with
              | Throw => (p3, Throw)
              | Normal content =>
                  let p4 := set_zapComment (Some (or_empty content)) p3 in
                  match
                    tags ← get_prop zapRequest "tags";
                    eTag ← find_tag_in tags "e";
                    guarded_second eTag
                  with
                  | Throw => (p4, Throw)
                  | Normal eventId =>
                      let p5 := set_if_truthy set_zapEventId eventId p4 in
                      (p5, zap_log_lines p5)
                  end
              end
          end
      end
  end.

(** The body of [if (zapData)].  A built-in function or object has no
    [zapRequest], so that reading [zapData.zapRequest.pubkey] throws after
    the payment has been marked. *)
Definition enrich_from_storage (zapData : property)
    (payment : BreezPaymentInfo) : BreezPaymentInfo * completion unit :=
  match zapData with
  | Own v => enrich_from_stored v payment
  | Inherited => (set_isZap payment, Throw)
  end.

(** The second [try] block, after [JSON.parse]. *)
Definition enrich_from_description (zapRequest : json)
    (payment : BreezPaymentInfo) : BreezPaymentInfo * completion unit :=
  match get_prop zapRequest "kind" with
  | Throw => (payment, Throw)
  | Normal kind =>
      if template_throws kind then (payment, Throw)
      else if strict_ne_9734 kind then (payment, Normal ())
      else
        let p1 := set_isZap payment in
        match get_prop zapRequest "pubkey" with
        | Throw => (p1, Throw)
        | Normal pubkey =>
            let p2 := set_if_truthy set_zapSenderPubkey pubkey p1 in
            match
              tags ← get_prop zapRequest "tags";
              pTag ← find_tag_in tags "p";
              guarded_second pTag
            with
            | Throw => (p2, Throw)
            | Normal recipient =>
                let p3 :=
                  set_if_truthy set_zapRecipientPubkey recipient p2 in
                match
                  tags ← get_prop zapRequest "tags";
                  eTag ← find_tag_in tags "e";
                  guarded_second eTag
                with
                | Throw => (p3, Throw)
                | Normal eventId =>
                    let p4 := set_if_truthy set_zapEventId eventId p3 in
                    match get_prop zapRequest "content" with
                    | Throw => (p4, Throw)
                    | Normal content =>
                        let p5 := set_if_truthy set_zapComment content p4 in
                        (p5, zap_log_lines p5)
                    end
                end
            end
        end
  end.

(** The part after the first [try] block: both ways out of the second
    block return the payment. *)
Definition enrich_second_try (payment : BreezPaymentInfo)
  : BreezPaymentInfo :=
  if negb (truthy_str (description payment)) then payment
  else
    match description payment with
    | None => payment
    | Some d =>
        match JSON_parse d with
        | None => payment
        | Some zapRequest => fst (enrich_from_description zapRequest payment)
        end
    end.

Definition enrichPaymentWithZapData (inherited : json -> string -> bool)
    (localStorage : gmap string string) (payment : BreezPaymentInfo)
  : BreezPaymentInfo :=
  let zapData :=
    if truthy_str (paymentHash payment)
    then h ← paymentHash payment; getZapData inherited localStorage h
    else None in
  match zapData with
  | Some zapData =>
      match enrich_from_storage zapData payment with
      | (payment', Normal _) => payment'
      | (payment', Throw) => enrich_second_try payment'
      end
  | None => enrich_second_try payment
  end.

(** The fields that are no zap fields. *)
Definition payment_data (payment : BreezPaymentInfo) :=
  (id payment, amount payment, fees payment, paymentType payment,
   status payment, timestamp payment, description payment, invoice payment,
   preimage payment, paymentHash payment).

(** A payment with the data of [payment] that is marked as a zap. *)
Definition marked_like (payment payment' : BreezPaymentInfo) : Prop :=
  payment_data payment' = payment_data payment /\ isZap payment' = Some true.

End BreezWallet.

(** *** Payments of the wallet, as scenarios *)

Module WalletScenarios.

Import BreezWallet.

(** An incoming payment for the invoice of the literal scenario. *)
Definition incoming_payment : BreezPaymentInfo :=
  mkPayment "payment-1" 100 0 "receive" "completed" 1700000000 None
    (Some fixture_invoice) None None None None None None None.

(** The first default relay connects and delivers the record of the
    literal scenario; the other three fail to connect. *)
Definition answering_relays : list input :=
  [ConnectOk 0; ConnectError 1; ConnectError 2; ConnectError 3;
   Deliver 0 fixture_event].

Definition incoming_zap : BreezPaymentInfo :=
  mkPayment "payment-1" 100 0 "receive" "completed" 1700000000 None
    (Some fixture_invoice) None None (Some true) (Some (JString "sender1"))
    (Some (JString "abc123...")) (Some (JString "gm")) None.

(** A payment whose description is no JSON text. *)
Definition coffee_payment : BreezPaymentInfo :=
  mkPayment "payment-2" 21 1 "send" "completed" 1700000000 (Some "Coffee")
    None None None None None None None None.

(** A payment whose description is the zap request of the literal
    scenario. *)
Definition described_zap : BreezPaymentInfo :=
  mkPayment "payment-3" 21 1 "send" "completed" 1700000000
    (Some fixture_description) None None None None None None None None.

(** A payment with a payment hash and a description that is no zap
    request. *)
Definition hashed_payment : BreezPaymentInfo :=
  mkPayment "payment-4" 21 1 "send" "completed" 1700000000 (Some "Coffee")
    None None (Some "00ff") None None None None None.

(** A store with the zap request of the literal scenario under the hash
    00ff, and one with the number 1 there. *)
Definition zap_storage : gmap string string :=
  {[ ZAP_DATA_STORAGE_KEY :=
       "{" +:+ quoted "00ff" +:+ ":{" +:+ quoted "zapRequest" +:+ ":"
       +:+ fixture_description +:+ "," +:+ quoted "recipientPubkey" +:+ ":"
       +:+ quoted "abc123..." +:+ "}}" ]}.

Definition odd_storage : gmap string string :=
  {[ ZAP_DATA_STORAGE_KEY := "{" +:+ quoted "00ff" +:+ ":1}" ]}.

(** A payment whose hash is the name of a built-in property. *)
Definition constructor_payment : BreezPaymentInfo :=
  mkPayment "payment-5" 21 1 "send" "completed" 1700000000 (Some "Coffee")
    None None (Some "constructor") None None None None None.

End WalletScenarios.

(** ** Zap endpoints and zap events: [getZapEndpoint],
    [canUserReceiveZaps], [convertToZap] *)

Module Zap.

(** The two fields of a user that these functions read. *)
Record PrimalUser : Type := mkUser {
  lud06 : option string;
  lud16 : option string
}.

(** [s.split(sep)] for a separator of one character. *)
Fixpoint split (sep : ascii) (s : string) : list string :=
  match s with
  | EmptyString => [""]
  | String c r =>
      if Ascii.eqb c sep then "" :: split sep r
      else
        match split sep r with
        | x :: xs => String c x :: xs
        | [] => [String c ""]
        end
  end.

(** The separator does not occur in the string. *)
Fixpoint free_of (sep : ascii) (s : string) : bool :=
  match s with
  | EmptyString => true
  | String c r => negb (Ascii.eqb c sep) && free_of sep r
  end.

(** A destructured array element inside a template literal. *)
Definition or_undefined (v : option string) : string :=
  default "undefined" v.

(** The address that is fetched.  [decode] stands for the three library
    calls that turn a bech32 [lud06] into an address, any of which may
    throw; [Normal None] is the early [return null]. *)
Definition lnurl_of (decode : string -> completion string)
    (user : PrimalUser) : completion (option string) :=
  if truthy_str (lud16 user) then
    let parts := split "@" (default "" (lud16 user)) in
    let name := parts !! 0 in
    let domain := parts !! 1 in
    Normal (Some ("https://" +:+ or_undefined domain
                  +:+ "/.well-known/lnurlp/" +:+ or_undefined name))
  else if truthy_str (lud06 user) then
    lnurl ← decode (default "" (lud06 user));
    Normal (Some lnurl)
  else Normal None.

(** [body.allowsNostr && body.nostrPubkey] as a condition. *)
Definition allows_zaps (body : json) : completion bool :=
  allowsNostr ← get_prop body "allowsNostr";
  if truthy allowsNostr then
    nostrPubkey ← get_prop body "nostrPubkey";
    Normal (truthy nostrPubkey)
  else Normal false.

(** The value of the returned promise.  [fetch] stands for
    [await fetch(lnurl)] followed by [await res.json()], either of which
    may throw. *)
Definition getZapEndpoint (decode : string -> completion string)
    (fetch : string -> completion json) (user : PrimalUser) : option json :=
  match lnurl_of decode user with
  | Throw => Some JNull
  | Normal None => Some JNull
  | Normal (Some lnurl) =>
      match
        body ← fetch lnurl;
        ok ← allows_zaps body;
        if ok : bool then callback ← get_prop body "callback"; Normal (Some callback)
        else Normal None
      with
      | Throw => Some JNull
      | Normal (Some callback) => callback
      | Normal None => Some JNull
      end
  end.

Definition canUserReceiveZaps (user : option PrimalUser) : bool :=
  match user with
  | Some u => truthy_str (lud16 u) || truthy_str (lud06 u)
  | None => false
  end.

(** The fields of a zap event that [convertToZap] reads. *)
Record NostrUserZaps : Type := mkUserZaps {
  content_id : string;
  content_created_at : Z;
  content_tags : list (list string)
}.

(** The result; [reciver] is the name in the source.  The type of the
    amount is that of the library that decodes the invoice. *)
Record PrimalZap (A : Type) : Type := mkZap {
  id : string;
  message : json;
  amount : A;
  sender : option json;
  reciver : option json;
  created_at : Z;
  zappedId : string;
  zappedKind : Z
}.
Arguments mkZap {A}.
Arguments id {A}.
Arguments message {A}.
Arguments amount {A}.
Arguments sender {A}.
Arguments reciver {A}.
Arguments created_at {A}.
Arguments zappedId {A}.
Arguments zappedKind {A}.

(** [decodeAmount] stands for the [try] block that computes the amount
    from the invoice; it lets no exception out. *)
Definition convertToZap {A : Type} (decodeAmount : option string -> A)
    (zapContent : NostrUserZaps) : completion (PrimalZap A) :=
  let ev := mkEvent (Some (content_tags zapContent)) in
  let bolt11 := second (find_tag ev "bolt11") in
  let description := second (find_tag ev "description") in
  let text :=
    if truthy_str description then default "{}" description else "{}" in
  match JSON_parse text with
  | None => Throw
  | Some zapEvent =>
      senderPubkey ← get_prop zapEvent "pubkey";
      tags ← get_prop zapEvent "tags";
      match tags with
      | Some (JArray l) =>
          pTag ← array_find (tag_key_is "p") l;
          match pTag with
          | Some t =>
              receiverPubkey ← index_key t "1";
              content ← get_prop zapEvent "content";
              Normal (mkZap (content_id zapContent) (or_empty content)
                        (decodeAmount bolt11) senderPubkey receiverPubkey
                        (content_created_at zapContent) "" 0%Z)
          | None => Throw
          end
      | _ => Throw
      end
  end.

End Zap.

(** ** The payments list: pending durations and expanded rows *)

Module PaymentsList.

(** Timestamps and [Date.now()] are whole numbers below [2^53], on which
    the arithmetic of the source is exact: [Math.floor(a / b)] is [a / b]
    and [a % b] is [Z.rem a b]. *)

(** A timestamp below [10000000000] is taken to be in seconds. *)
Definition milliseconds (timestamp : Z) : Z :=
  if (timestamp <? 10000000000)%Z then (timestamp * 1000)%Z else timestamp.

Definition diffDays (diffMs : Z) : Z := (diffMs / (1000 * 60 * 60 * 24))%Z.

Definition diffHours (diffMs : Z) : Z :=
  (Z.rem diffMs (1000 * 60 * 60 * 24) / (1000 * 60 * 60))%Z.

Definition diffMinutes (diffMs : Z) : Z :=
  (Z.rem diffMs (1000 * 60 * 60) / (1000 * 60))%Z.

(** [now] is the value of [Date.now()]. *)
Definition formatPendingDuration (now timestamp : Z) : string :=
  let diffMs := (now - milliseconds timestamp)%Z in
  if (0 <? diffDays diffMs)%Z then
    pretty (diffDays diffMs) +:+ "d " +:+ pretty (diffHours diffMs) +:+ "h"
  else if (0 <? diffHours diffMs)%Z then
    pretty (diffHours diffMs) +:+ "h " +:+ pretty (diffMinutes diffMs) +:+ "m"
  else pretty (diffMinutes diffMs) +:+ "m".

Definition isPendingTooLong (now timestamp : Z) : bool :=
  (10 <? (now - milliseconds timestamp) / (1000 * 60))%Z.

(** The update of the set of expanded payments. *)
Definition toggleExpanded (paymentId : string) (prev : gset string)
  : gset string :=
  if decide (paymentId ∈ prev) then prev ∖ {[ paymentId ]}
  else prev ∪ {[ paymentId ]}.

End PaymentsList.

(** * Properties of the matcher *)

Section MatcherFacts.

Implicit Types (ev : event) (invoice : string) (r : MatchResult).

Lemma truthy_str_Some (v : option string) :
  truthy_str v = true <-> exists x, v = Some x /\ x <> "".
Proof.
  destruct v as [x|]; simpl.
  - rewrite negb_true_iff. split.
    + intros H. exists x. split; [done|]. intros ->.
      by rewrite String.eqb_refl in H.
    + intros (y & [= <-] & Hne). by apply String.eqb_neq.
  - split; [done|]. by intros (? & ? & _).
Qed.

Lemma strict_ne_9734_false (v : option json) :
  strict_ne_9734 v = false <-> v = Some (JNumber 9734 0).
Proof.
  split; [|by intros ->].
  destruct v as [[| |m e| | | |]|]; simpl; try done.
  destruct m as [|m|m]; try done.
  do 14 (destruct m as [m|m|]; try done).
  destruct e; done.
Qed.

Lemma JSON_parse_empty : JSON_parse "" = None.
Proof. reflexivity. Qed.

(** What an accepted record looks like. *)
Lemma parseZapReceipt_Some ev invoice r :
  parseZapReceipt ev invoice = Normal (Some r) <->
  invoice <> "" /\ tag_value ev "bolt11" = Some invoice /\
  exists d l p sender,
    tag_value ev "description" = Some d /\
    JSON_parse d = Some (JObject l) /\
    obj_lookup "kind" l = Some (JNumber 9734 0) /\
    tag_value ev "p" = Some p /\ p <> "" /\
    obj_lookup "pubkey" l = Some sender /\ truthy (Some sender) = true /\
    r = mkMatchResult sender p (tag_value ev "e")
          (or_empty (obj_lookup "content" l)).
Proof.
  unfold parseZapReceipt, parseZapReceipt_try, tag_value. split.
  - destruct (truthy_str (second (find_tag ev "bolt11"))) eqn:Hb; simpl;
      [|done].
    apply truthy_str_Some in Hb as (b & Hb & Hbne). rewrite Hb. simpl.
    destruct (String.eqb b invoice) eqn:Hbi; simpl; [|done].
    apply String.eqb_eq in Hbi as ->.
    destruct (second (find_tag ev "description")) as [d|] eqn:Hd; [|done].
    destruct (truthy_str (Some d)) eqn:Hdt; simpl; [|done].
    destruct (JSON_parse d) as [zr|] eqn:Hp; [|done].
    destruct zr as [| | | | |l|]; simpl; try done.
    destruct (strict_ne_9734 (obj_lookup "kind" l)) eqn:Hk; [done|].
    apply strict_ne_9734_false in Hk.
    destruct (second (find_tag ev "p")) as [p|] eqn:Hpt; [|done].
    destruct (truthy_str (Some p)) eqn:Hpp; simpl; [|done].
    apply truthy_str_Some in Hpp as (p' & [= <-] & Hpne).
    destruct (obj_lookup "pubkey" l) as [sp|] eqn:Hs; [|done].
    destruct (truthy (Some sp)) eqn:Hst; simpl; [|done].
    intros [= <-]. split; [done|]. split; [done|].
    exists d, l, p, sp. done.
  - intros (Hne & Hb & d & l & p & sp & Hd & Hp & Hk & Hpt & Hpne & Hs & Hst
            & ->).
    rewrite Hb. simpl.
    assert (String.eqb invoice "" = false) as -> by by apply String.eqb_neq.
    simpl. rewrite String.eqb_refl. simpl. rewrite Hd.
    assert (d <> "") as Hdne by (intros ->; by rewrite JSON_parse_empty in Hp).
    simpl. assert (String.eqb d "" = false) as -> by by apply String.eqb_neq.
    simpl. rewrite Hp. simpl. rewrite Hk. simpl. rewrite Hpt. simpl.
    assert (String.eqb p "" = false) as -> by by apply String.eqb_neq.
    simpl. rewrite Hs, Hst. done.
Qed.

(** The function never lets an exception out. *)
Lemma parseZapReceipt_no_throw ev invoice :
  parseZapReceipt ev invoice <> Throw.
Proof.
  unfold parseZapReceipt. by destruct (parseZapReceipt_try ev invoice).
Qed.

Lemma parseZapReceipt_None ev invoice :
  (forall r, parseZapReceipt ev invoice <> Normal (Some r)) ->
  parseZapReceipt ev invoice = Normal None.
Proof.
  intros Hno. pose proof (parseZapReceipt_no_throw ev invoice) as Hthrow.
  destruct (parseZapReceipt ev invoice) as [[r|]|]; try done.
  by destruct (Hno r).
Qed.

Lemma well_formed_spec ev :
  well_formed ev = true <->
  exists v d l p sender,
    tag_value ev "bolt11" = Some v /\ v <> "" /\
    tag_value ev "description" = Some d /\
    JSON_parse d = Some (JObject l) /\
    obj_lookup "kind" l = Some (JNumber 9734 0) /\
    obj_lookup "pubkey" l = Some sender /\ truthy (Some sender) = true /\
    tag_value ev "p" = Some p /\ p <> "".
Proof.
  unfold well_formed. rewrite !andb_true_iff, !truthy_str_Some. split.
  - intros [[(v & Hv & Hvne) Hd] (p & Hp & Hpne)].
    destruct (tag_value ev "description") as [d|] eqn:Hdesc; [|done].
    destruct (JSON_parse d) as [[| | | | |l|]|] eqn:Hj; try done.
    apply andb_true_iff in Hd as [Hk Hs].
    apply negb_true_iff, strict_ne_9734_false in Hk.
    destruct (obj_lookup "pubkey" l) as [sender|] eqn:Hsender; [|done].
    exists v, d, l, p, sender. done.
  - intros (v & d & l & p & sender & Hv & Hvne & -> & -> & Hk & Hs & Ht & Hp
            & Hpne).
    rewrite Hk, Hs, Ht. simpl. repeat split; eauto.
Qed.

(** C2 (as amended). The matcher returns a result exactly when the value
    of the first bolt11 tag is non-empty and equals the invoice, the value
    of the first description tag parses as a JSON object whose kind is
    9734, the first p tag has a non-empty value, and the pubkey of the
    parsed object is truthy.  The result then has that pubkey as sender,
    the value of the p tag as recipient, the value of the first e tag (if
    any) as event id, and the content of the parsed object, or the empty
    string, as comment.  On the literal scenario of the specification the
    result is sender1, abc123..., no event id, gm. *)
Theorem matcher_contract :
  (forall ev invoice r,
      parseZapReceipt ev invoice = Normal (Some r) <->
      invoice <> "" /\ tag_value ev "bolt11" = Some invoice /\
      exists d l p sender,
        tag_value ev "description" = Some d /\
        JSON_parse d = Some (JObject l) /\
        obj_lookup "kind" l = Some (JNumber 9734 0) /\
        tag_value ev "p" = Some p /\ p <> "" /\
        obj_lookup "pubkey" l = Some sender /\ truthy (Some sender) = true /\
        r = mkMatchResult sender p (tag_value ev "e")
              (or_empty (obj_lookup "content" l)))
  /\ parseZapReceipt fixture_event fixture_invoice
     = Normal (Some (mkMatchResult (JString "sender1") "abc123..." None
                       (JString "gm"))).
Proof.
  split.
  - intros ev invoice r. apply parseZapReceipt_Some.
  - apply parseZapReceipt_Some. split; [done|]. split; [reflexivity|].
    eexists fixture_description, _, "abc123...", (JString "sender1").
    repeat split; try reflexivity. done.
Qed.

(** C2, the claim as stated fails.  A record whose p tag has an empty
    value, a record whose second bolt11 tag carries the invoice, and a
    record with an empty bolt11 value queried with the empty invoice, meet
    every stated condition and are rejected. *)
Lemma matcher_contract_counterexample :
  (stated_match_conditions (fixture_with ["p"; ""]) fixture_invoice
   /\ parseZapReceipt (fixture_with ["p"; ""]) fixture_invoice = Normal None)
  /\ (stated_match_conditions two_bolt11_event fixture_invoice
      /\ parseZapReceipt two_bolt11_event fixture_invoice = Normal None)
  /\ (stated_match_conditions empty_bolt11_event ""
      /\ parseZapReceipt empty_bolt11_event "" = Normal None).
Proof.
  assert (forall ev ts i b d p,
             tags ev = Some ts ->
             ts !! i = Some ["bolt11"; b] ->
             (exists j, ts !! j = Some ["description"; d]) ->
             d = fixture_description ->
             (exists j, ts !! j = Some ["p"; p]) ->
             stated_match_conditions ev b) as Hstated.
  { intros ev ts i b d p Htags Hb [j Hd] -> [k Hp].
    split; [|split].
    - exists ts, ["bolt11"; b]. split; [done|].
      split; [by eapply list_elem_of_lookup_2|done].
    - exists fixture_description,
        (JObject [("kind", JNumber 9734 0); ("pubkey", JString "sender1");
                  ("tags", JArray [JArray [JString "p"; JString "abc123..."]]);
                  ("content", JString "gm")]), (JString "sender1").
      split; [|by repeat split].
      exists ts, ["description"; fixture_description]. split; [done|].
      split; [by eapply list_elem_of_lookup_2|done].
    - exists ts, ["p"; p]. split; [done|].
      split; [by eapply list_elem_of_lookup_2|done]. }
  split; [|split]; (split; [|reflexivity]).
  - eapply (Hstated _ _ 0);
      [reflexivity|reflexivity|by exists 1|done|by exists 2].
  - eapply (Hstated _ _ 1);
      [reflexivity|reflexivity|by exists 2|done|by exists 3].
  - eapply (Hstated _ _ 0);
      [reflexivity|reflexivity|by exists 1|done|by exists 2].
Qed.

(** C3. Fingerprint exactness: a well-formed record, that is one that
    passes every other check of the matcher, is rejected exactly when the
    value of its bolt11 tag differs from the invoice of the query; and
    every result the matcher produces comes from a record whose bolt11
    value is the invoice of the query. *)
Theorem fingerprint_exactness ev invoice :
  (forall v,
      well_formed ev = true -> tag_value ev "bolt11" = Some v ->
      (parseZapReceipt ev invoice = Normal None <-> v <> invoice))
  /\ (forall r,
        parseZapReceipt ev invoice = Normal (Some r) ->
        tag_value ev "bolt11" = Some invoice /\ well_formed ev = true).
Proof.
  split.
  - intros v Hwf Hv. split.
    + intros Hnone ->.
      apply well_formed_spec in Hwf
        as (v & d & l & p & sender & Hv' & Hvne & Hd & Hj & Hk & Hs & Ht & Hp
            & Hpne).
      assert (v = invoice) as -> by congruence.
      assert (parseZapReceipt ev invoice
              = Normal (Some (mkMatchResult sender p (tag_value ev "e")
                                (or_empty (obj_lookup "content" l))))) as Hacc.
      { apply parseZapReceipt_Some. split; [done|]. split; [done|].
        exists d, l, p, sender. done. }
      congruence.
    + intros Hne. apply parseZapReceipt_None. intros r Hr.
      apply parseZapReceipt_Some in Hr as (_ & Hb & _). congruence.
  - intros r Hr.
    apply parseZapReceipt_Some in Hr
      as (Hne & Hb & d & l & p & sender & Hd & Hj & Hk & Hp & Hpne & Hs & Ht
          & _).
    split; [done|]. apply well_formed_spec.
    exists invoice, d, l, p, sender. done.
Qed.

(** The literal record is well formed, so it is rejected for an invoice
    that differs from its own in one character. *)
Lemma fingerprint_exactness_witness :
  well_formed fixture_event = true
  /\ tag_value fixture_event "bolt11" = Some "lnbc100n1p..."
  /\ parseZapReceipt fixture_event "lnbc100n1q..." = Normal None.
Proof.
  split; [reflexivity|]. split; [reflexivity|].
  apply (proj1 (fingerprint_exactness fixture_event "lnbc100n1q...")
           "lnbc100n1p..."); [reflexivity|reflexivity|discriminate].
Defined.

End MatcherFacts.

(** * Properties of the coordinator *)

Section CoordinatorFacts.

Variable q : query.

Implicit Types (s : state) (i j : nat) (b : branch) (ev : event)
  (tr : list input) (inp : input).

(** ** The fields each operation leaves alone *)

Lemma resolve_fields v s :
  now (resolve v s) = now s /\ zapReceipt (resolve v s) = zapReceipt s /\
  branches (resolve v s) = branches s /\ timers (resolve v s) = timers s /\
  completedRelays (resolve v s) = completedRelays s /\
  totalRelays (resolve v s) = totalRelays s /\
  writes (resolve v s) = writes s /\
  matcher_calls (resolve v s) = matcher_calls s.
Proof. unfold resolve. by destruct (resolved s). Qed.

Lemma promise_all_fields s :
  now (promise_all s) = now s /\ zapReceipt (promise_all s) = zapReceipt s /\
  branches (promise_all s) = branches s /\ timers (promise_all s) = timers s /\
  completedRelays (promise_all s) = completedRelays s /\
  totalRelays (promise_all s) = totalRelays s /\
  writes (promise_all s) = writes s /\
  matcher_calls (promise_all s) = matcher_calls s.
Proof.
  unfold promise_all. destruct (negb (all_done s) && all_settled s); [|done].
  apply (resolve_fields (zapReceipt s) (set_all_done s)).
Qed.

Lemma promise_all_resolved s :
  resolved (promise_all s) = resolved s \/
  (resolved s = None /\ all_done s = false /\ all_settled s = true /\
   resolved (promise_all s) = Some (zapReceipt s, now s)).
Proof.
  unfold promise_all, resolve.
  destruct (all_done s) eqn:?, (all_settled s) eqn:?; simpl; auto.
  destruct (resolved s) eqn:?; simpl; auto.
Qed.

Ltac promise_all_frame :=
  match goal with
  | |- context [promise_all ?x] =>
      let H1 := fresh in let H2 := fresh in let H3 := fresh in
      let H4 := fresh in let H5 := fresh in let H6 := fresh in
      let H7 := fresh in let H8 := fresh in
      destruct (promise_all_fields x)
        as (H1 & H2 & H3 & H4 & H5 & H6 & H7 & H8);
      rewrite ?H1, ?H2, ?H3, ?H4, ?H5, ?H6, ?H7, ?H8;
      clear H1 H2 H3 H4 H5 H6 H7 H8
  end.

Lemma fire_fields id s :
  now (fire id s) = now s /\ zapReceipt (fire id s) = zapReceipt s /\
  timers (fire id s) = timers s /\
  completedRelays (fire id s) = completedRelays s /\
  totalRelays (fire id s) = totalRelays s /\
  writes (fire id s) = writes s /\
  matcher_calls (fire id s) = matcher_calls s.
Proof.
  destruct id as [|k]; simpl.
  - destruct (zapReceipt s) eqn:Hz; [done|].
    destruct (resolve_fields None s) as (H1 & H2 & _ & H4 & H5 & H6 & H7 & H8).
    by rewrite H1, H2, H4, H5, H6, H7, H8.
  - by promise_all_frame.
Qed.

Lemma fire_timers id s : timers (fire id s) = timers s.
Proof. apply fire_fields. Qed.

Lemma fire_now id s : now (fire id s) = now s.
Proof. apply fire_fields. Qed.

Lemma fire_overall_branches s : branches (fire OverallTimer s) = branches s.
Proof.
  simpl. destruct (zapReceipt s); [done|]. apply resolve_fields.
Qed.

Lemma on_connect_fields i s :
  now (on_connect q i s) = now s /\
  zapReceipt (on_connect q i s) = zapReceipt s /\
  resolved (on_connect q i s) = resolved s /\
  completedRelays (on_connect q i s) = completedRelays s /\
  totalRelays (on_connect q i s) = totalRelays s /\
  writes (on_connect q i s) = writes s /\
  matcher_calls (on_connect q i s) = matcher_calls s.
Proof.
  unfold on_connect. destruct (branches s !! i) as [b|]; [|done].
  by destruct (conn b).
Qed.

Lemma on_connect_error_fields i s :
  now (on_connect_error i s) = now s /\
  zapReceipt (on_connect_error i s) = zapReceipt s /\
  timers (on_connect_error i s) = timers s /\
  completedRelays (on_connect_error i s) = completedRelays s /\
  totalRelays (on_connect_error i s) = totalRelays s /\
  writes (on_connect_error i s) = writes s /\
  matcher_calls (on_connect_error i s) = matcher_calls s.
Proof.
  unfold on_connect_error. destruct (branches s !! i) as [b|]; [|done].
  destruct (conn b); try done. by promise_all_frame.
Qed.

Lemma onevent_fields i ev s :
  now (onevent q i ev s) = now s /\ timers (onevent q i ev s) = timers s /\
  completedRelays (onevent q i ev s) = completedRelays s /\
  totalRelays (onevent q i ev s) = totalRelays s.
Proof.
  unfold onevent. destruct (branches s !! i) as [b|]; [|done].
  destruct (sub_open b); [|done].
  destruct (zapReceipt (update_branch i count_event s)); [done|].
  destruct (parseZapReceipt ev (q_invoice q)) as [[parsed|]|]; try done.
  destruct (printable parsed); [|done].
  by promise_all_frame.
Qed.

Lemma oneose_fields i s :
  now (oneose i s) = now s /\ zapReceipt (oneose i s) = zapReceipt s /\
  timers (oneose i s) = timers s /\
  totalRelays (oneose i s) = totalRelays s /\
  writes (oneose i s) = writes s /\
  matcher_calls (oneose i s) = matcher_calls s.
Proof.
  unfold oneose. destruct (branches s !! i) as [b|]; [|done].
  destruct (sub_open b); [|done].
  promise_all_frame. by case_match.
Qed.

Lemma on_subscribe_error_fields i s :
  now (on_subscribe_error i s) = now s /\
  zapReceipt (on_subscribe_error i s) = zapReceipt s /\
  timers (on_subscribe_error i s) = timers s /\
  completedRelays (on_subscribe_error i s) = completedRelays s /\
  totalRelays (on_subscribe_error i s) = totalRelays s /\
  writes (on_subscribe_error i s) = writes s /\
  matcher_calls (on_subscribe_error i s) = matcher_calls s.
Proof.
  unfold on_subscribe_error. destruct (branches s !! i) as [b|]; [|done].
  destruct (conn b); try done.
  destruct (resolve_fields None (update_branch i connected s))
    as (H1 & H2 & _ & H4 & H5 & H6 & H7 & H8).
  by rewrite H1, H2, H4, H5, H6, H7, H8.
Qed.

(** ** The timer queue *)

Lemma pop_earliest_spec (l : list timer) t r :
  pop_earliest l = Some (t, r) ->
  l ≡ₚ t :: r /\ Forall (fun x => (fst t <= fst x)%N) l.
Proof.
  revert t r. induction l as [|a l IH]; intros t r; simpl; [done|].
  destruct (pop_earliest l) as [[t' r']|] eqn:Hp.
  - destruct (IH _ _ eq_refl) as [Hperm Hall].
    destruct (N.ltb_spec (fst t') (fst a)); intros [= <- <-].
    + split.
      * rewrite Hperm. apply Permutation_swap.
      * constructor; [lia|done].
    + split; [done|]. constructor; [lia|].
      eapply Forall_impl; [exact Hall|]. simpl. intros; lia.
  - intros [= <- <-]. destruct l; [|simpl in Hp; by repeat case_match].
    split; [done|]. constructor; [lia|constructor].
Qed.

Lemma pop_earliest_None (l : list timer) : pop_earliest l = None -> l = [].
Proof. destruct l; simpl; [done|]. by repeat case_match. Qed.

(** A property kept by every timer callback is kept by [fire_due]. *)
Lemma fire_due_preserves (P : state -> Prop) target :
  (forall s due id rest,
      P s -> pop_earliest (timers s) = Some ((due, id), rest) ->
      (due <= target)%N ->
      P (fire id (set_now due (set_timers rest s)))) ->
  forall fuel s, P s -> P (fire_due fuel target s).
Proof.
  intros Hstep. induction fuel as [|fuel IH]; intros s HP; simpl; [done|].
  destruct (pop_earliest (timers s)) as [[[due id] rest]|] eqn:Hp; [|done].
  destruct (N.leb_spec due target); [|done].
  apply IH. by eapply Hstep.
Qed.

(** When [fire_due] is given enough fuel, no timer that is due is left. *)
Lemma fire_due_exhausts target fuel s :
  length (timers s) <= fuel ->
  Forall (fun x => (target < fst x)%N) (timers (fire_due fuel target s)).
Proof.
  revert s. induction fuel as [|fuel IH]; intros s Hlen; simpl.
  - destruct (timers s); [constructor|simpl in Hlen; lia].
  - destruct (pop_earliest (timers s)) as [[[due id] rest]|] eqn:Hp.
    + destruct (pop_earliest_spec _ _ _ Hp) as [Hperm Hall].
      destruct (N.leb_spec due target).
      * apply IH. rewrite fire_timers. simpl.
        apply Permutation_length in Hperm. simpl in Hperm. lia.
      * eapply Forall_impl; [exact Hall|]. simpl. intros; lia.
    + apply pop_earliest_None in Hp. rewrite Hp. constructor.
Qed.

(** ** Branch lookups *)

Lemma lookup_update_branch f i j s b' :
  branches (update_branch i f s) !! j = Some b' ->
  exists b, branches s !! j = Some b /\
            ((i = j /\ b' = f b) \/ (i <> j /\ b' = b)).
Proof.
  unfold update_branch. simpl. rewrite list_lookup_alter.
  case_decide as Hij.
  - subst j. destruct (branches s !! i) as [b|]; simpl; [|done].
    intros [= <-]. eauto.
  - intros Hb. eauto.
Qed.

Lemma lookup_update_branch_eq f i s b :
  branches s !! i = Some b ->
  branches (update_branch i f s) !! i = Some (f b).
Proof.
  intros Hb. unfold update_branch. simpl.
  by rewrite list_lookup_alter_eq, Hb.
Qed.

Lemma lookup_update_branch_ne f i j s :
  i <> j -> branches (update_branch i f s) !! j = branches s !! j.
Proof. intros. unfold update_branch. simpl. by apply list_lookup_alter_ne. Qed.

(** ** The timing invariant *)

Lemma timing_update_branch i f s :
  timing_inv s -> timing_inv (update_branch i f s).
Proof. intros [? ? ? ? ?]. by constructor. Qed.

Lemma timing_incr_completedRelays s :
  timing_inv s -> timing_inv (incr_completedRelays s).
Proof. intros [? ? ? ? ?]. by constructor. Qed.

Lemma timing_incr_matcher_calls s :
  timing_inv s -> timing_inv (incr_matcher_calls s).
Proof. intros [? ? ? ? ?]. by constructor. Qed.

Lemma timing_set_zapReceipt r s :
  zapReceipt s = None -> timing_inv s -> timing_inv (set_zapReceipt r s).
Proof.
  intros Hz [Hdue Hov Hf Hn Hv]. constructor; simpl; try done.
  - right. left. eauto.
  - intros t _. right. eauto.
  - intros r' t Hr. apply Hv in Hr. congruence.
Qed.

(** While the overall timer is pending, it is not yet due. *)
Lemma timing_before_deadline s :
  timing_inv s -> resolved s = None -> zapReceipt s = None ->
  (now s <= OVERALL_TIMEOUT)%N.
Proof.
  intros [Hdue _ Hf _ _] Hr Hz.
  destruct Hf as [Hin|[[? Hs]|[? Hs]]]; [|congruence..].
  rewrite Forall_forall in Hdue. by apply Hdue in Hin.
Qed.

Lemma timing_promise_all s : timing_inv s -> timing_inv (promise_all s).
Proof.
  intros Hinv.
  destruct (promise_all_fields s) as (Hnow & Hz & _ & Ht & _).
  destruct (promise_all_resolved s) as [Hr|(Hr0 & _ & _ & Hr)];
    destruct Hinv as [Hdue Hov Hf Hn Hv] eqn:E; clear E;
    constructor; rewrite ?Hnow, ?Hz, ?Ht, ?Hr; try done.
  - destruct Hf as [?|[?|?]]; eauto.
  - intros t [= Hz' <-]. left. by apply timing_before_deadline.
  - intros r t [= Hz' <-]. done.
Qed.

Lemma timing_resolve_None s : timing_inv s -> timing_inv (resolve None s).
Proof.
  intros Hinv. unfold resolve. destruct (resolved s) eqn:Hr; [done|].
  pose proof (timing_before_deadline s Hinv Hr) as Hnow.
  destruct Hinv as [Hdue Hov Hf Hn Hv]. constructor; simpl; try done.
  - right. right. eauto.
  - intros t [= <-]. destruct (zapReceipt s); [right; eauto|left; auto].
Qed.

Lemma timing_add_timer i d s :
  (now s <= d)%N -> timing_inv s ->
  timing_inv (set_timers (timers s ++ [(d, RelayTimer i)]) s).
Proof.
  intros Hd [Hdue Hov Hf Hn Hv]. constructor; simpl; try done.
  - apply Forall_app. split; [done|]. by repeat constructor.
  - intros d'. rewrite elem_of_app, list_elem_of_singleton.
    intros [?|[= _]]; auto.
  - destruct Hf as [?|[?|?]]; eauto. left. apply elem_of_app. eauto.
Qed.

Lemma timing_set_now t s :
  Forall (fun x : timer => (t <= fst x)%N) (timers s) ->
  timing_inv s -> timing_inv (set_now t s).
Proof. intros Ht [Hdue Hov Hf Hn Hv]. by constructor. Qed.

Lemma timing_pop_fire due id rest s :
  pop_earliest (timers s) = Some ((due, id), rest) ->
  timing_inv s -> timing_inv (fire id (set_now due (set_timers rest s))).
Proof.
  intros Hp Hinv. destruct (pop_earliest_spec _ _ _ Hp) as [Hperm Hmin].
  simpl in Hmin.
  assert (forall x, x ∈ rest -> x ∈ timers s) as Hsub.
  { intros x Hx. rewrite Hperm. by right. }
  assert ((due, id) ∈ timers s) as Hhead.
  { rewrite Hperm. by left. }
  destruct Hinv as [Hdue Hov Hf Hn Hv].
  assert (Forall (fun x : timer => (due <= fst x)%N) rest) as Hrest.
  { rewrite Forall_forall in Hmin |- *. intros x Hx. apply Hmin, Hsub, Hx. }
  assert (forall d, (d, OverallTimer) ∈ rest -> d = OVERALL_TIMEOUT) as Hov'.
  { intros d Hd. by apply Hov, Hsub. }
  destruct id as [|k].
  - assert (due = OVERALL_TIMEOUT) as -> by by apply Hov.
    unfold fire, resolve. simpl.
    destruct (zapReceipt s) eqn:Hz; [|destruct (resolved s) as [[v t]|] eqn:Hr];
      constructor; simpl; rewrite ?Hz, ?Hr; eauto.
    + intros t [= <-]. by left.
    + intros r t [=].
  - apply timing_promise_all, timing_update_branch, timing_update_branch.
    constructor; simpl; try done.
    destruct Hf as [Hin|[?|?]]; eauto. left.
    rewrite Hperm in Hin. apply elem_of_cons in Hin as [[=]|?]; done.
Qed.

Lemma timing_on_connect i s : timing_inv s -> timing_inv (on_connect q i s).
Proof.
  intros Hinv. unfold on_connect.
  destruct (branches s !! i) as [b|]; [|done]. destruct (conn b); try done.
  apply timing_add_timer; [simpl; lia|]. by apply timing_update_branch.
Qed.

Lemma timing_on_connect_error i s :
  timing_inv s -> timing_inv (on_connect_error i s).
Proof.
  intros Hinv. unfold on_connect_error.
  destruct (branches s !! i) as [b|]; [|done]. destruct (conn b); try done.
  by apply timing_promise_all, timing_update_branch.
Qed.

Lemma timing_onevent i ev s : timing_inv s -> timing_inv (onevent q i ev s).
Proof.
  intros Hinv. unfold onevent.
  destruct (branches s !! i) as [b|]; [|done]. destruct (sub_open b); [|done].
  pose proof (timing_update_branch i count_event s Hinv) as H1.
  destruct (zapReceipt (update_branch i count_event s)) eqn:Hz; [done|].
  pose proof (timing_incr_matcher_calls _ H1) as H2.
  destruct (parseZapReceipt ev (q_invoice q)) as [[parsed|]|]; try done.
  destruct (printable parsed); [|done].
  apply timing_promise_all, timing_update_branch, timing_update_branch.
  by apply timing_set_zapReceipt.
Qed.

Lemma timing_oneose i s : timing_inv s -> timing_inv (oneose i s).
Proof.
  intros Hinv. unfold oneose.
  destruct (branches s !! i) as [b|]; [|done]. destruct (sub_open b); [|done].
  apply timing_promise_all.
  pose proof (timing_incr_completedRelays _
                (timing_update_branch i close_sub s Hinv)) as H1.
  case_match; [by apply timing_update_branch|done].
Qed.

Lemma timing_on_subscribe_error i s :
  timing_inv s -> timing_inv (on_subscribe_error i s).
Proof.
  intros Hinv. unfold on_subscribe_error.
  destruct (branches s !! i) as [b|]; [|done]. destruct (conn b); try done.
  by apply timing_resolve_None, timing_update_branch.
Qed.

Lemma timing_advance dt s : timing_inv s -> timing_inv (advance dt s).
Proof.
  intros Hinv. unfold advance. apply timing_set_now.
  - eapply Forall_impl; [by apply fire_due_exhausts|]. simpl. intros; lia.
  - apply fire_due_preserves; [|done].
    intros s' due id rest Hs' Hp _. by apply timing_pop_fire.
Qed.

Lemma timing_step s inp : timing_inv s -> timing_inv (step q s inp).
Proof.
  destruct inp; simpl; auto using timing_on_connect, timing_on_connect_error,
    timing_onevent, timing_oneose, timing_advance, timing_on_subscribe_error.
Qed.

Lemma timing_init : timing_inv (init q).
Proof.
  unfold init. apply timing_promise_all. constructor; simpl.
  - constructor; [simpl; lia|constructor].
  - intros d Hd. apply list_elem_of_singleton in Hd. by simplify_eq.
  - left. by apply list_elem_of_singleton.
  - done.
  - done.
Qed.

(** ** Time *)

Lemma now_step s inp :
  now (step q s inp) =
  (now s + match inp with Advance dt => dt | _ => 0 end)%N.
Proof.
  destruct inp as [i|i|i ev|i|dt|i]; simpl; rewrite ?N.add_0_r.
  - apply on_connect_fields.
  - apply on_connect_error_fields.
  - apply onevent_fields.
  - apply oneose_fields.
  - done.
  - apply on_subscribe_error_fields.
Qed.

Lemma now_run tr s : now (run q s tr) = (now s + elapsed tr)%N.
Proof.
  revert s. unfold run. induction tr as [|inp tr IH]; intros s; simpl.
  - by rewrite N.add_0_r.
  - rewrite IH, now_step. destruct inp; lia.
Qed.

Lemma pending_step s inp : timers_pending s -> timers_pending (step q s inp).
Proof.
  unfold timers_pending. intros Hp. destruct inp as [i|i|i ev|i|dt|i]; cbn [step].
  - unfold on_connect. destruct (branches s !! i) as [b|]; [|done].
    destruct (conn b); try done. simpl.
    apply Forall_app. split; [done|]. repeat constructor. simpl.
    unfold RELAY_TIMEOUT. lia.
  - by destruct (on_connect_error_fields i s) as (-> & _ & -> & _).
  - by destruct (onevent_fields i ev s) as (-> & -> & _).
  - by destruct (oneose_fields i s) as (-> & _ & -> & _).
  - unfold advance. simpl. by apply fire_due_exhausts.
  - by destruct (on_subscribe_error_fields i s) as (-> & _ & -> & _).
Qed.

Lemma pending_init : timers_pending (init q).
Proof.
  unfold timers_pending.
  destruct (promise_all_fields
              (mkState 0 None 0 (length (q_relayUrls q))
                 (map (fun u => mkBranch u Connecting None false 0 false)
                    (q_relayUrls q))
                 [(OVERALL_TIMEOUT, OverallTimer)] false None 0 0))
    as (Hn & _ & _ & Ht & _).
  unfold init. rewrite Hn, Ht. simpl. by repeat constructor.
Qed.

(** An induction principle for the reachable states. *)
Lemma reachable_ind' (P : state -> Prop) :
  P (init q) ->
  (forall s inp, reachable q s -> P s -> P (step q s inp)) ->
  forall s, reachable q s -> P s.
Proof.
  intros Hinit Hstep s [tr ->].
  induction tr as [|inp tr IH] using rev_ind; [done|].
  unfold run in *. rewrite fold_left_app. simpl.
  apply Hstep; [by exists tr|done].
Qed.

Lemma run_app s tr tr' : run q s (tr ++ tr') = run q (run q s tr) tr'.
Proof. unfold run. by rewrite fold_left_app. Qed.

Lemma reachable_run s tr : reachable q s -> reachable q (run q s tr).
Proof.
  intros [tr0 ->]. exists (tr0 ++ tr). unfold run. by rewrite fold_left_app.
Qed.

Lemma timing_reachable s : reachable q s -> timing_inv s /\ timers_pending s.
Proof.
  revert s.
  apply (reachable_ind' (fun s => timing_inv s /\ timers_pending s)).
  - split; [apply timing_init|apply pending_init].
  - intros s' inp _ [? ?]. split; [by apply timing_step|by apply pending_step].
Qed.

(** ** The stored receipt *)

(** Timers never touch the receipt nor the counters. *)
Lemma advance_receipt dt s :
  zapReceipt (advance dt s) = zapReceipt s /\
  writes (advance dt s) = writes s /\
  matcher_calls (advance dt s) = matcher_calls s /\
  completedRelays (advance dt s) = completedRelays s /\
  totalRelays (advance dt s) = totalRelays s.
Proof.
  unfold advance. simpl.
  apply (fire_due_preserves
           (fun s' => zapReceipt s' = zapReceipt s /\ writes s' = writes s /\
                      matcher_calls s' = matcher_calls s /\
                      completedRelays s' = completedRelays s /\
                      totalRelays s' = totalRelays s)); [|done].
  intros s' due id rest (<- & <- & <- & <- & <-) _ _.
  by destruct (fire_fields id (set_now due (set_timers rest s')))
    as (_ & -> & _ & -> & -> & -> & ->).
Qed.

(** The receipt changes in one place only: the [onevent] callback of an
    open subscription, when no receipt is stored yet, the matcher accepts
    the record and the log line does not throw. *)
Lemma zapReceipt_step s inp :
  zapReceipt (step q s inp) = zapReceipt s \/
  (zapReceipt s = None /\
   exists i ev r b,
     inp = Deliver i ev /\ branches s !! i = Some b /\ sub_open b = true /\
     parseZapReceipt ev (q_invoice q) = Normal (Some r) /\
     printable r = true /\
     zapReceipt (step q s inp) = Some r).
Proof.
  destruct inp as [i|i|i ev|i|dt|i]; cbn [step].
  - left. apply on_connect_fields.
  - left. apply on_connect_error_fields.
  - unfold onevent.
    destruct (branches s !! i) as [b|] eqn:Hb; [|by left].
    destruct (sub_open b) eqn:Ho; [|by left].
    assert (zapReceipt (update_branch i count_event s) = zapReceipt s) as ->
      by done.
    destruct (zapReceipt s) eqn:Hz; [by left|].
    destruct (parseZapReceipt ev (q_invoice q)) as [[parsed|]|] eqn:Hparse;
      try (by left).
    destruct (printable parsed) eqn:Hs; [|by left].
    right. split; [done|]. exists i, ev, parsed, b.
    repeat split; try done.
    by destruct (promise_all_fields
                   (update_branch i resolveRelay
                      (update_branch i close_sub
                         (set_zapReceipt parsed
                            (incr_matcher_calls
                               (update_branch i count_event s))))))
      as (_ & -> & _).
  - left. apply oneose_fields.
  - left. apply advance_receipt.
  - left. apply on_subscribe_error_fields.
Qed.

Lemma printable_has_slice r :
  printable r = true -> has_slice (senderPubkey r) = true.
Proof.
  unfold printable. intros H.
  by apply andb_true_iff in H as [H _]; apply andb_true_iff in H as [H _].
Qed.

Lemma zapReceipt_stable_step s inp r :
  zapReceipt s = Some r -> zapReceipt (step q s inp) = Some r.
Proof.
  intros Hz. destruct (zapReceipt_step s inp) as [->|[Hn _]]; congruence.
Qed.


Lemma zapReceipt_silent tr s :
  silent tr = true -> zapReceipt (run q s tr) = zapReceipt s.
Proof.
  revert s. unfold run. induction tr as [|inp tr IH]; intros s Hs; [done|].
  simpl in Hs. apply andb_true_iff in Hs as [Hinp Hs].
  simpl. rewrite IH by done.
  destruct (zapReceipt_step s inp) as [->|(_ & i & ev & ? & ? & -> & _)];
    done.
Qed.

Lemma zapReceipt_init : zapReceipt (init q) = None.
Proof. unfold init. by promise_all_frame. Qed.

(** Once the deadline has passed with no receipt stored, the call has
    returned [null], and it did so by the deadline. *)
Lemma deadline_resolves s :
  reachable q s -> zapReceipt s = None -> (OVERALL_TIMEOUT <= now s)%N ->
  exists t, resolved s = Some (None, t) /\ (t <= OVERALL_TIMEOUT)%N.
Proof.
  intros Hr Hz Hnow. apply timing_reachable in Hr as [[_ _ Hf Hn Hv] Hp].
  destruct Hf as [Hin|[[? ?]|[[v t] Hres]]]; [|congruence|].
  - unfold timers_pending in Hp. rewrite Forall_forall in Hp.
    apply Hp in Hin. simpl in Hin. lia.
  - destruct v as [r|]; [apply Hv in Hres; congruence|].
    exists t. split; [done|].
    destruct (Hn _ Hres) as [?|[? ?]]; [done|congruence].
Qed.

(** ** Branches and their subscriptions *)

Lemma branches_update_branch i f s :
  (forall b, branches s !! i = Some b -> branch_ok q b -> branch_ok q (f b)) ->
  branches_inv q s -> branches_inv q (update_branch i f s).
Proof.
  intros Hf Hinv j b' Hb'.
  apply lookup_update_branch in Hb' as (b & Hb & [[-> ->]|[_ ->]]).
  - apply Hf; [done|]. by eapply Hinv.
  - by eapply Hinv.
Qed.

Lemma branches_ext s s' :
  branches s' = branches s -> branches_inv q s -> branches_inv q s'.
Proof. unfold branches_inv. by intros ->. Qed.

Lemma branch_ok_close_sub b : branch_ok q b -> branch_ok q (close_sub b).
Proof. intros [? ?]. by split. Qed.

Lemma branch_ok_resolveRelay b : branch_ok q b -> branch_ok q (resolveRelay b).
Proof. intros [? ?]. by split. Qed.

Lemma branch_ok_count_event b : branch_ok q b -> branch_ok q (count_event b).
Proof. intros [? ?]. by split. Qed.

Lemma branches_fire id s : branches_inv q s -> branches_inv q (fire id s).
Proof.
  intros Hinv. destruct id as [|k]; simpl.
  - eapply branches_ext; [apply (fire_overall_branches s)|done].
  - eapply branches_ext; [apply promise_all_fields|].
    apply branches_update_branch; [intros; by apply branch_ok_resolveRelay|].
    apply branches_update_branch; [intros; by apply branch_ok_close_sub|done].
Qed.

Lemma branches_step s inp : branches_inv q s -> branches_inv q (step q s inp).
Proof.
  intros Hinv. destruct inp as [i|i|i ev|i|dt|i]; cbn [step].
  - unfold on_connect. destruct (branches s !! i) as [b|] eqn:Hb; [|done].
    destruct (conn b) eqn:Hc; try done.
    eapply branches_ext; [reflexivity|].
    apply branches_update_branch; [|done].
    intros b0 Hb0 [_ Hf]. split; [done|]. simpl. by intros f [= <-].
  - unfold on_connect_error. destruct (branches s !! i) as [b|] eqn:Hb; [|done].
    destruct (conn b) eqn:Hc; try done.
    eapply branches_ext; [apply promise_all_fields|].
    apply branches_update_branch; [|done].
    intros b0 Hb0 [Ho Hf]. simplify_eq. split; [|done]. simpl.
    intros Hopen. apply Ho in Hopen. congruence.
  - unfold onevent. destruct (branches s !! i) as [b|] eqn:Hb; [|done].
    destruct (sub_open b); [|done].
    assert (branches_inv q (update_branch i count_event s)) as H1.
    { apply branches_update_branch; [|done].
      intros. by apply branch_ok_count_event. }
    destruct (zapReceipt (update_branch i count_event s)); [done|].
    destruct (parseZapReceipt ev (q_invoice q)) as [[parsed|]|]; try done.
    destruct (printable parsed); [|done].
    eapply branches_ext; [apply promise_all_fields|].
    apply branches_update_branch; [intros; by apply branch_ok_resolveRelay|].
    apply branches_update_branch; [intros; by apply branch_ok_close_sub|done].
  - unfold oneose. destruct (branches s !! i) as [b|] eqn:Hb; [|done].
    destruct (sub_open b); [|done].
    eapply branches_ext; [apply promise_all_fields|].
    assert (branches_inv q (incr_completedRelays (update_branch i close_sub s)))
      as H1.
    { eapply branches_ext; [reflexivity|].
      apply branches_update_branch; [|done].
      intros. by apply branch_ok_close_sub. }
    case_match; [|done].
    apply branches_update_branch; [|done].
    intros. by apply branch_ok_resolveRelay.
  - unfold advance. eapply branches_ext; [reflexivity|].
    apply fire_due_preserves; [|done].
    intros s' due id rest Hs' _ _. by apply branches_fire.
  - unfold on_subscribe_error.
    destruct (branches s !! i) as [b|] eqn:Hb; [|done].
    destruct (conn b) eqn:Hc; try done.
    eapply branches_ext; [apply resolve_fields|].
    apply branches_update_branch; [|done].
    intros b0 _ [_ Hf]. by split.
Qed.

Lemma branches_init : branches_inv q (init q).
Proof.
  eapply branches_ext; [apply promise_all_fields|].
  intros i b. simpl. rewrite list_lookup_fmap.
  destruct (q_relayUrls q !! i); simpl; [|done]. intros [= <-]. by split.
Qed.

Lemma branches_reachable s : reachable q s -> branches_inv q s.
Proof.
  revert s. apply (reachable_ind' (branches_inv q)); [apply branches_init|].
  intros s' inp _. apply branches_step.
Qed.

(** ** Open subscriptions and their timers *)

Lemma sub_ext bound j s s' :
  branches s' = branches s -> timers s' = timers s ->
  sub_timed_by bound j s -> sub_timed_by bound j s'.
Proof. unfold sub_timed_by. by intros -> ->. Qed.

Lemma sub_mono bound bound' j s :
  (bound <= bound')%N -> sub_timed_by bound j s -> sub_timed_by bound' j s.
Proof.
  intros Hle H b Hb Ho. destruct (H b Hb Ho) as (d & Hd & Hdb).
  exists d. split; [done|lia].
Qed.

Lemma sub_update_branch bound j i f s :
  (forall b, sub_open (f b) = true -> sub_open b = true) ->
  sub_timed_by bound j s -> sub_timed_by bound j (update_branch i f s).
Proof.
  intros Hf H b' Hb' Ho.
  apply lookup_update_branch in Hb' as (b & Hb & [[_ ->]|[_ ->]]).
  - apply Hf in Ho. exact (H _ Hb Ho).
  - exact (H _ Hb Ho).
Qed.

Lemma sub_promise_all bound j s :
  sub_timed_by bound j s -> sub_timed_by bound j (promise_all s).
Proof. apply sub_ext; apply promise_all_fields. Qed.

(** A timer callback: the timer of branch [j] closes its subscription, any
    other leaves it alone. *)
Lemma sub_pop_fire bound j due id rest s :
  pop_earliest (timers s) = Some ((due, id), rest) ->
  sub_timed_by bound j s ->
  sub_timed_by bound j (fire id (set_now due (set_timers rest s))).
Proof.
  intros Hp H. destruct (pop_earliest_spec _ _ _ Hp) as [Hperm _].
  destruct id as [|k].
  - apply (sub_ext _ _ (set_timers rest s));
      [apply (fire_overall_branches (set_now due (set_timers rest s)))
      |apply (fire_timers OverallTimer (set_now due (set_timers rest s)))|].
    intros b Hb Ho. destruct (H b Hb Ho) as (d & Hd & Hdb).
    exists d. split; [|done]. simpl.
    rewrite Hperm in Hd. apply elem_of_cons in Hd as [[=]|?]; done.
  - simpl. apply sub_promise_all. intros b' Hb' Ho. simpl.
    apply lookup_update_branch in Hb' as (b1 & Hb1 & Hcase1).
    apply lookup_update_branch in Hb1 as (b & Hb & Hcase).
    simpl in Hb.
    destruct (decide (k = j)) as [->|Hne].
    + destruct Hcase1 as [[_ ->]|[? _]]; [|done].
      destruct Hcase as [[_ ->]|[? _]]; done.
    + destruct Hcase1 as [[? _]|[_ ->]]; [done|].
      destruct Hcase as [[? _]|[_ ->]]; [done|].
      destruct (H b Hb Ho) as (d & Hd & Hdb).
      exists d. split; [|done].
      rewrite Hperm in Hd. apply elem_of_cons in Hd as [[=]|?]; done.
Qed.

(** A callback keeps the bound of branch [j] when the timer that a new
    subscription starts is due by it, or when branch [j] does not wait for
    its connection: nothing but the continuation of its [connect] opens
    the subscription of a branch. *)
Lemma sub_step bound j s inp :
  (now s + RELAY_TIMEOUT <= bound)%N
  \/ conn <$> branches s !! j <> Some Connecting ->
  sub_timed_by bound j s -> sub_timed_by bound j (step q s inp).
Proof.
  intros Hbound H. destruct inp as [i|i|i ev|i|dt|i]; cbn [step].
  - unfold on_connect. destruct (branches s !! i) as [b|] eqn:Hb; [|done].
    destruct (conn b) eqn:Hc; try done.
    intros b' Hb' Ho. simpl in Hb'. simpl.
    rewrite list_lookup_alter in Hb'. case_decide as Hij.
    + subst j. destruct Hbound as [Hbound|Hnone].
      * exists (now s + RELAY_TIMEOUT)%N. split; [|done].
        apply elem_of_app. right. by apply list_elem_of_singleton.
      * destruct Hnone. by rewrite Hb; simpl; rewrite Hc.
    + destruct (H b' Hb' Ho) as (d & Hd & Hdb).
      exists d. split; [|done]. apply elem_of_app. by left.
  - unfold on_connect_error. destruct (branches s !! i) as [b|] eqn:Hb; [|done].
    destruct (conn b) eqn:Hc; try done.
    by apply sub_promise_all, sub_update_branch.
  - unfold onevent. destruct (branches s !! i) as [b|] eqn:Hb; [|done].
    destruct (sub_open b); [|done].
    assert (sub_timed_by bound j (update_branch i count_event s)) as H1
      by by apply sub_update_branch.
    destruct (zapReceipt (update_branch i count_event s)); [done|].
    destruct (parseZapReceipt ev (q_invoice q)) as [[parsed|]|]; try done.
    destruct (printable parsed); [|done].
    apply sub_promise_all.
    apply sub_update_branch; [done|]. by apply sub_update_branch.
  - unfold oneose. destruct (branches s !! i) as [b|] eqn:Hb; [|done].
    destruct (sub_open b); [|done].
    apply sub_promise_all.
    assert (sub_timed_by bound j
              (incr_completedRelays (update_branch i close_sub s))) as H1.
    { eapply sub_ext; [reflexivity..|]. by apply sub_update_branch. }
    case_match; [|done]. by apply sub_update_branch.
  - unfold advance. eapply sub_ext; [reflexivity..|].
    apply fire_due_preserves; [|exact H].
    intros s' due id rest Hs' Hp _. by apply sub_pop_fire.
  - unfold on_subscribe_error.
    destruct (branches s !! i) as [b|] eqn:Hb; [|done].
    destruct (conn b) eqn:Hc; try done.
    apply (sub_ext _ _ (update_branch i connected s));
      [apply resolve_fields..|].
    by apply sub_update_branch.
Qed.

Lemma sub_reachable j s :
  reachable q s -> sub_timed_by (now s + RELAY_TIMEOUT) j s.
Proof.
  revert s.
  apply (reachable_ind' (fun s => sub_timed_by (now s + RELAY_TIMEOUT) j s)).
  - apply sub_promise_all. intros b. simpl. rewrite list_lookup_fmap.
    destruct (q_relayUrls q !! j); simpl; [|done]. by intros [= <-].
  - intros s' inp _ H. apply (sub_mono (now s' + RELAY_TIMEOUT)).
    + rewrite now_step. lia.
    + apply sub_step; [left; lia|done].
Qed.

(** Nothing closes a connection. *)
Lemma conn_update_branch i f s j :
  (forall b, conn b = Connected -> conn (f b) = Connected) ->
  connection_open s j -> connection_open (update_branch i f s) j.
Proof.
  unfold connection_open. intros Hf Hc.
  destruct (branches s !! j) as [b|] eqn:Hb; [|done].
  simpl in Hc. destruct (decide (i = j)) as [->|Hne].
  - rewrite (lookup_update_branch_eq f j s b Hb). simpl.
    f_equal. apply Hf. congruence.
  - rewrite lookup_update_branch_ne by done. by rewrite Hb.
Qed.

Lemma conn_ext s s' j :
  branches s' = branches s -> connection_open s j -> connection_open s' j.
Proof. unfold connection_open. by intros ->. Qed.

Lemma conn_fire id s j : connection_open s j -> connection_open (fire id s) j.
Proof.
  intros Hc. destruct id as [|k]; simpl.
  - eapply conn_ext; [apply (fire_overall_branches s)|done].
  - eapply conn_ext; [apply promise_all_fields|].
    by do 2 (apply conn_update_branch; [done|]).
Qed.

Lemma conn_step s inp j :
  connection_open s j -> connection_open (step q s inp) j.
Proof.
  intros Hc. destruct inp as [i|i|i ev|i|dt|i]; cbn [step].
  - unfold on_connect. destruct (branches s !! i) as [b|] eqn:Hb; [|done].
    destruct (conn b) eqn:Hcb; try done.
    eapply conn_ext; [reflexivity|]. by apply conn_update_branch.
  - unfold on_connect_error. destruct (branches s !! i) as [b|] eqn:Hb; [|done].
    destruct (conn b) eqn:Hcb; try done.
    eapply conn_ext; [apply promise_all_fields|].
    unfold connection_open in *. destruct (decide (i = j)) as [->|Hne].
    + rewrite Hb in Hc. simpl in Hc. congruence.
    + by rewrite lookup_update_branch_ne.
  - unfold onevent. destruct (branches s !! i) as [b|] eqn:Hb; [|done].
    destruct (sub_open b); [|done].
    assert (connection_open (update_branch i count_event s) j) as H1
      by by apply conn_update_branch.
    destruct (zapReceipt (update_branch i count_event s)); [done|].
    destruct (parseZapReceipt ev (q_invoice q)) as [[parsed|]|]; try done.
    destruct (printable parsed); [|done].
    eapply conn_ext; [apply promise_all_fields|].
    by do 2 (apply conn_update_branch; [done|]).
  - unfold oneose. destruct (branches s !! i) as [b|] eqn:Hb; [|done].
    destruct (sub_open b); [|done].
    eapply conn_ext; [apply promise_all_fields|].
    assert (connection_open
              (incr_completedRelays (update_branch i close_sub s)) j) as H1.
    { eapply conn_ext; [reflexivity|]. by apply conn_update_branch. }
    case_match; [|done]. by apply conn_update_branch.
  - unfold advance. eapply conn_ext; [reflexivity|].
    apply fire_due_preserves; [|done].
    intros s' due id rest Hs' _ _. by apply conn_fire.
  - unfold on_subscribe_error.
    destruct (branches s !! i) as [b|] eqn:Hb; [|done].
    destruct (conn b) eqn:Hcb; try done.
    eapply conn_ext; [apply resolve_fields|]. by apply conn_update_branch.
Qed.

Lemma conn_run tr s j :
  connection_open s j -> connection_open (run q s tr) j.
Proof.
  revert s. unfold run. induction tr as [|inp tr IH]; intros s Hc; [done|].
  simpl. apply IH. by apply conn_step.
Qed.

(** ** The returned promise *)

Lemma fire_resolved id s :
  zapReceipt (fire id s) = zapReceipt s /\
  (resolved (fire id s) = resolved s \/
   (resolved s = None /\ resolved (fire id s) = Some (zapReceipt s, now s))).
Proof.
  destruct id as [|k]; simpl.
  - unfold resolve. destruct (zapReceipt s) eqn:Hz; [by auto|].
    destruct (resolved s) eqn:Hr; simpl; rewrite ?Hz; auto.
  - set (s1 := update_branch k resolveRelay (update_branch k close_sub s)).
    destruct (promise_all_fields s1) as (_ & -> & _).
    split; [done|].
    destruct (promise_all_resolved s1) as [->|(? & _ & _ & ->)]; auto.
Qed.

Lemma advance_resolved dt s :
  resolved (advance dt s) = resolved s \/
  (resolved s = None /\
   exists t, resolved (advance dt s) = Some (zapReceipt s, t)).
Proof.
  unfold advance.
  assert (let s' := fire_due (length (timers s)) (now s + dt) s in
          zapReceipt s' = zapReceipt s /\
          (resolved s' = resolved s \/
           (resolved s = None /\
            exists t, resolved s' = Some (zapReceipt s, t)))) as [_ H];
    [|exact H].
  apply (fire_due_preserves
           (fun s' => zapReceipt s' = zapReceipt s /\
                      (resolved s' = resolved s \/
                       (resolved s = None /\
                        exists t, resolved s' = Some (zapReceipt s, t)))));
    [|by auto].
  intros s' due id rest (Hz & Hr) _ _.
  destruct (fire_resolved id (set_now due (set_timers rest s')))
    as (Hz' & Hr').
  simpl in Hz', Hr'. rewrite Hz', Hz. split; [done|].
  destruct Hr' as [->|(Hnone & ->)]; [done|].
  destruct Hr as [Hr|(? & t & Hr)]; [|congruence].
  right. split; [congruence|]. rewrite Hz. eauto.
Qed.

(** Whenever the promise is resolved, it is with the receipt stored at that
    moment ([null] when there is none). *)
Lemma resolved_step s inp :
  resolved (step q s inp) = resolved s \/
  (resolved s = None /\
   exists t, resolved (step q s inp) = Some (zapReceipt (step q s inp), t))
  \/ (resolved s = None /\
      exists i t, inp = SubscribeError i
                  /\ resolved (step q s inp) = Some (None, t)).
Proof.
  destruct inp as [i|i|i ev|i|dt|i]; cbn [step].
  - left. apply on_connect_fields.
  - unfold on_connect_error. destruct (branches s !! i) as [b|]; [|by left].
    destruct (conn b); try (by left).
    set (s1 := update_branch i failed s).
    destruct (promise_all_fields s1) as (_ & -> & _).
    destruct (promise_all_resolved s1) as [->|(? & _ & _ & ->)]; eauto.
  - unfold onevent. destruct (branches s !! i) as [b|]; [|by left].
    destruct (sub_open b); [|by left].
    destruct (zapReceipt (update_branch i count_event s)); [by left|].
    destruct (parseZapReceipt ev (q_invoice q)) as [[parsed|]|];
      try (by left).
    destruct (printable parsed); [|by left].
    match goal with |- context [promise_all ?x] => set (s1 := x) end.
    destruct (promise_all_fields s1) as (_ & -> & _).
    destruct (promise_all_resolved s1) as [->|(? & _ & _ & ->)]; eauto.
  - unfold oneose. destruct (branches s !! i) as [b|]; [|by left].
    destruct (sub_open b); [|by left].
    match goal with |- context [promise_all ?x] => set (s1 := x) end.
    destruct (promise_all_fields s1) as (_ & -> & _).
    assert (resolved s1 = resolved s) as <- by (subst s1; by case_match).
    destruct (promise_all_resolved s1) as [->|(? & _ & _ & ->)]; eauto.
  - destruct (advance_receipt dt s) as (-> & _).
    destruct (advance_resolved dt s) as [?|?]; auto.
  - unfold on_subscribe_error. destruct (branches s !! i) as [b|]; [|by left].
    destruct (conn b); try (by left).
    unfold resolve. simpl. destruct (resolved s) eqn:Hr; [by left|].
    right. right. split; [done|]. by exists i, (now s).
Qed.

Lemma resolved_stable_step s inp x :
  resolved s = Some x -> resolved (step q s inp) = Some x.
Proof.
  intros Hr. destruct (resolved_step s inp) as [->|[[? _]|[? _]]]; congruence.
Qed.

Lemma resolved_stable tr s x :
  resolved s = Some x -> resolved (run q s tr) = Some x.
Proof.
  revert s. unfold run. induction tr as [|inp tr IH]; intros s Hr; [done|].
  simpl. apply IH. by apply resolved_stable_step.
Qed.


(** A call of [subscribe] that throws while the call has not returned
    makes it return [null], also when a receipt is stored. *)
Lemma subscribe_error_resolves_null i b s :
  branches s !! i = Some b -> conn b = Connecting -> resolved s = None ->
  resolved (step q s (SubscribeError i)) = Some (None, now s)
  /\ zapReceipt (step q s (SubscribeError i)) = zapReceipt s.
Proof.
  intros Hb Hc Hr. split; [|apply on_subscribe_error_fields].
  simpl. unfold on_subscribe_error. rewrite Hb, Hc.
  unfold resolve. simpl. by rewrite Hr.
Qed.


(** ** The one-shot receipt *)

Lemma writes_step s inp : writes_inv s -> writes_inv (step q s inp).
Proof.
  unfold writes_inv. intros Hw. destruct inp as [i|i|i ev|i|dt|i]; cbn [step].
  - by destruct (on_connect_fields i s) as (_ & -> & _ & _ & _ & -> & _).
  - by destruct (on_connect_error_fields i s)
      as (_ & -> & _ & _ & _ & -> & _).
  - unfold onevent. destruct (branches s !! i) as [b|]; [|done].
    destruct (sub_open b); [|done].
    change (zapReceipt (update_branch i count_event s)) with (zapReceipt s).
    destruct (zapReceipt s) eqn:Hz; [simpl; by rewrite Hz|].
    destruct (parseZapReceipt ev (q_invoice q)) as [[parsed|]|];
      [|simpl; by rewrite Hz..].
    destruct (printable parsed); [|simpl; by rewrite Hz].
    promise_all_frame. simpl. by rewrite Hw.
  - by destruct (oneose_fields i s) as (_ & -> & _ & _ & -> & _).
  - by destruct (advance_receipt dt s) as (-> & -> & _).
  - by destruct (on_subscribe_error_fields i s)
      as (_ & -> & _ & _ & _ & -> & _).
Qed.

Lemma writes_reachable s : reachable q s -> writes_inv s.
Proof.
  revert s. apply (reachable_ind' writes_inv).
  - unfold writes_inv, init. by promise_all_frame.
  - intros s' inp _. apply writes_step.
Qed.

(** With a receipt stored, the matcher is not called and nothing is
    assigned. *)
Lemma stored_step s inp r :
  zapReceipt s = Some r ->
  zapReceipt (step q s inp) = Some r
  /\ matcher_calls (step q s inp) = matcher_calls s
  /\ writes (step q s inp) = writes s.
Proof.
  intros Hz. split; [by apply zapReceipt_stable_step|].
  destruct inp as [i|i|i ev|i|dt|i]; cbn [step].
  - by destruct (on_connect_fields i s) as (_ & _ & _ & _ & _ & -> & ->).
  - by destruct (on_connect_error_fields i s)
      as (_ & _ & _ & _ & _ & -> & ->).
  - unfold onevent. destruct (branches s !! i) as [b|]; [|done].
    destruct (sub_open b); [|done].
    assert (zapReceipt (update_branch i count_event s) = zapReceipt s) as ->
      by done.
    by rewrite Hz.
  - by destruct (oneose_fields i s) as (_ & _ & _ & _ & -> & ->).
  - by destruct (advance_receipt dt s) as (_ & -> & -> & _).
  - by destruct (on_subscribe_error_fields i s)
      as (_ & _ & _ & _ & _ & -> & ->).
Qed.

Lemma stored_run tr s r :
  zapReceipt s = Some r ->
  zapReceipt (run q s tr) = Some r
  /\ matcher_calls (run q s tr) = matcher_calls s
  /\ writes (run q s tr) = writes s.
Proof.
  revert s. unfold run. induction tr as [|inp tr IH]; intros s Hz; [done|].
  simpl. destruct (stored_step s inp r Hz) as (Hz' & <- & <-).
  by apply IH.
Qed.

(** The receipt of a call is assigned at most once, and after that it is
    neither assigned again nor is another record given to the matcher. *)
Lemma receipt_written_once tr :
  writes (run q (init q) tr) <= 1
  /\ forall r tr',
      zapReceipt (run q (init q) tr) = Some r ->
      zapReceipt (run q (init q) (tr ++ tr')) = Some r
      /\ matcher_calls (run q (init q) (tr ++ tr'))
         = matcher_calls (run q (init q) tr)
      /\ writes (run q (init q) (tr ++ tr')) = 1.
Proof.
  assert (writes_inv (run q (init q) tr)) as Hw
    by (apply writes_reachable; by exists tr).
  unfold writes_inv in Hw. split.
  - rewrite Hw. case_match; lia.
  - intros r tr' Hz. rewrite run_app.
    destruct (stored_run tr' _ r Hz) as (H1 & H2 & H3).
    rewrite H1, H2, H3. by rewrite Hw, Hz.
Qed.

(** The stored receipt is the result of the matcher on a record that an
    open subscription delivered while no receipt was stored. *)
Lemma stored_receipt_origin tr r :
  zapReceipt (run q (init q) tr) = Some r ->
  exists tr1 i ev tr2,
    tr = tr1 ++ Deliver i ev :: tr2
    /\ zapReceipt (run q (init q) tr1) = None
    /\ subscription_open (run q (init q) tr1) i
    /\ parseZapReceipt ev (q_invoice q) = Normal (Some r)
    /\ printable r = true.
Proof.
  induction tr as [|inp tr IH] using rev_ind.
  - simpl. by rewrite zapReceipt_init.
  - unfold run in *. rewrite fold_left_app. simpl.
    destruct (zapReceipt_step (fold_left (step q) tr (init q)) inp)
      as [->|(Hnone & i & ev & r' & b & -> & Hb & Ho & Hparse & Hslice & ->)].
    + intros Hz. destruct (IH Hz) as (tr1 & i & ev & tr2 & -> & ?).
      exists tr1, i, ev, (tr2 ++ [inp]). split; [|done].
      by rewrite <- app_assoc.
    + intros [= ->]. exists tr, i, ev, []. split; [done|].
      split; [done|]. split; [|done].
      unfold subscription_open. by rewrite Hb; simpl; rewrite Ho.
Qed.

(** A record that the matcher rejects changes nothing but counters. *)
Lemma rejected_record_ignored i ev s :
  parseZapReceipt ev (q_invoice q) = Normal None ->
  same_but_counters s (onevent q i ev s).
Proof.
  intros Hparse. unfold onevent.
  destruct (branches s !! i) as [b|]; [|done].
  destruct (sub_open b); [|done].
  assert (same_but_counters s (update_branch i count_event s)) as H1.
  { repeat split. simpl.
    rewrite (list_fmap_alter branch_status count_event id).
    - by rewrite list_alter_id.
    - by apply Forall_true. }
  destruct (zapReceipt (update_branch i count_event s)); [done|].
  rewrite Hparse. done.
Qed.

(** A record that the matcher accepts but whose sender cannot be sliced
    is not stored: the callback is left at the log line. *)
Lemma unsliceable_sender_not_stored i ev r s :
  parseZapReceipt ev (q_invoice q) = Normal (Some r) ->
  has_slice (senderPubkey r) = false ->
  zapReceipt (onevent q i ev s) = zapReceipt s
  /\ resolved (onevent q i ev s) = resolved s
  /\ sub_open <$> branches (onevent q i ev s) = sub_open <$> branches s.
Proof.
  intros Hparse Hslice. unfold onevent.
  destruct (branches s !! i) as [b|]; [|done].
  destruct (sub_open b); [|done].
  assert (sub_open <$> branches (update_branch i count_event s)
          = sub_open <$> branches s) as Hsub.
  { simpl. rewrite (list_fmap_alter sub_open count_event id).
    - by rewrite list_alter_id.
    - by apply Forall_true. }
  destruct (zapReceipt (update_branch i count_event s)) eqn:Hz; [done|].
  rewrite Hparse. unfold printable. by rewrite Hslice.
Qed.

(** ** The end of the stored events *)

(** An end-of-stored-events signal that is not the last one, with no
    receipt stored, closes the subscription and counts the relay; the
    promise of its branch stays pending and the call does not return. *)
Lemma eose_leaves_branch_pending i b s :
  branches s !! i = Some b -> sub_open b = true -> relay_done b = false ->
  zapReceipt s = None -> S (completedRelays s) < totalRelays s ->
  branches (oneose i s) !! i = Some (close_sub b)
  /\ completedRelays (oneose i s) = S (completedRelays s)
  /\ resolved (oneose i s) = resolved s.
Proof.
  intros Hb Ho Hd Hz Hlt. unfold oneose. rewrite Hb, Ho. cbn zeta.
  assert ((totalRelays (incr_completedRelays (update_branch i close_sub s))
           <=? completedRelays
                 (incr_completedRelays (update_branch i close_sub s)))%nat
          || bool_decide
               (is_Some
                  (zapReceipt
                     (incr_completedRelays (update_branch i close_sub s))))
          = false) as ->.
  { simpl. rewrite Hz. apply orb_false_iff. split.
    - apply Nat.leb_gt. lia.
    - apply bool_decide_eq_false. by intros [? ?]. }
  set (s1 := incr_completedRelays (update_branch i close_sub s)).
  assert (branches s1 !! i = Some (close_sub b)) as Hb1.
  { subst s1. simpl. by rewrite list_lookup_alter_eq, Hb. }
  destruct (promise_all_fields s1) as (_ & _ & Hbr & _ & Hc & _).
  rewrite Hbr, Hc. split; [done|]. split; [done|].
  destruct (promise_all_resolved s1) as [Hr|(_ & _ & Hall & _)]; [done|].
  unfold all_settled in Hall. apply Is_true_true, forallb_True in Hall.
  rewrite Forall_lookup in Hall. specialize (Hall i _ Hb1).
  simpl in Hall. by rewrite Hd in Hall.
Qed.

(** ** The number of branches *)



(** C7. Bounded latency: against relays that deliver no record (their
    connections may hang, fail, or open a subscription that stays empty),
    once the overall timeout of 10000 ms has elapsed the call has resolved
    to [null], and it resolved no later than that timeout.  The branch
    timeout is 5000 ms and the filter asks for at most 50 records. *)
Theorem bounded_latency tr :
  silent tr = true -> (OVERALL_TIMEOUT <= elapsed tr)%N ->
  (exists t,
      resolved (run q (init q) tr) = Some (None, t)
      /\ (t <= OVERALL_TIMEOUT)%N)
  /\ outcome_of (run q (init q) tr) = Fulfilled None
  /\ OVERALL_TIMEOUT = (10 * 1000)%N /\ RELAY_TIMEOUT = (5 * 1000)%N
  /\ (forall j b f,
        branches (run q (init q) tr) !! j = Some b ->
        subscription b = Some f -> limit f = 50%Z).
Proof.
  intros Hsilent Helapsed.
  assert (exists t, resolved (run q (init q) tr) = Some (None, t)
                    /\ (t <= OVERALL_TIMEOUT)%N) as (t & Hres & Ht).
  { apply deadline_resolves.
    - by exists tr.
    - rewrite zapReceipt_silent by done. apply zapReceipt_init.
    - rewrite now_run. lia. }
  split; [by exists t|]. split; [|split; [done|split; [done|]]].
  - unfold outcome_of. by rewrite Hres.
  - intros j b f Hb Hf.
    assert (reachable q (run q (init q) tr)) as Hr by by exists tr.
    apply branches_reachable in Hr. destruct (Hr j b Hb) as [_ Hfilter].
    by rewrite (Hfilter f Hf).
Qed.

End CoordinatorFacts.

(** * Whole calls *)

(** C4. Totality on malformed input: the matcher never throws.  A record
    without a tag list, a record whose description is not valid JSON and a
    record whose description is not a request of kind 9734 all make it
    return [null]; and a record for which it returns [null] leaves the
    call as it was, its counters apart: nothing is stored, nothing is
    resolved, no branch ends. *)
Theorem malformed_records_are_rejected ev invoice :
  (exists r, parseZapReceipt ev invoice = Normal r)
  /\ (tags ev = None -> parseZapReceipt ev invoice = Normal None)
  /\ (forall d,
        tag_value ev "description" = Some d -> JSON_parse d = None ->
        parseZapReceipt ev invoice = Normal None)
  /\ (forall d j,
        tag_value ev "description" = Some d -> JSON_parse d = Some j ->
        get_prop j "kind" <> Normal (Some (JNumber 9734 0)) ->
        parseZapReceipt ev invoice = Normal None)
  /\ (forall q i s,
        q_invoice q = invoice ->
        parseZapReceipt ev invoice = Normal None ->
        same_but_counters s (step q s (Deliver i ev))
        /\ outcome_of (step q s (Deliver i ev)) = outcome_of s).
Proof.
  split; [|split; [|split; [|split]]].
  - pose proof (parseZapReceipt_no_throw ev invoice).
    destruct (parseZapReceipt ev invoice) as [r|]; [by exists r|done].
  - intros Htags. apply parseZapReceipt_None. intros r Hr.
    apply parseZapReceipt_Some in Hr as (_ & Hb & _).
    unfold tag_value, find_tag in Hb. by rewrite Htags in Hb.
  - intros d Hd Hj. apply parseZapReceipt_None. intros r Hr.
    apply parseZapReceipt_Some in Hr
      as (_ & _ & d' & l & _ & _ & Hd' & Hj' & _).
    congruence.
  - intros d j Hd Hj Hk. apply parseZapReceipt_None. intros r Hr.
    apply parseZapReceipt_Some in Hr
      as (_ & _ & d' & l & _ & _ & Hd' & Hj' & Hk' & _).
    assert (j = JObject l) as -> by congruence.
    simpl in Hk. by rewrite Hk' in Hk.
  - intros q i s <- Hnone. simpl.
    pose proof (rejected_record_ignored q i ev s Hnone) as Hsame.
    split; [done|]. unfold outcome_of.
    by destruct Hsame as (_ & _ & _ & _ & _ & _ & -> & _).
Qed.

(** Three malformed records: no tag list; a description that is not
    JSON; the description null, which parses, and reading the kind of
    which throws inside the matcher.  All three are rejected. *)
Lemma malformed_records_are_rejected_witness :
  (tags (mkEvent None) = None
   /\ parseZapReceipt (mkEvent None) fixture_invoice = Normal None)
  /\ (JSON_parse "{kind:9734}" = None
      /\ parseZapReceipt (described_as "{kind:9734}") fixture_invoice
         = Normal None)
  /\ (JSON_parse "null" = Some JNull
      /\ get_prop JNull "kind" = Throw
      /\ parseZapReceipt (described_as "null") fixture_invoice
         = Normal None).
Proof.
  split; [|split].
  - split; [reflexivity|].
    apply (proj1 (proj2 (malformed_records_are_rejected (mkEvent None)
                           fixture_invoice))).
    reflexivity.
  - split; [reflexivity|].
    apply (proj1 (proj2 (proj2 (malformed_records_are_rejected
                                  (described_as "{kind:9734}")
                                  fixture_invoice))) "{kind:9734}");
      reflexivity.
  - split; [reflexivity|]. split; [reflexivity|].
    apply (proj1 (proj2 (proj2 (proj2 (malformed_records_are_rejected
                                         (described_as "null")
                                         fixture_invoice))))
             "null" JNull); [reflexivity|reflexivity|discriminate].
Defined.


(** A receipt found while another connection attempt never completes: the
    call never returns, since the overall timer only resolves when no
    receipt is stored. *)
Lemma first_match_with_hanging_sibling :
  let s := run two_relays (init two_relays)
             [ConnectOk 0; Deliver 0 fixture_event; Advance 20000] in
  zapReceipt s = Some fixture_result /\ timers s = []
  /\ outcome_of s = Pending.
Proof. vm_compute. repeat split. Qed.


(** C5, the claim as stated fails.  One relay answers with the end of its
    stored results: the call returns [null] at once and the connection is
    open, then and ever after.  And a relay that connects after 6000 ms:
    the call returns at the overall timeout with that subscription still
    open. *)
Lemma no_leak_counterexample :
  let s := run one_relay (init one_relay) [ConnectOk 0; Eose 0] in
  let s' := run one_relay (init one_relay)
              [Advance 6000; ConnectOk 0; Advance 4000] in
  (resolved s = Some (None, 0%N) /\ connection_open s 0
   /\ connection_open (step one_relay s (Advance 3600000)) 0)
  /\ (resolved s' = Some (None, 10000%N) /\ subscription_open s' 0
      /\ connection_open s' 0).
Proof. vm_compute. repeat split. Qed.

(** C6, the code at the failing input.  Two relays, both subscribed, both
    signal the end of their stored results after 100 ms, neither has
    delivered a record.  Both subscriptions are closed and both relays are
    counted as completed, but the promise of the first branch is still
    pending: the call has not returned, and does not until the timer of
    that branch fires 5000 ms after its subscription was opened.  With a
    single relay the call returns at once. *)
Theorem drained_branches_wait_for_timer :
  let s := run two_relays (init two_relays)
             [ConnectOk 0; ConnectOk 1; Advance 100; Eose 0; Eose 1] in
  (~ subscription_open s 0 /\ ~ subscription_open s 1)
  /\ completedRelays s = totalRelays s
  /\ relay_done <$> branches s = [false; true]
  /\ zapReceipt s = None
  /\ outcome_of s = Pending
  /\ outcome_of (step two_relays s (Advance 4899)) = Pending
  /\ resolved (step two_relays s (Advance 4900)) = Some (None, 5000%N)
  /\ resolved
       (run one_relay (init one_relay) [ConnectOk 0; Advance 100; Eose 0])
     = Some (None, 100%N).
Proof. vm_compute. repeat split; discriminate. Qed.

(** C7 at two relays of which one connects and stays silent and the other
    never answers. *)
Lemma bounded_latency_witness :
  silent [ConnectOk 0; Advance 10000] = true
  /\ (OVERALL_TIMEOUT <= elapsed [ConnectOk 0; Advance 10000])%N
  /\ outcome_of (run two_relays (init two_relays) [ConnectOk 0; Advance 10000])
     = Fulfilled None.
Proof.
  split; [reflexivity|]. split; [done|].
  apply (bounded_latency two_relays [ConnectOk 0; Advance 10000]);
    [reflexivity|done].
Defined.




(** Two relays: the first has delivered the record of the literal scenario
    when the call of [subscribe] of the second throws.  The receipt is
    stored and the call returns [null].  And two relays that both refuse
    the connection: the call returns [null] at once. *)
Lemma branch_failures_scenarios :
  (let s := run two_relays (init two_relays)
              [ConnectOk 0; Deliver 0 fixture_event; Advance 100] in
   zapReceipt s = Some fixture_result /\ resolved s = None
   /\ resolved (step two_relays s (SubscribeError 1)) = Some (None, 100%N)
   /\ zapReceipt (step two_relays s (SubscribeError 1))
      = Some fixture_result)
  /\ resolved (run two_relays (init two_relays)
                 [ConnectError 1; ConnectError 0]) = Some (None, 0%N).
Proof. vm_compute. repeat split. Qed.

(** C9, the code at the failing input.  A relay delivers two records for
    the invoice; the matcher accepts both.  The pubkey of the first
    request is the number 5, so the log line that slices the sender throws
    before the receipt is assigned: the matcher is called again for the
    second record, and the second result is the one stored and returned.
    The assignment itself happens once. *)
Theorem second_accepted_record_wins :
  let s := run one_relay (init one_relay)
             [ConnectOk 0; Deliver 0 numeric_sender_event;
              Deliver 0 fixture_event] in
  parseZapReceipt numeric_sender_event fixture_invoice
  = Normal (Some numeric_sender_result)
  /\ parseZapReceipt fixture_event fixture_invoice
     = Normal (Some fixture_result)
  /\ zapReceipt s = Some fixture_result
  /\ matcher_calls s = 2 /\ writes s = 1
  /\ outcome_of s = Fulfilled (Some fixture_result).
Proof. vm_compute. repeat split. Qed.

(** * The batch wrapper *)

Section BatchFacts.

Variables (invoices : list string) (envs : list (list input)).




End BatchFacts.


(** * Progress of a call *)

Section ProgressFacts.

Variable q : query.

Implicit Types (s : state) (i j : nat) (b : branch) (tr : list input)
  (inp : input).

(** ** Unresolved branch promises *)

Lemma all_settled_lookup s j b :
  branches s !! j = Some b -> relay_done b = false -> all_settled s = false.
Proof.
  intros Hb Hd. unfold all_settled. apply not_true_is_false. intros Hall.
  apply Is_true_true, forallb_True in Hall.
  rewrite Forall_lookup in Hall. specialize (Hall _ _ Hb).
  by rewrite Hd in Hall.
Qed.

Lemma all_settled_unsettled s :
  all_settled s = false ->
  exists j b, branches s !! j = Some b /\ relay_done b = false.
Proof.
  unfold all_settled. induction (branches s) as [|b l IH]; simpl; [done|].
  destruct (relay_done b) eqn:Hd; simpl.
  - intros H. destruct (IH H) as (j & b' & ? & ?). by exists (S j), b'.
  - intros _. by exists 0, b.
Qed.

Lemma promise_all_unsettled s j b :
  branches s !! j = Some b -> relay_done b = false -> promise_all s = s.
Proof.
  intros Hb Hd. unfold promise_all.
  by rewrite (all_settled_lookup s j b), andb_false_r.
Qed.

(** ** A branch that waits for its connection *)

Lemma idle_ext s s' j :
  branches s' !! j = branches s !! j ->
  (forall d, (d, RelayTimer j) ∈ timers s' -> (d, RelayTimer j) ∈ timers s) ->
  idle s j -> idle s' j.
Proof.
  intros Hb Ht (b & ? & ? & ? & ? & Hno). exists b. rewrite Hb.
  repeat split; try done. intros d Hd. by apply (Hno d), Ht.
Qed.

Lemma idle_update_branch f i j s :
  i <> j -> idle s j -> idle (update_branch i f s) j.
Proof.
  intros Hne. apply idle_ext; [by apply lookup_update_branch_ne|by simpl].
Qed.

Lemma idle_promise_all s j : idle s j -> promise_all s = s.
Proof. intros (b & Hb & _ & _ & Hd & _). by eapply promise_all_unsettled. Qed.

Lemma idle_closed s i j b :
  idle s j -> branches s !! i = Some b -> sub_open b = true -> i <> j.
Proof. intros (b' & Hb' & _ & Ho & _) Hb Hopen ->. congruence. Qed.

Lemma unanswered_ConnectOk i j : unanswered j [ConnectOk i] = true -> i <> j.
Proof.
  simpl. rewrite andb_true_r. intros H. by apply negb_true_iff, Nat.eqb_neq in H.
Qed.

Lemma unanswered_ConnectError i j :
  unanswered j [ConnectError i] = true -> i <> j.
Proof.
  simpl. rewrite andb_true_r. intros H. by apply negb_true_iff, Nat.eqb_neq in H.
Qed.

Lemma unanswered_SubscribeError i j :
  unanswered j [SubscribeError i] = true -> i <> j.
Proof.
  simpl. rewrite andb_true_r. intros H. by apply negb_true_iff, Nat.eqb_neq in H.
Qed.

(** What a timer callback does while branch [j] waits: the branch keeps
    waiting, and only the overall timer, with no receipt stored, resolves
    the returned promise. *)
Lemma idle_pop_fire due id rest s j :
  pop_earliest (timers s) = Some ((due, id), rest) ->
  idle s j ->
  let s' := fire id (set_now due (set_timers rest s)) in
  idle s' j
  /\ (resolved s' = resolved s
      \/ (zapReceipt s = None /\ resolved s' = Some (None, due))).
Proof.
  intros Hp Hidle. destruct (pop_earliest_spec _ _ _ Hp) as [Hperm _].
  assert (idle (set_now due (set_timers rest s)) j) as H0.
  { apply (idle_ext s); [done| |done].
    simpl. intros d Hd. rewrite Hperm. by apply elem_of_cons; right. }
  destruct id as [|k]; simpl.
  - destruct (zapReceipt s) eqn:Hz; [by split; [|left]|].
    unfold resolve. simpl. destruct (resolved s) eqn:Hr.
    + split; [done|]. left. simpl. done.
    + split; [|right; by simpl].
      by apply (idle_ext (set_now due (set_timers rest s))).
  - assert (k <> j) as Hne.
    { intros ->. destruct Hidle as (b & _ & _ & _ & _ & Hno).
      apply (Hno due). rewrite Hperm. by apply elem_of_cons; left. }
    assert (idle (update_branch k resolveRelay
                    (update_branch k close_sub
                       (set_now due (set_timers rest s)))) j) as H1
      by by do 2 (apply idle_update_branch; [done|]).
    rewrite (idle_promise_all _ j H1). split; [done|by left].
Qed.

(** What a callback does while branch [j] waits and its connection
    attempt is not answered. *)
Lemma idle_step s inp j :
  idle s j -> unanswered j [inp] = true ->
  idle (step q s inp) j
  /\ (resolved (step q s inp) = resolved s
      \/ (zapReceipt s = None
          /\ exists t, resolved (step q s inp) = Some (None, t))
      \/ (subscribes [inp] = false
          /\ exists t, resolved (step q s inp) = Some (None, t))).
Proof.
  intros Hidle Hun. destruct inp as [i|i|i ev|i|dt|i]; cbn [step].
  - apply unanswered_ConnectOk in Hun.
    unfold on_connect. destruct (branches s !! i) as [b|]; [|by split; [|left]].
    destruct (conn b); try (by split; [|left]).
    split; [|by left].
    apply (idle_ext s); [| |done].
    + simpl. by apply list_lookup_alter_ne.
    + simpl. intros d Hd. apply elem_of_app in Hd as [Hd|Hd]; [done|].
      apply list_elem_of_singleton in Hd. congruence.
  - apply unanswered_ConnectError in Hun.
    unfold on_connect_error.
    destruct (branches s !! i) as [b|]; [|by split; [|left]].
    destruct (conn b); try (by split; [|left]).
    assert (idle (update_branch i failed s) j) as H1
      by by apply idle_update_branch.
    rewrite (idle_promise_all _ j H1). split; [done|by left].
  - unfold onevent.
    destruct (branches s !! i) as [b|] eqn:Hb; [|by split; [|left]].
    destruct (sub_open b) eqn:Ho; [|by split; [|left]].
    pose proof (idle_closed _ _ _ _ Hidle Hb Ho) as Hne.
    assert (idle (update_branch i count_event s) j) as H1
      by by apply idle_update_branch.
    destruct (zapReceipt (update_branch i count_event s));
      [by split; [|left]|].
    assert (idle (incr_matcher_calls (update_branch i count_event s)) j)
      as H2 by by apply (idle_ext (update_branch i count_event s)).
    destruct (parseZapReceipt ev (q_invoice q)) as [[parsed|]|];
      try (by split; [|left]).
    destruct (printable parsed); [|by split; [|left]].
    match goal with |- context [promise_all ?x] => set (s1 := x) end.
    assert (idle s1 j) as H3.
    { subst s1. do 2 (apply idle_update_branch; [done|]).
      by apply (idle_ext
                  (incr_matcher_calls (update_branch i count_event s))). }
    rewrite (idle_promise_all _ j H3). split; [done|by left].
  - unfold oneose.
    destruct (branches s !! i) as [b|] eqn:Hb; [|by split; [|left]].
    destruct (sub_open b) eqn:Ho; [|by split; [|left]].
    pose proof (idle_closed _ _ _ _ Hidle Hb Ho) as Hne.
    assert (idle (incr_completedRelays (update_branch i close_sub s)) j)
      as H1.
    { apply (idle_ext (update_branch i close_sub s)); [done..|].
      by apply idle_update_branch. }
    match goal with |- context [promise_all ?x] => set (s1 := x) end.
    assert (idle s1 j /\ resolved s1 = resolved s) as [H2 Hr].
    { subst s1. case_match; [|done]. split; [|done].
      by apply idle_update_branch. }
    rewrite (idle_promise_all _ j H2). split; [done|by left].
  - unfold advance.
    assert (let s' := fire_due (length (timers s)) (now s + dt) s in
            idle s' j /\ zapReceipt s' = zapReceipt s
            /\ (resolved s' = resolved s
                \/ (zapReceipt s = None
                    /\ exists t, resolved s' = Some (None, t))))
      as (H1 & _ & H2).
    { apply (fire_due_preserves
               (fun s' =>
                  idle s' j /\ zapReceipt s' = zapReceipt s
                  /\ (resolved s' = resolved s
                      \/ (zapReceipt s = None
                          /\ exists t, resolved s' = Some (None, t)))));
        [|by auto].
      intros s' due id rest (Hi & Hz & Hr) Hp _.
      destruct (idle_pop_fire _ _ _ _ _ Hp Hi) as [Hi' Hr'].
      split; [done|]. split.
      - destruct (fire_fields id (set_now due (set_timers rest s')))
          as (_ & -> & _). done.
      - destruct Hr' as [->|[Hnone ->]]; [done|].
        right. split; [congruence|eauto]. }
    split; [|destruct H2 as [?|?]; auto].
    by apply (idle_ext (fire_due (length (timers s)) (now s + dt) s)).
  - apply unanswered_SubscribeError in Hun.
    unfold on_subscribe_error.
    destruct (branches s !! i) as [b|]; [|by split; [|left]].
    destruct (conn b); try (by split; [|left]).
    assert (idle (update_branch i connected s) j) as H1
      by by apply idle_update_branch.
    split.
    + apply (idle_ext (update_branch i connected s)); [| |done].
      * by destruct (resolve_fields None (update_branch i connected s))
          as (_ & _ & -> & _).
      * by destruct (resolve_fields None (update_branch i connected s))
          as (_ & _ & _ & -> & _).
    + unfold resolve. simpl. destruct (resolved s) eqn:Hr; [by left|].
      right. right. split; [done|]. simpl. eauto.
Qed.

(** ** Connections *)

Lemma conn_lookup_update_branch f i j s :
  (forall b, conn (f b) = conn b) ->
  conn <$> branches (update_branch i f s) !! j = conn <$> branches s !! j.
Proof.
  intros Hf. unfold update_branch. simpl. rewrite list_lookup_alter.
  case_decide; [|done]. subst.
  destruct (branches s !! j); simpl; [|done]. by rewrite Hf.
Qed.

Lemma conn_lookup_promise_all s j :
  conn <$> branches (promise_all s) !! j = conn <$> branches s !! j.
Proof. by destruct (promise_all_fields s) as (_ & _ & -> & _). Qed.

Lemma conn_lookup_fire id s j :
  conn <$> branches (fire id s) !! j = conn <$> branches s !! j.
Proof.
  destruct id as [|k]; [by rewrite fire_overall_branches|]. simpl.
  by rewrite conn_lookup_promise_all, !conn_lookup_update_branch.
Qed.

Lemma conn_after_id s inp j :
  (forall b, branches s !! j = Some b -> conn_after inp j (conn b) = conn b) ->
  conn <$> branches s !! j = conn_after inp j <$> (conn <$> branches s !! j).
Proof.
  intros H. destruct (branches s !! j) as [b|]; simpl; [|done].
  by rewrite H.
Qed.

Lemma conn_after_other i j c :
  i <> j ->
  conn_after (ConnectOk i) j c = c /\ conn_after (ConnectError i) j c = c
  /\ conn_after (SubscribeError i) j c = c.
Proof.
  intros Hne. apply Nat.eqb_neq in Hne. unfold conn_after. rewrite Hne.
  by destruct c.
Qed.

(** How the connections evolve. *)
Lemma conn_after_step s inp j :
  conn <$> branches (step q s inp) !! j
  = conn_after inp j <$> (conn <$> branches s !! j).
Proof.
  destruct inp as [i|i|i ev|i|dt|i]; cbn [step].
  - unfold on_connect. destruct (decide (i = j)) as [->|Hij].
    + destruct (branches s !! j) as [b|] eqn:Hb; [|by rewrite Hb].
      destruct (conn b) eqn:Hc.
      * simpl. rewrite list_lookup_alter_eq, Hb. simpl.
        rewrite Hc. simpl. by rewrite Nat.eqb_refl.
      * rewrite Hb. simpl. by rewrite Hc.
      * rewrite Hb. simpl. by rewrite Hc.
    + assert (conn <$> branches s !! j
              = conn_after (ConnectOk i) j <$> (conn <$> branches s !! j))
        as Hid.
      { apply conn_after_id. intros b _. by apply conn_after_other. }
      destruct (branches s !! i) as [b|]; [|done].
      destruct (conn b); try done.
      simpl. by rewrite list_lookup_alter_ne.
  - unfold on_connect_error. destruct (decide (i = j)) as [->|Hij].
    + destruct (branches s !! j) as [b|] eqn:Hb; [|by rewrite Hb].
      destruct (conn b) eqn:Hc.
      * rewrite conn_lookup_promise_all. simpl.
        rewrite list_lookup_alter_eq, Hb. simpl.
        rewrite Hc. simpl. by rewrite Nat.eqb_refl.
      * rewrite Hb. simpl. by rewrite Hc.
      * rewrite Hb. simpl. by rewrite Hc.
    + assert (conn <$> branches s !! j
              = conn_after (ConnectError i) j <$> (conn <$> branches s !! j))
        as Hid.
      { apply conn_after_id. intros b _. by apply conn_after_other. }
      destruct (branches s !! i) as [b|]; [|done].
      destruct (conn b); try done.
      rewrite conn_lookup_promise_all. simpl.
      by rewrite list_lookup_alter_ne.
  - rewrite <- (conn_after_id s (Deliver i ev) j)
      by (intros b _; by destruct (conn b)).
    unfold onevent. destruct (branches s !! i) as [b|]; [|done].
    destruct (sub_open b); [|done].
    assert (conn <$> branches (update_branch i count_event s) !! j
            = conn <$> branches s !! j) as H1
      by by apply conn_lookup_update_branch.
    destruct (zapReceipt (update_branch i count_event s)); [done|].
    destruct (parseZapReceipt ev (q_invoice q)) as [[parsed|]|]; try done.
    destruct (printable parsed); [|done].
    by rewrite conn_lookup_promise_all, !conn_lookup_update_branch.
  - rewrite <- (conn_after_id s (Eose i) j)
      by (intros b _; by destruct (conn b)).
    unfold oneose. destruct (branches s !! i) as [b|]; [|done].
    destruct (sub_open b); [|done].
    rewrite conn_lookup_promise_all.
    assert (conn <$> branches
                       (incr_completedRelays (update_branch i close_sub s))
                     !! j
            = conn <$> branches s !! j) as H1
      by by apply (conn_lookup_update_branch close_sub).
    case_match; [|done]. by rewrite conn_lookup_update_branch.
  - rewrite <- (conn_after_id s (Advance dt) j)
      by (intros b _; by destruct (conn b)).
    unfold advance.
    apply (fire_due_preserves
             (fun s' => conn <$> branches s' !! j = conn <$> branches s !! j));
      [|done].
    intros s' due id rest Hs' _ _. by rewrite conn_lookup_fire.
  - unfold on_subscribe_error. destruct (decide (i = j)) as [->|Hij].
    + destruct (branches s !! j) as [b|] eqn:Hb; [|by rewrite Hb].
      destruct (conn b) eqn:Hc.
      * destruct (resolve_fields None (update_branch j connected s))
          as (_ & _ & -> & _).
        simpl. rewrite list_lookup_alter_eq, Hb. simpl.
        rewrite Hc. simpl. by rewrite Nat.eqb_refl.
      * rewrite Hb. simpl. by rewrite Hc.
      * rewrite Hb. simpl. by rewrite Hc.
    + assert (conn <$> branches s !! j
              = conn_after (SubscribeError i) j <$> (conn <$> branches s !! j))
        as Hid.
      { apply conn_after_id. intros b _. by apply conn_after_other. }
      destruct (branches s !! i) as [b|]; [|done].
      destruct (conn b); try done.
      destruct (resolve_fields None (update_branch i connected s))
        as (_ & _ & -> & _).
      simpl. by rewrite list_lookup_alter_ne.
Qed.

(** A branch that waits for its connection did so before, and the
    callback was not the answer to its connection attempt. *)
Lemma connecting_step s inp j :
  connecting (step q s inp) j ->
  connecting s j /\ unanswered j [inp] = true.
Proof.
  unfold connecting. rewrite conn_after_step.
  destruct (branches s !! j) as [b|]; simpl; [|done].
  intros [= H]. destruct (conn b) eqn:Hc; simpl in H; try done.
  split; [done|].
  destruct inp as [i|i| | | |i]; simpl in *; try done;
    by destruct (Nat.eqb i j).
Qed.

Lemma idle_init j :
  j < length (q_relayUrls q) -> idle (init q) j /\ resolved (init q) = None.
Proof.
  intros Hj. apply lookup_lt_is_Some in Hj as [u Hu].
  set (s0 := mkState 0 None 0 (length (q_relayUrls q))
               (map (fun u => mkBranch u Connecting None false 0 false)
                  (q_relayUrls q))
               [(OVERALL_TIMEOUT, OverallTimer)] false None 0 0).
  assert (idle s0 j) as H0.
  { exists (mkBranch u Connecting None false 0 false). subst s0. simpl.
    rewrite list_lookup_fmap, Hu. repeat split; try done.
    intros d Hd. by apply list_elem_of_singleton in Hd. }
  unfold init. fold s0. by rewrite (idle_promise_all s0 j H0).
Qed.

Lemma connecting_inv_reachable s : reachable q s -> connecting_inv s.
Proof.
  revert s. apply (reachable_ind' q connecting_inv).
  - intros j Hc. apply idle_init. apply lookup_lt_is_Some.
    unfold connecting, init in Hc.
    destruct (promise_all_fields
                (mkState 0 None 0 (length (q_relayUrls q))
                   (map (fun u => mkBranch u Connecting None false 0 false)
                      (q_relayUrls q))
                   [(OVERALL_TIMEOUT, OverallTimer)] false None 0 0))
      as (_ & _ & Hb & _).
    rewrite Hb in Hc. simpl in Hc. rewrite list_lookup_fmap in Hc.
    by destruct (q_relayUrls q !! j).
  - intros s inp _ IH j Hc. apply connecting_step in Hc as [Hc Hun].
    by apply idle_step; [apply IH|].
Qed.

Lemma subscribes_cons inp tr :
  subscribes (inp :: tr) = false <->
  subscribes [inp] = false \/ subscribes tr = false.
Proof.
  unfold subscribes. simpl. rewrite andb_true_r. apply andb_false_iff.
Qed.

Lemma unanswered_cons j inp tr :
  unanswered j (inp :: tr) = true <->
  unanswered j [inp] = true /\ unanswered j tr = true.
Proof.
  unfold unanswered. simpl. rewrite andb_true_r. apply andb_true_iff.
Qed.

(** While branch [j] waits and is not answered, the returned promise is
    resolved by the overall timer only, with no receipt stored, or by a
    call of [subscribe] of another branch that throws: with [null]. *)
Lemma idle_run tr s j :
  idle s j -> unanswered j tr = true ->
  idle (run q s tr) j
  /\ (resolved (run q s tr) = resolved s
      \/ ((zapReceipt s = None \/ subscribes tr = false)
          /\ exists t, resolved (run q s tr) = Some (None, t))).
Proof.
  revert s. unfold run. induction tr as [|inp tr IH]; intros s Hi Hun; simpl.
  - split; [done|by left].
  - apply unanswered_cons in Hun as [Hun1 Hun2].
    destruct (idle_step s inp j Hi Hun1) as [Hi1 Hr1].
    destruct (IH _ Hi1 Hun2) as [Hi2 Hr2]. split; [done|].
    destruct Hr2 as [->|(Hcase & t & Hr2)].
    + destruct Hr1 as [?|[(? & ?)|(? & ?)]]; [by left|right; by auto|].
      right. split; [|done]. right. apply subscribes_cons. by left.
    + right. rewrite Hr2. split; [|by eauto].
      destruct Hcase as [Hz1|Hsub].
      * destruct (zapReceipt s) as [r|] eqn:Hz; [|by left].
        by rewrite (zapReceipt_stable_step q s inp r Hz) in Hz1.
      * right. apply subscribes_cons. by right.
Qed.

(** X1. While the connection attempt of one relay of the call stays
    unanswered, the call never returns a receipt: the branch promise of
    that relay is never resolved, so [Promise.all] never runs its
    continuation; the overall timer resolves with [null] only, and so
    does the rejection that follows a call of [subscribe] that throws in
    another branch.  If a receipt is stored while the call is pending, the
    overall timer does nothing, and the call does not return as long as
    no call of [subscribe] throws. *)
Theorem unanswered_connection_blocks_receipt tr j :
  j < length (q_relayUrls q) -> unanswered j tr = true ->
  (forall r, outcome_of (run q (init q) tr) <> Fulfilled (Some r))
  /\ (forall tr1 tr2 r,
        tr = tr1 ++ tr2 ->
        zapReceipt (run q (init q) tr1) = Some r ->
        resolved (run q (init q) tr1) = None ->
        subscribes tr2 = true ->
        outcome_of (run q (init q) tr) = Pending).
Proof.
  intros Hj Hun. destruct (idle_init j Hj) as [Hi0 Hr0]. split.
  - intros r. unfold outcome_of.
    destruct (idle_run tr _ j Hi0 Hun) as [_ [->|(_ & t & ->)]];
      [by rewrite Hr0|done].
  - intros tr1 tr2 r -> Hz Hr Hsub.
    unfold unanswered in Hun. rewrite forallb_app in Hun.
    apply andb_true_iff in Hun as [Hun1 Hun2].
    destruct (idle_run tr1 _ j Hi0 Hun1) as [Hi1 _].
    rewrite run_app. unfold outcome_of.
    destruct (idle_run tr2 _ j Hi1 Hun2) as [_ [->|([Hz'|Hs] & _)]];
      [by rewrite Hr|congruence|congruence].
Qed.

(** ** Branch timers *)

Lemma ptb_ext bound s s' :
  branches s' = branches s -> timers s' = timers s ->
  (resolved s' = None -> resolved s = None) ->
  pending_timed_by bound s -> pending_timed_by bound s'.
Proof. unfold pending_timed_by. intros -> -> Hr H Hn. by apply H, Hr. Qed.

Lemma ptb_mono bound bound' s :
  (bound <= bound')%N ->
  pending_timed_by bound s -> pending_timed_by bound' s.
Proof.
  intros Hle H Hr j b Hb Hd. destruct (H Hr j b Hb Hd) as [?|(d & ? & ?)];
    [by left|].
  right. exists d. split; [done|lia].
Qed.

Lemma ptb_update_branch bound i f s :
  (forall b, relay_done (f b) = false ->
             relay_done b = false /\ conn (f b) = conn b) ->
  pending_timed_by bound s -> pending_timed_by bound (update_branch i f s).
Proof.
  intros Hf H Hr j b' Hb' Hd. simpl in Hr.
  apply lookup_update_branch in Hb' as (b & Hb & [[-> ->]|[_ ->]]).
  - destruct (Hf b Hd) as [Hd' Hc]. rewrite Hc. exact (H Hr _ _ Hb Hd').
  - exact (H Hr _ _ Hb Hd).
Qed.

Lemma promise_all_unresolved s :
  resolved (promise_all s) = None -> resolved s = None.
Proof. by destruct (promise_all_resolved s) as [->|(_ & _ & _ & ->)]. Qed.

Lemma fire_unresolved id s : resolved (fire id s) = None -> resolved s = None.
Proof. by destruct (fire_resolved id s) as [_ [->|[_ ->]]]. Qed.

Lemma ptb_promise_all bound s :
  pending_timed_by bound s -> pending_timed_by bound (promise_all s).
Proof.
  apply ptb_ext; [apply promise_all_fields..|apply promise_all_unresolved].
Qed.

Lemma ptb_pop_fire bound due id rest s :
  pop_earliest (timers s) = Some ((due, id), rest) ->
  pending_timed_by bound s ->
  pending_timed_by bound (fire id (set_now due (set_timers rest s))).
Proof.
  intros Hp H. destruct (pop_earliest_spec _ _ _ Hp) as [Hperm _].
  destruct id as [|k].
  - apply (ptb_ext _ (set_timers rest s));
      [apply (fire_overall_branches (set_now due (set_timers rest s)))
      |apply (fire_timers OverallTimer (set_now due (set_timers rest s)))
      |intros Hr; by apply fire_unresolved in Hr|].
    intros Hr j b Hb Hd. simpl in Hr.
    destruct (H Hr j b Hb Hd) as [?|(d & Hin & ?)]; [by left|].
    right. exists d. split; [|done]. simpl.
    rewrite Hperm in Hin. apply elem_of_cons in Hin as [[=]|?]; done.
  - simpl. apply ptb_promise_all. intros Hr j b' Hb' Hd. simpl in Hr |- *.
    apply lookup_update_branch in Hb' as (b1 & Hb1 & Hcase1).
    apply lookup_update_branch in Hb1 as (b & Hb & Hcase).
    simpl in Hb.
    destruct (decide (k = j)) as [->|Hne].
    + destruct Hcase1 as [[_ ->]|[? _]]; done.
    + destruct Hcase1 as [[? _]|[_ ->]]; [done|].
      destruct Hcase as [[? _]|[_ ->]]; [done|].
      destruct (H Hr j b Hb Hd) as [?|(d & Hin & ?)]; [by left|].
      right. exists d. split; [|done].
      rewrite Hperm in Hin. apply elem_of_cons in Hin as [[=]|?]; done.
Qed.

(** A callback keeps the bound when the timer that a new subscription
    starts is due by it, or when no branch waits for its connection. *)
Lemma ptb_step bound s inp :
  (now s + RELAY_TIMEOUT <= bound)%N \/ (forall j, ~ connecting s j) ->
  pending_timed_by bound s -> pending_timed_by bound (step q s inp).
Proof.
  intros Hbound H. destruct inp as [i|i|i ev|i|dt|i]; cbn [step].
  - unfold on_connect. destruct (branches s !! i) as [b|] eqn:Hb; [|done].
    destruct (conn b) eqn:Hc; try done.
    destruct Hbound as [Hbound|Hnone].
    2:{ destruct (Hnone i). unfold connecting.
        by rewrite Hb; simpl; rewrite Hc. }
    intros Hr j b' Hb' Hd. simpl in Hb', Hr. simpl.
    rewrite list_lookup_alter in Hb'. case_decide as Hij.
    + right. subst j. exists (now s + RELAY_TIMEOUT)%N. split; [|done].
      apply elem_of_app. right. by apply list_elem_of_singleton.
    + destruct (H Hr j b' Hb' Hd) as [?|(d & Hin & ?)]; [by left|].
      right. exists d. split; [|done]. apply elem_of_app. by left.
  - unfold on_connect_error. destruct (branches s !! i) as [b|] eqn:Hb; [|done].
    destruct (conn b) eqn:Hc; try done.
    by apply ptb_promise_all, ptb_update_branch.
  - unfold onevent. destruct (branches s !! i) as [b|] eqn:Hb; [|done].
    destruct (sub_open b); [|done].
    assert (pending_timed_by bound (update_branch i count_event s)) as H1
      by by apply ptb_update_branch.
    destruct (zapReceipt (update_branch i count_event s)); [done|].
    destruct (parseZapReceipt ev (q_invoice q)) as [[parsed|]|]; try done.
    destruct (printable parsed); [|done].
    apply ptb_promise_all.
    apply ptb_update_branch; [done|]. by apply ptb_update_branch.
  - unfold oneose. destruct (branches s !! i) as [b|] eqn:Hb; [|done].
    destruct (sub_open b); [|done].
    apply ptb_promise_all.
    assert (pending_timed_by bound
              (incr_completedRelays (update_branch i close_sub s))) as H1.
    { apply (ptb_ext _ (update_branch i close_sub s)); [done..|].
      by apply ptb_update_branch. }
    case_match; [|done]. by apply ptb_update_branch.
  - unfold advance. apply (ptb_ext _ (fire_due (length (timers s))
                                         (now s + dt) s)); [done..|].
    apply fire_due_preserves; [|exact H].
    intros s' due id rest Hs' Hp _. by apply ptb_pop_fire.
  - unfold on_subscribe_error. destruct (branches s !! i) as [b|]; [|done].
    destruct (conn b); try done.
    intros Hr. exfalso. revert Hr. unfold resolve. simpl.
    destruct (resolved s) eqn:Hres; simpl; [by rewrite Hres|done].
Qed.

Lemma ptb_reachable s :
  reachable q s -> pending_timed_by (now s + RELAY_TIMEOUT) s.
Proof.
  revert s.
  apply (reachable_ind' q
           (fun s => pending_timed_by (now s + RELAY_TIMEOUT) s)).
  - apply ptb_promise_all. intros _ j b. simpl. rewrite list_lookup_fmap.
    destruct (q_relayUrls q !! j); simpl; [|done]. intros [= <-] _. by left.
  - intros s' inp _ H.
    apply (ptb_mono (now s' + RELAY_TIMEOUT)).
    + rewrite now_step. lia.
    + apply ptb_step; [left; lia|done].
Qed.

(** ** The continuation of [Promise.all] *)

Lemma all_settled_update_branch i f s :
  (forall b, relay_done (f b) = relay_done b) ->
  all_settled (update_branch i f s) = all_settled s.
Proof.
  intros Hf. unfold all_settled, update_branch. simpl.
  revert i. induction (branches s) as [|b l IH]; intros [|i]; simpl;
    try done.
  - by rewrite Hf.
  - f_equal. apply IH.
Qed.

Lemma settled_ext s s' :
  all_done s' = all_done s -> resolved s' = resolved s ->
  all_settled s' = all_settled s -> settled_inv s -> settled_inv s'.
Proof. unfold settled_inv. by intros -> -> ->. Qed.

Lemma settled_promise_all s :
  (all_done s = true -> is_Some (resolved s)) -> settled_inv (promise_all s).
Proof.
  intros H. unfold settled_inv, promise_all.
  destruct (all_done s) eqn:Hd; simpl.
  - intros _. by apply H.
  - destruct (all_settled s) eqn:Ha; simpl.
    + intros _. unfold resolve. simpl.
      destruct (resolved s) eqn:Hr; simpl; [rewrite Hr|]; eauto.
    + rewrite Hd, Ha. by intros [?|?].
Qed.

Lemma settled_pop_fire due id rest s :
  settled_inv s -> settled_inv (fire id (set_now due (set_timers rest s))).
Proof.
  intros H. destruct id as [|k]; simpl.
  - destruct (zapReceipt s); [done|]. unfold resolve. simpl.
    destruct (resolved s) eqn:Hr; [done|]. intros _. simpl. eauto.
  - apply settled_promise_all. simpl. intros Hd. apply H. by left.
Qed.

Lemma settled_step s inp : settled_inv s -> settled_inv (step q s inp).
Proof.
  intros H. destruct inp as [i|i|i ev|i|dt|i]; cbn [step].
  - unfold on_connect. destruct (branches s !! i) as [b|]; [|done].
    destruct (conn b); try done.
    apply (settled_ext s); try done.
    by apply (all_settled_update_branch i).
  - unfold on_connect_error. destruct (branches s !! i) as [b|]; [|done].
    destruct (conn b); try done.
    apply settled_promise_all. simpl. intros Hd. apply H. by left.
  - unfold onevent. destruct (branches s !! i) as [b|]; [|done].
    destruct (sub_open b); [|done].
    assert (settled_inv (update_branch i count_event s)) as H1.
    { apply (settled_ext s); try done.
      by apply (all_settled_update_branch i). }
    destruct (zapReceipt (update_branch i count_event s)); [done|].
    destruct (parseZapReceipt ev (q_invoice q)) as [[parsed|]|]; try done.
    destruct (printable parsed); [|done].
    apply settled_promise_all. simpl. intros Hd. apply H. by left.
  - unfold oneose. destruct (branches s !! i) as [b|]; [|done].
    destruct (sub_open b); [|done].
    apply settled_promise_all.
    case_match; simpl; intros Hd; apply H; by left.
  - unfold advance.
    apply (settled_ext (fire_due (length (timers s)) (now s + dt) s));
      try done.
    apply fire_due_preserves; [|done].
    intros s' due id rest Hs' _ _. by apply settled_pop_fire.
  - unfold on_subscribe_error. destruct (branches s !! i) as [b|]; [|done].
    destruct (conn b); try done.
    intros _. unfold resolve. simpl.
    destruct (resolved s) eqn:Hr; simpl; [rewrite Hr|]; eauto.
Qed.

Lemma settled_reachable s : reachable q s -> settled_inv s.
Proof.
  revert s. apply (reachable_ind' q settled_inv).
  - unfold init. by apply settled_promise_all.
  - intros s inp _. apply settled_step.
Qed.

(** ** The time of the resolution *)

Lemma resolved_by_promise_all s :
  resolved_by (now s) s -> resolved_by (now s) (promise_all s).
Proof.
  intros H v t. destruct (promise_all_resolved s) as [->|(_ & _ & _ & ->)].
  - apply H.
  - intros [= _ <-]. lia.
Qed.

Lemma resolved_by_pop_fire due id rest s :
  pop_earliest (timers s) = Some ((due, id), rest) ->
  timing_inv s -> resolved_by (now s) s ->
  resolved_by due (fire id (set_now due (set_timers rest s))).
Proof.
  intros Hp Ht H v t.
  destruct (pop_earliest_spec _ _ _ Hp) as [Hperm _].
  assert (now s <= due)%N as Hle.
  { destruct Ht as [Hdue _ _ _ _]. rewrite Forall_forall in Hdue.
    apply (Hdue (due, id)). rewrite Hperm. by apply elem_of_cons; left. }
  destruct (fire_resolved id (set_now due (set_timers rest s)))
    as [_ [->|[_ ->]]]; simpl.
  - intros Hr. apply H in Hr. lia.
  - intros [= _ <-]. lia.
Qed.

Lemma resolved_by_step s inp :
  timing_inv s -> resolved_by (now s) s ->
  resolved_by (now (step q s inp)) (step q s inp).
Proof.
  intros Ht H. rewrite now_step. destruct inp as [i|i|i ev|i|dt|i]; cbn [step];
    rewrite ?N.add_0_r.
  - unfold resolved_by. by destruct (on_connect_fields q i s) as (_ & _ & -> & _).
  - unfold on_connect_error. destruct (branches s !! i) as [b|]; [|done].
    destruct (conn b); try done.
    by apply (resolved_by_promise_all (update_branch i failed s)).
  - unfold onevent. destruct (branches s !! i) as [b|]; [|done].
    destruct (sub_open b); [|done].
    destruct (zapReceipt (update_branch i count_event s)); [done|].
    destruct (parseZapReceipt ev (q_invoice q)) as [[parsed|]|]; try done.
    destruct (printable parsed); [|done].
    match goal with |- context [promise_all ?x] =>
      by apply (resolved_by_promise_all x)
    end.
  - unfold oneose. destruct (branches s !! i) as [b|]; [|done].
    destruct (sub_open b); [|done].
    case_match;
      match goal with |- context [promise_all ?x] =>
        by apply (resolved_by_promise_all x)
      end.
  - unfold advance.
    assert (let s' := fire_due (length (timers s)) (now s + dt) s in
            timing_inv s' /\ (now s' <= now s + dt)%N
            /\ resolved_by (now s') s') as (_ & Hle & H').
    { apply (fire_due_preserves
               (fun s' => timing_inv s' /\ (now s' <= now s + dt)%N
                          /\ resolved_by (now s') s')).
      - intros s' due id rest (Ht' & Hle & H') Hp Hdue.
        split; [by apply timing_pop_fire|].
        rewrite fire_now. simpl. split; [done|].
        by apply resolved_by_pop_fire.
      - split; [done|]. split; [lia|done]. }
    intros v t Hr. simpl in Hr. apply H' in Hr. lia.
  - unfold on_subscribe_error. destruct (branches s !! i) as [b|]; [|done].
    destruct (conn b); try done.
    intros v t. unfold resolve. simpl.
    destruct (resolved s) as [x|] eqn:Hr; simpl.
    + rewrite Hr. intros [= ->]. by apply (H v t).
    + intros [= _ <-]. lia.
Qed.

Lemma resolved_by_reachable s : reachable q s -> resolved_by (now s) s.
Proof.
  revert s. apply (reachable_ind' q (fun s => resolved_by (now s) s)).
  - intros v t. unfold init.
    match goal with |- context [promise_all ?x] =>
      destruct (promise_all_resolved x) as [->|(_ & _ & _ & ->)];
      destruct (promise_all_fields x) as (-> & _)
    end; [done|]. intros [= _ <-]. lia.
  - intros s inp Hr. apply resolved_by_step.
    by destruct (timing_reachable q s Hr).
Qed.

(** ** Every connection attempt answered *)

(** While no branch waits for its connection, an unresolved returned
    promise means that some branch timer is pending. *)
Lemma unresolved_timer bound s :
  pending_timed_by bound s -> settled_inv s ->
  (forall j, ~ connecting s j) -> resolved s = None ->
  exists j d, (d, RelayTimer j) ∈ timers s /\ (d <= bound)%N.
Proof.
  intros Hp Hs Ha Hr.
  destruct (all_settled s) eqn:Hall.
  { destruct Hs as [x Hx]; [by right|congruence]. }
  apply all_settled_unsettled in Hall as (j & b & Hb & Hd).
  destruct (Hp Hr j b Hb Hd) as [Hc|(d & ? & ?)]; [|by exists j, d].
  destruct (Ha j). unfold connecting. by rewrite Hb; simpl; rewrite Hc.
Qed.

Lemma answered_ext bound s s' :
  branches s' = branches s -> timers s' = timers s ->
  resolved s' = resolved s ->
  answered_by bound s -> answered_by bound s'.
Proof.
  unfold answered_by, connecting, pending_timed_by, resolved_by.
  by intros -> -> ->.
Qed.

(** A timer callback: the returned promise is resolved by it only while
    a branch timer is pending, and that one is due by the bound. *)
Lemma answered_pop_fire bound due id rest s :
  pop_earliest (timers s) = Some ((due, id), rest) ->
  settled_inv s -> answered_by bound s ->
  answered_by bound (fire id (set_now due (set_timers rest s))).
Proof.
  intros Hpop Hs (Ha & Hp & Hb). split; [|split].
  - intros j. unfold connecting. rewrite conn_lookup_fire. apply Ha.
  - by apply ptb_pop_fire.
  - intros v t.
    destruct (fire_resolved id (set_now due (set_timers rest s)))
      as [_ [->|[Hnone ->]]]; simpl; [apply Hb|].
    simpl in Hnone. intros [= _ <-].
    destruct (unresolved_timer bound s Hp Hs Ha Hnone)
      as (j & d & Hin & Hle).
    destruct (pop_earliest_spec _ _ _ Hpop) as [_ Hmin].
    rewrite Forall_forall in Hmin. apply Hmin in Hin. simpl in Hin. lia.
Qed.

Lemma answered_advance bound dt s :
  settled_inv s -> answered_by bound s -> answered_by bound (advance dt s).
Proof.
  intros Hs Ha. unfold advance.
  apply (answered_ext _ (fire_due (length (timers s)) (now s + dt) s));
    [done..|].
  apply (fire_due_preserves
           (fun s' => settled_inv s' /\ answered_by bound s')); [|done].
  intros s' due id rest [Hs' Ha'] Hpop _.
  split; [by apply settled_pop_fire|by apply answered_pop_fire].
Qed.

Lemma answered_step bound s inp :
  reachable q s -> answered_by bound s -> answered_by bound (step q s inp).
Proof.
  intros Hreach Hans.
  pose proof (settled_reachable s Hreach) as Hs.
  assert ((exists dt, inp = Advance dt) \/ now (step q s inp) = now s)
    as [[dt ->]|Hnow]
    by (rewrite now_step; destruct inp; eauto; right; lia).
  { by apply answered_advance. }
  destruct Hans as (Ha & Hp & Hb). split; [|split].
  - intros j Hc. apply connecting_step in Hc as [Hc _]. by apply (Ha j).
  - apply ptb_step; [by right|done].
  - intros v t Hr'. destruct (resolved s) as [x|] eqn:Hr.
    + rewrite (resolved_stable_step q s inp x Hr) in Hr'.
      injection Hr' as ->. by apply (Hb v t).
    + destruct (unresolved_timer bound s Hp Hs Ha Hr) as (j & d & Hin & Hle).
      destruct (timing_reachable q s Hreach) as [Ht Hpend].
      unfold timers_pending in Hpend. rewrite Forall_forall in Hpend.
      apply Hpend in Hin. simpl in Hin.
      apply (resolved_by_step s inp Ht (resolved_by_reachable s Hreach))
        in Hr'.
      rewrite Hnow in Hr'. lia.
Qed.

Lemma answered_run bound tr s :
  reachable q s -> answered_by bound s -> answered_by bound (run q s tr).
Proof.
  revert s. induction tr as [|inp tr IH]; intros s Hreach Hans; [done|].
  change (run q s (inp :: tr)) with (run q (step q s inp) tr).
  apply IH; [apply (reachable_run q s [inp] Hreach)|by apply answered_step].
Qed.

(** X2. Once every connection attempt of a call has been answered (each
    relay connected or failed, or its call of [subscribe] threw), the call
    returns within [RELAY_TIMEOUT] (5000 ms), whatever the relays do in
    the meantime: every branch that is still unresolved has its own timer
    pending, and the last of these timers resolves the last branch
    promise.  The value is then fixed for good. *)
Theorem answered_call_returns tr tr' :
  (forall j, ~ connecting (run q (init q) tr) j) ->
  (RELAY_TIMEOUT <= elapsed tr')%N ->
  exists v t,
    resolved (run q (init q) (tr ++ tr')) = Some (v, t)
    /\ (t <= elapsed tr + RELAY_TIMEOUT)%N
    /\ forall tr'',
         outcome_of (run q (init q) (tr ++ tr' ++ tr'')) = Fulfilled v.
Proof.
  intros Hans Hdt. set (s := run q (init q) tr).
  assert (reachable q s) as Hreach by by exists tr.
  assert (now s = elapsed tr) as Hnow.
  { unfold s. rewrite now_run. unfold init.
    match goal with |- context [promise_all ?x] =>
      by destruct (promise_all_fields x) as (-> & _)
    end. }
  assert (answered_by (now s + RELAY_TIMEOUT) s) as H0.
  { split; [done|]. split; [by apply ptb_reachable|].
    intros v t Hr. apply (resolved_by_reachable s Hreach) in Hr. lia. }
  destruct (answered_run _ tr' s Hreach H0) as (Ha & Hp & Hb).
  assert (reachable q (run q s tr')) as Hreach' by by apply reachable_run.
  rewrite run_app. fold s.
  destruct (resolved (run q s tr')) as [[v t]|] eqn:Hr.
  - exists v, t. split; [done|].
    split; [rewrite <- Hnow; by apply (Hb v t)|].
    intros tr''. rewrite app_assoc, run_app, run_app. fold s.
    unfold outcome_of. by rewrite (resolved_stable q tr'' _ (v, t) Hr).
  - exfalso.
    destruct (unresolved_timer _ _ Hp (settled_reachable _ Hreach') Ha Hr)
      as (j & d & Hin & Hle).
    destruct (timing_reachable q _ Hreach') as [_ Hpend].
    unfold timers_pending in Hpend. rewrite Forall_forall in Hpend.
    apply Hpend in Hin. simpl in Hin. rewrite now_run in Hin. lia.
Qed.

(** ** The origin of a returned receipt *)

Lemma returned_receipt_origin tr r :
  outcome_of (run q (init q) tr) = Fulfilled (Some r) ->
  exists tr1 i ev tr2 b,
    tr = tr1 ++ Deliver i ev :: tr2
    /\ branches (run q (init q) tr1) !! i = Some b
    /\ sub_open b = true /\ conn b = Connected
    /\ parseZapReceipt ev (q_invoice q) = Normal (Some r)
    /\ has_slice (senderPubkey r) = true.
Proof.
  unfold outcome_of.
  destruct (resolved (run q (init q) tr)) as [[v t]|] eqn:Hr; [|done].
  intros [= ->].
  assert (reachable q (run q (init q) tr)) as Hreach by by exists tr.
  destruct (timing_reachable q _ Hreach) as [[_ _ _ _ Hval] _].
  apply Hval in Hr.
  apply stored_receipt_origin in Hr
    as (tr1 & i & ev & tr2 & -> & _ & Hopen & Hparse & Hslice).
  unfold subscription_open in Hopen.
  destruct (branches (run q (init q) tr1) !! i) as [b|] eqn:Hb; [|done].
  simpl in Hopen. injection Hopen as Hopen.
  assert (reachable q (run q (init q) tr1)) as Hreach1 by by exists tr1.
  destruct (branches_reachable q _ Hreach1 i b Hb) as [Hconn _].
  exists tr1, i, ev, tr2, b. apply printable_has_slice in Hslice.
  repeat split; try done. by apply Hconn.
Qed.

(** X3. Every receipt that a call returns was decoded by the matcher from
    a record that one of the call's own subscriptions delivered while it
    was open, on an open connection: the value of the record's bolt11 tag
    is the invoice of the call, the recipient of the receipt is the value
    of the record's p tag, and its sender is a string or an array. *)
Theorem returned_receipt_was_delivered tr r :
  outcome_of (run q (init q) tr) = Fulfilled (Some r) ->
  exists tr1 i ev tr2 b,
    tr = tr1 ++ Deliver i ev :: tr2
    /\ branches (run q (init q) tr1) !! i = Some b
    /\ sub_open b = true /\ conn b = Connected
    /\ parseZapReceipt ev (q_invoice q) = Normal (Some r)
    /\ tag_value ev "bolt11" = Some (q_invoice q)
    /\ tag_value ev "p" = Some (recipientPubkey r)
    /\ has_slice (senderPubkey r) = true.
Proof.
  intros Hout.
  apply returned_receipt_origin in Hout
    as (tr1 & i & ev & tr2 & b & -> & Hb & Hopen & Hconn & Hparse & Hslice).
  exists tr1, i, ev, tr2, b.
  pose proof Hparse as Hparse'.
  apply parseZapReceipt_Some in Hparse'
    as (_ & Hbolt & d & l & p & sender & _ & _ & _ & Hp & _ & _ & _ & ->).
  by repeat split.
Qed.

(** ** The end of a subscription *)

Lemma sub_run bound j tr s :
  ~ connecting s j -> sub_timed_by bound j s ->
  ~ connecting (run q s tr) j /\ sub_timed_by bound j (run q s tr).
Proof.
  revert s. induction tr as [|inp tr IH]; intros s Hc H; [done|].
  change (run q s (inp :: tr)) with (run q (step q s inp) tr).
  apply IH.
  - intros Hc'. by apply connecting_step in Hc' as [Hc' _].
  - apply sub_step; [by right|done].
Qed.

(** C5 (as amended). The subscription of a branch is open only after the
    connection attempt of the branch has been answered.  Once it has been
    answered, the subscription is closed 5000 ms later at the latest,
    whatever happens in between, and it is not opened again.  The
    connections, though, are not closed by anything: an open connection
    stays open for the rest of the call and after it. *)
Theorem subscriptions_end_connections_stay tr :
  (forall j,
      subscription_open (run q (init q) tr) j ->
      ~ connecting (run q (init q) tr) j)
  /\ (forall tr' j,
        ~ connecting (run q (init q) tr) j ->
        (RELAY_TIMEOUT <= elapsed tr')%N ->
        ~ subscription_open (run q (init q) (tr ++ tr')) j)
  /\ (forall tr' j,
        connection_open (run q (init q) tr) j ->
        connection_open (run q (init q) (tr ++ tr')) j).
Proof.
  set (s := run q (init q) tr).
  assert (reachable q s) as Hreach by by exists tr.
  split; [|split].
  - unfold subscription_open, connecting. intros j Ho.
    destruct (branches s !! j) as [b|] eqn:Hb; [|done].
    simpl in Ho. injection Ho as Ho.
    destruct (branches_reachable q s Hreach j b Hb) as [Hconn _].
    simpl. by rewrite (Hconn Ho).
  - intros tr' j Hc Hdt. rewrite run_app. fold s.
    destruct (sub_run (now s + RELAY_TIMEOUT) j tr' s Hc
                (sub_reachable q j s Hreach)) as [_ H].
    unfold subscription_open.
    destruct (branches (run q s tr') !! j) as [b|] eqn:Hb; [|done].
    simpl. intros [= Ho]. destruct (H b Hb Ho) as (d & Hd & Hdb).
    assert (reachable q (run q s tr')) as Hreach' by by apply reachable_run.
    destruct (timing_reachable q _ Hreach') as [_ Hpend].
    unfold timers_pending in Hpend. rewrite Forall_forall in Hpend.
    apply Hpend in Hd. simpl in Hd. rewrite now_run in Hd. lia.
  - intros tr' j Hc. rewrite run_app. by apply conn_run.
Qed.

End ProgressFacts.

(** The theorem of C5 at a relay that connects after 1000 ms and delivers
    a record that the matcher rejects: its subscription is open after
    4000 ms more and closed after 5000 ms more. *)
Lemma subscriptions_end_connections_stay_witness :
  let tr := [Advance 1000; ConnectOk 0] in
  let tr' := [Advance 4000; Deliver 0 (fixture_with ["p"; ""]);
              Advance 1000] in
  (~ connecting (run one_relay (init one_relay) tr) 0
   /\ (RELAY_TIMEOUT <= elapsed tr')%N)
  /\ subscription_open
       (run one_relay (init one_relay) (tr ++ [Advance 4000])) 0
  /\ ~ subscription_open (run one_relay (init one_relay) (tr ++ tr')) 0
  /\ connection_open (run one_relay (init one_relay) (tr ++ tr')) 0.
Proof.
  assert (~ connecting (run one_relay (init one_relay)
                          [Advance 1000; ConnectOk 0]) 0) as H1
    by (intros H; vm_compute in H; discriminate).
  assert (RELAY_TIMEOUT
          <= elapsed [Advance 4000; Deliver 0 (fixture_with ["p"; ""]);
                      Advance 1000])%N as H2
    by (vm_compute; discriminate).
  split; [split; [exact H1|exact H2]|]. split; [reflexivity|]. split.
  - exact (proj1 (proj2 (subscriptions_end_connections_stay one_relay
                           [Advance 1000; ConnectOk 0])) _ 0 H1 H2).
  - exact (proj2 (proj2 (subscriptions_end_connections_stay one_relay
                           [Advance 1000; ConnectOk 0])) _ 0 eq_refl).
Defined.

(** X1 at two relays: the first connects and delivers the record of the
    literal scenario, the second never answers.  The receipt is stored and
    the call is still pending after 20 seconds. *)
Lemma unanswered_connection_blocks_receipt_witness :
  let tr := [ConnectOk 0; Deliver 0 fixture_event; Advance 20000] in
  1 < length (q_relayUrls two_relays)
  /\ unanswered 1 tr = true
  /\ zapReceipt (run two_relays (init two_relays) tr) = Some fixture_result
  /\ outcome_of (run two_relays (init two_relays) tr) = Pending.
Proof.
  assert (1 < length (q_relayUrls two_relays)) as H1 by (simpl; lia).
  assert (unanswered 1 [ConnectOk 0; Deliver 0 fixture_event; Advance 20000]
          = true) as H2 by reflexivity.
  split; [exact H1|]. split; [exact H2|]. split; [reflexivity|].
  exact (proj2 (unanswered_connection_blocks_receipt two_relays
                  [ConnectOk 0; Deliver 0 fixture_event; Advance 20000] 1
                  H1 H2)
           [ConnectOk 0; Deliver 0 fixture_event] [Advance 20000]
           fixture_result eq_refl eq_refl eq_refl eq_refl).
Defined.

(** X2 at one relay that connects and then delivers a record that the
    matcher rejects: 5000 ms after it connected the call has returned. *)
Lemma answered_call_returns_witness :
  let tr := [ConnectOk 0; Advance 100] in
  let tr' := [Advance 2000; Deliver 0 (fixture_with ["p"; ""]);
              Advance 3000] in
  (forall j, ~ connecting (run one_relay (init one_relay) tr) j)
  /\ (RELAY_TIMEOUT <= elapsed tr')%N
  /\ exists v t,
       resolved (run one_relay (init one_relay) (tr ++ tr')) = Some (v, t)
       /\ (t <= 100 + RELAY_TIMEOUT)%N.
Proof.
  assert (forall j, ~ connecting (run one_relay (init one_relay)
                                    [ConnectOk 0; Advance 100]) j) as H1.
  { intros [|j] H; vm_compute in H; discriminate. }
  assert (RELAY_TIMEOUT
          <= elapsed [Advance 2000; Deliver 0 (fixture_with ["p"; ""]);
                      Advance 3000])%N as H2
    by (vm_compute; discriminate).
  split; [exact H1|]. split; [exact H2|].
  destruct (answered_call_returns one_relay [ConnectOk 0; Advance 100]
              [Advance 2000; Deliver 0 (fixture_with ["p"; ""]);
               Advance 3000] H1 H2) as (v & t & Hr & Ht & _).
  exists v, t. split; [exact Hr|exact Ht].
Defined.

(** X3 on the literal scenario. *)
Lemma returned_receipt_was_delivered_witness :
  outcome_of (run one_relay (init one_relay)
                [ConnectOk 0; Deliver 0 fixture_event])
  = Fulfilled (Some fixture_result)
  /\ exists tr1 i ev tr2 b,
       [ConnectOk 0; Deliver 0 fixture_event] = tr1 ++ Deliver i ev :: tr2
       /\ branches (run one_relay (init one_relay) tr1) !! i = Some b
       /\ sub_open b = true /\ conn b = Connected
       /\ parseZapReceipt ev (q_invoice one_relay)
          = Normal (Some fixture_result)
       /\ tag_value ev "bolt11" = Some (q_invoice one_relay)
       /\ tag_value ev "p" = Some (recipientPubkey fixture_result)
       /\ has_slice (senderPubkey fixture_result) = true.
Proof.
  split; [reflexivity|].
  exact (returned_receipt_was_delivered one_relay
           [ConnectOk 0; Deliver 0 fixture_event] fixture_result eq_refl).
Defined.

(** * The payments list *)

Section PaymentsListFacts.

Import PaymentsList.

Local Set Warnings "-clear-no-such-hyp".

Local Open Scope Z_scope.

Lemma milliseconds_seconds (t : Z) :
  10000000 <= t < 10000000000 -> milliseconds (t * 1000) = milliseconds t.
Proof.
  intros Ht. unfold milliseconds.
  destruct (Z.ltb_spec (t * 1000) 10000000000);
    destruct (Z.ltb_spec t 10000000000); lia.
Qed.

(** X4. For a payment that was made at or before the current time, the
    three numbers of the pending duration are the whole days, the hours
    below 24 and the minutes below 60 of the elapsed time: together they
    are its whole minutes.  The text shows days and hours when there is at
    least one day (the minutes are dropped), hours and minutes when there
    is at least one hour, and minutes otherwise. *)
Theorem pending_duration_parts (now timestamp : Z) :
  milliseconds timestamp <= now ->
  let diffMs := now - milliseconds timestamp in
  0 <= diffDays diffMs
  /\ 0 <= diffHours diffMs < 24
  /\ 0 <= diffMinutes diffMs < 60
  /\ diffMs / 60000
     = diffDays diffMs * 1440 + diffHours diffMs * 60 + diffMinutes diffMs
  /\ formatPendingDuration now timestamp
     = (if (86400000 <=? diffMs)%Z
        then pretty (diffDays diffMs) +:+ "d "
               +:+ pretty (diffHours diffMs) +:+ "h"
        else if (3600000 <=? diffMs)%Z
        then pretty (diffHours diffMs) +:+ "h "
               +:+ pretty (diffMinutes diffMs) +:+ "m"
        else pretty (diffMinutes diffMs) +:+ "m")%string.
Proof.
  intros Hle diffMs. assert (0 <= diffMs) as Hd by (unfold diffMs; lia).
  unfold formatPendingDuration. fold diffMs.
  generalize dependent diffMs. intros diffMs Hd.
  unfold diffDays, diffHours, diffMinutes.
  change (1000 * 60 * 60 * 24) with 86400000.
  change (1000 * 60 * 60) with 3600000.
  change (1000 * 60) with 60000.
  rewrite !Z.rem_mod_nonneg by lia.
  repeat split; try (Z.div_mod_to_equations; lia).
  destruct (Z.leb_spec 86400000 diffMs) as [H1|H1].
  - assert ((0 <? diffMs / 86400000) = true) as ->; [|done].
    apply Z.ltb_lt. Z.div_mod_to_equations. lia.
  - assert ((0 <? diffMs / 86400000) = false) as ->.
    { apply Z.ltb_ge. Z.div_mod_to_equations. lia. }
    destruct (Z.leb_spec 3600000 diffMs) as [H2|H2].
    + assert ((0 <? diffMs mod 86400000 / 3600000) = true) as ->; [|done].
      apply Z.ltb_lt. Z.div_mod_to_equations. lia.
    + assert ((0 <? diffMs mod 86400000 / 3600000) = false) as ->; [|done].
      apply Z.ltb_ge. Z.div_mod_to_equations. lia.
Qed.

(** X5. For a timestamp in the future the text shows nothing but a number
    of minutes between -60 and 0, whatever the distance:
    the days and hours are never shown. *)
Theorem pending_duration_of_future_timestamp (now timestamp : Z) :
  now < milliseconds timestamp ->
  let diffMs := now - milliseconds timestamp in
  formatPendingDuration now timestamp
  = (pretty (diffMinutes diffMs) +:+ "m")%string
  /\ -60 <= diffMinutes diffMs <= 0
  /\ isPendingTooLong now timestamp = false.
Proof.
  intros Hlt diffMs. assert (diffMs < 0) as Hd by (unfold diffMs; lia).
  unfold formatPendingDuration, isPendingTooLong. fold diffMs.
  generalize dependent diffMs. intros diffMs Hd.
  unfold diffDays, diffHours, diffMinutes.
  change (1000 * 60 * 60 * 24) with 86400000.
  change (1000 * 60 * 60) with 3600000.
  change (1000 * 60) with 60000.
  assert ((0 <? diffMs / 86400000) = false) as ->.
  { apply Z.ltb_ge. Z.div_mod_to_equations. lia. }
  assert ((0 <? Z.rem diffMs 86400000 / 3600000) = false) as ->.
  { apply Z.ltb_ge. Z.quot_rem_to_equations. Z.div_mod_to_equations. lia. }
  split; [done|]. split.
  - Z.quot_rem_to_equations. Z.div_mod_to_equations. lia.
  - apply Z.ltb_ge. Z.div_mod_to_equations. lia.
Qed.

(** X6. A pending payment counts as pending too long exactly when eleven
    whole minutes have passed since its timestamp; and a timestamp given
    in seconds is treated as the same timestamp in milliseconds, for every
    time between April 1970 and the year 2286. *)
Theorem pending_too_long_threshold (now timestamp : Z) :
  (isPendingTooLong now timestamp = true
   <-> 660000 <= now - milliseconds timestamp)
  /\ (10000000 <= timestamp < 10000000000 ->
      isPendingTooLong now (timestamp * 1000)
      = isPendingTooLong now timestamp
      /\ formatPendingDuration now (timestamp * 1000)
         = formatPendingDuration now timestamp).
Proof.
  split.
  - unfold isPendingTooLong. change (1000 * 60) with 60000.
    rewrite Z.ltb_lt. split; intros H; Z.div_mod_to_equations; lia.
  - intros Ht. unfold isPendingTooLong, formatPendingDuration.
    by rewrite milliseconds_seconds.
Qed.

(** X7. Toggling a row twice gives the set of expanded rows back, and
    toggling once changes the membership of that row and of no other. *)
Theorem toggleExpanded_twice (paymentId : string) (prev : gset string) :
  toggleExpanded paymentId (toggleExpanded paymentId prev) = prev
  /\ (paymentId ∈ toggleExpanded paymentId prev <-> paymentId ∉ prev)
  /\ (forall other, other <> paymentId ->
        (other ∈ toggleExpanded paymentId prev <-> other ∈ prev)).
Proof.
  unfold toggleExpanded. split; [|split].
  - destruct (decide (paymentId ∈ prev)) as [Hin|Hnot].
    + rewrite decide_False by set_solver.
      apply set_eq. intros x. destruct (decide (x = paymentId)); set_solver.
    + rewrite decide_True by set_solver. set_solver.
  - destruct (decide (paymentId ∈ prev)); set_solver.
  - intros other Hne. destruct (decide (paymentId ∈ prev)); set_solver.
Qed.

End PaymentsListFacts.

(** X4 for a payment made three days, five hours and seven minutes ago,
    with its timestamp in seconds. *)
Lemma pending_duration_parts_witness :
  (PaymentsList.milliseconds 1700000000 <= 1700277620000)%Z
  /\ PaymentsList.formatPendingDuration 1700277620000 1700000000 = "3d 5h".
Proof.
  assert (PaymentsList.milliseconds 1700000000 <= 1700277620000)%Z as H
    by by vm_compute.
  split; [exact H|].
  rewrite (proj2 (proj2 (proj2 (proj2
             (pending_duration_parts 1700277620000 1700000000 H))))).
  reflexivity.
Defined.

(** X5 for a timestamp three days and ten minutes ahead. *)
Lemma pending_duration_of_future_timestamp_witness :
  (1700000000000 < PaymentsList.milliseconds 1700259800)%Z
  /\ PaymentsList.formatPendingDuration 1700000000000 1700259800 = "-10m".
Proof.
  assert (1700000000000 < PaymentsList.milliseconds 1700259800)%Z as H
    by by vm_compute.
  split; [exact H|].
  rewrite (proj1 (pending_duration_of_future_timestamp
                    1700000000000 1700259800 H)).
  reflexivity.
Defined.

(** * Zap endpoints and zap events *)

Section ZapFacts.

Import Zap.

Lemma split_free sep s : free_of sep s = true -> split sep s = [s].
Proof.
  induction s as [|c r IH]; simpl; [done|].
  intros [Hc Hr]%andb_true_iff. apply negb_true_iff in Hc.
  by rewrite Hc, IH.
Qed.

Lemma split_app sep a b :
  free_of sep a = true -> split sep (a +:+ String sep b) = a :: split sep b.
Proof.
  induction a as [|c r IH]; simpl.
  - intros _. by rewrite Ascii.eqb_refl.
  - intros [Hc Hr]%andb_true_iff. apply negb_true_iff in Hc.
    by rewrite Hc, IH.
Qed.

Lemma lnurl_of_can_receive decode user lnurl :
  lnurl_of decode user = Normal (Some lnurl) ->
  canUserReceiveZaps (Some user) = true.
Proof.
  unfold lnurl_of, canUserReceiveZaps.
  destruct (truthy_str (lud16 user)); [done|].
  by destruct (truthy_str (lud06 user)).
Qed.

(** X8. When the user has an address and the fetch of that address gives
    a JSON object whose [allowsNostr] and [nostrPubkey] are truthy,
    [getZapEndpoint] gives the [callback] of that object ([undefined] when
    there is none).  It gives a usable (truthy) endpoint in no other case:
    every failure, of the decoding, of the fetch or of the checks, gives
    [null].  A user for whom an endpoint is found can receive zaps. *)
Theorem zap_endpoint_needs_nostr_support
    (decode : string -> completion string)
    (fetch : string -> completion json) (user : PrimalUser) :
  (forall lnurl l,
      lnurl_of decode user = Normal (Some lnurl) ->
      fetch lnurl = Normal (JObject l) ->
      truthy (obj_lookup "allowsNostr" l) = true ->
      truthy (obj_lookup "nostrPubkey" l) = true ->
      getZapEndpoint decode fetch user = obj_lookup "callback" l)
  /\ (truthy (getZapEndpoint decode fetch user) = true ->
      canUserReceiveZaps (Some user) = true
      /\ exists lnurl l,
           lnurl_of decode user = Normal (Some lnurl)
           /\ fetch lnurl = Normal (JObject l)
           /\ truthy (obj_lookup "allowsNostr" l) = true
           /\ truthy (obj_lookup "nostrPubkey" l) = true
           /\ getZapEndpoint decode fetch user = obj_lookup "callback" l).
Proof.
  split.
  - intros lnurl l Hl Hf Ha Hn. unfold getZapEndpoint.
    rewrite Hl, Hf. simpl. unfold allows_zaps. simpl. by rewrite Ha, Hn.
  - unfold getZapEndpoint.
    destruct (lnurl_of decode user) as [[lnurl|]|] eqn:Hl; [|done..].
    destruct (fetch lnurl) as [body|] eqn:Hf; simpl; [|done].
    unfold allows_zaps.
    destruct body as [| | | | |l|]; simpl; try done.
    destruct (truthy (obj_lookup "allowsNostr" l)) eqn:Ha; simpl; [|done].
    destruct (truthy (obj_lookup "nostrPubkey" l)) eqn:Hn; simpl; [|done].
    intros Ht. split; [by eapply lnurl_of_can_receive|].
    exists lnurl, l. by rewrite Hf.
Qed.

(** X9. For a lightning address [name@domain] the address that is fetched
    is [https://domain/.well-known/lnurlp/name]; [lud16] has precedence,
    so [lud06] is not decoded.  For a non-empty [lud16] without [@] the
    host of the address is the word [undefined]. *)
Theorem lud16_address (decode : string -> completion string)
    (user : PrimalUser) (name domain : string) :
  free_of "@" name = true -> free_of "@" domain = true ->
  (lud16 user = Some (name +:+ "@" +:+ domain) ->
   lnurl_of decode user
   = Normal (Some ("https://" +:+ domain +:+ "/.well-known/lnurlp/"
                   +:+ name)))
  /\ (name <> "" -> lud16 user = Some name ->
      lnurl_of decode user
      = Normal (Some ("https://undefined/.well-known/lnurlp/" +:+ name))).
Proof.
  intros Hn Hd. unfold lnurl_of. split.
  - intros ->.
    assert (truthy_str (Some (name +:+ "@" +:+ domain)) = true) as ->.
    { apply truthy_str_Some. eexists. split; [done|]. by destruct name. }
    simpl default. change ("@" +:+ domain) with (String "@" domain).
    rewrite split_app, split_free by done. done.
  - intros Hne ->.
    assert (truthy_str (Some name) = true) as ->.
    { apply truthy_str_Some. by exists name. }
    simpl default. by rewrite split_free.
Qed.

Lemma array_find_Some p l x :
  array_find p l = Normal (Some x) -> x ∈ l /\ p x = Normal true.
Proof.
  induction l as [|y l IH]; simpl; [done|].
  destruct (p y) as [[|]|] eqn:Hp; simpl; [| |done].
  - intros [= <-]. split; [by apply elem_of_cons; left|done].
  - intros H. destruct (IH H). split; [by apply elem_of_cons; right|done].
Qed.

(** X10. [convertToZap] throws when the event has no description tag, or
    an empty one: the description then defaults to an empty object, which
    has no [tags] to search.  When it returns, the description is a JSON
    object whose [tags] is an array with an element whose first entry is
    [p]; the receiver is the second entry of that element, the sender and
    the message are the [pubkey] and the [content] (or the empty string)
    of the object, the amount is decoded from the value of the bolt11 tag,
    and [zappedId] and [zappedKind] are always empty and 0. *)
Theorem convertToZap_result {A : Type} (decodeAmount : option string -> A)
    (zapContent : NostrUserZaps) :
  let ev := mkEvent (Some (content_tags zapContent)) in
  (truthy_str (tag_value ev "description") = false ->
   convertToZap decodeAmount zapContent = Throw)
  /\ (forall zap,
        convertToZap decodeAmount zapContent = Normal zap ->
        exists d l tags t,
          tag_value ev "description" = Some d
          /\ JSON_parse d = Some (JObject l)
          /\ obj_lookup "tags" l = Some (JArray tags)
          /\ t ∈ tags /\ tag_key_is "p" t = Normal true
          /\ index_key t "1" = Normal (reciver zap)
          /\ sender zap = obj_lookup "pubkey" l
          /\ message zap = or_empty (obj_lookup "content" l)
          /\ id zap = content_id zapContent
          /\ created_at zap = content_created_at zapContent
          /\ amount zap = decodeAmount (tag_value ev "bolt11")
          /\ zappedId zap = "" /\ zappedKind zap = 0%Z).
Proof.
  intros ev. unfold convertToZap, tag_value. fold ev. split.
  - intros ->. done.
  - intros zap.
    destruct (truthy_str (second (find_tag ev "description"))) eqn:Ht.
    + apply truthy_str_Some in Ht as (d & Hd & Hne). rewrite Hd. simpl.
      destruct (JSON_parse d) as [zapEvent|] eqn:Hp; [|done].
      destruct zapEvent as [| | | | |l|]; simpl; try done.
      destruct (obj_lookup "tags" l) as [[| | | |tags| |]|] eqn:Htags;
        try done.
      destruct (array_find (tag_key_is "p") tags) as [[t|]|] eqn:Hfind;
        simpl; try done.
      apply array_find_Some in Hfind as [Hin Hkey].
      destruct (index_key t "1") as [receiver|] eqn:Hrec; simpl; [|done].
      intros [= <-]. by exists d, l, tags, t.
    + done.
Qed.

End ZapFacts.

(** X9 for the address [alice@example.com]. *)
Lemma lud16_address_witness :
  Zap.free_of "@" "alice" = true /\ Zap.free_of "@" "example.com" = true
  /\ Zap.lnurl_of (fun _ => Throw)
       (Zap.mkUser (Some "lnurl1...") (Some "alice@example.com"))
     = Normal (Some "https://example.com/.well-known/lnurlp/alice").
Proof.
  split; [reflexivity|]. split; [reflexivity|].
  exact (proj1 (lud16_address (fun _ => Throw)
                  (Zap.mkUser (Some "lnurl1...") (Some "alice@example.com"))
                  "alice" "example.com" eq_refl eq_refl) eq_refl).
Defined.

(** * The wallet service *)

Create HintDb marked.

Section WalletFacts.

Import BreezWallet.

(** The keys that the prototypes of a value define. *)
Variable inherited : json -> string -> bool.

Implicit Types (payment : BreezPaymentInfo) (env : list input).

(** ** [fetchZapReceiptForPayment] *)

Lemma enriched_by_marked r payment : marked_like payment (enriched_by r payment).
Proof. done. Qed.

Lemma silent_call_returns_null q env :
  silent env = true -> (OVERALL_TIMEOUT <= elapsed env)%N ->
  outcome_of (run q (init q) env) = Fulfilled None.
Proof.
  intros Hsilent Helapsed.
  assert (exists t, resolved (run q (init q) env) = Some (None, t)
                    /\ (t <= OVERALL_TIMEOUT)%N) as (t & Hres & Ht).
  { apply (deadline_resolves q).
    - by exists env.
    - rewrite (zapReceipt_silent q) by done. apply zapReceipt_init.
    - rewrite (now_run q). lia. }
  unfold outcome_of. by rewrite Hres.
Qed.

(** X11. When [fetchZapReceiptForPayment] returns a payment other than
    the one it was given, the payment was an incoming one with a non-empty
    invoice that was not yet marked as a zap, and a relay delivered a
    record whose bolt11 tag carries that invoice: the payment is marked as
    a zap, its sender is the pubkey of the request embedded in the
    record, its recipient and event id are the values of the record's p
    and e tags, and its other data are unchanged.  The recipient is not
    compared with [userPubkey].  Such a payment is final: another call
    returns it as it is, whatever the relays do. *)
Theorem payment_enriched_from_delivered_record payment userPubkey env
    payment' :
  fetchZapReceiptForPayment payment userPubkey env = Some payment' ->
  payment' <> payment ->
  exists inv tr1 i ev tr2 r,
    paymentType payment = "receive" /\ truthy_flag (isZap payment) = false
    /\ invoice payment = Some inv /\ inv <> ""
    /\ env = tr1 ++ Deliver i ev :: tr2
    /\ parseZapReceipt ev inv = Normal (Some r)
    /\ tag_value ev "bolt11" = Some inv
    /\ isZap payment' = Some true
    /\ zapSenderPubkey payment' = Some (senderPubkey r)
    /\ zapRecipientPubkey payment' = JString <$> tag_value ev "p"
    /\ zapEventId payment' = JString <$> tag_value ev "e"
    /\ zapComment payment' = Some (comment r)
    /\ payment_data payment' = payment_data payment
    /\ forall userPubkey' env',
         fetchZapReceiptForPayment payment' userPubkey' env' = Some payment'.
Proof.
  unfold fetchZapReceiptForPayment at 1.
  destruct (String.eqb (paymentType payment) "receive") eqn:Htype; simpl;
    [|by intros [= <-]].
  destruct (truthy_flag (isZap payment)) eqn:Hflag; simpl;
    [by intros [= <-]|].
  destruct (truthy_str (invoice payment)) eqn:Hinv; simpl;
    [|by intros [= <-]].
  apply truthy_str_Some in Hinv as (inv & Hinv & Hne). rewrite Hinv.
  unfold fetchZapReceiptForInvoice. simpl default.
  set (q := mkQuery inv (Some userPubkey) default_relayUrls).
  destruct (outcome_of (run q (init q) env)) as [|[r|]|] eqn:Hout;
    try done; try (by intros [= <-]).
  assert (Some (enriched_by r payment) = Some payment' ->
          payment' = enriched_by r payment) as Heq by by intros [= <-].
  intros H _.
  assert (payment' = enriched_by r payment) as ->
    by (destruct (receipt_log_lines (enriched_by r payment)); by apply Heq).
  clear H Heq.
  apply returned_receipt_origin in Hout
    as (tr1 & i & ev & tr2 & b & -> & _ & _ & _ & Hparse & _).
  exists inv, tr1, i, ev, tr2, r.
  apply String.eqb_eq in Htype.
  pose proof Hparse as Hparse'.
  apply parseZapReceipt_Some in Hparse'
    as (_ & Hbolt & d & l & p & sender & _ & _ & _ & Hp' & _ & _ & _ & ->).
  simpl in *. rewrite Hp'.
  repeat split; try done.
  intros userPubkey' env'. unfold fetchZapReceiptForPayment. simpl.
  by rewrite orb_true_r.
Qed.

(** X12. While no relay delivers a record, a call of
    [fetchZapReceiptForPayment] that lasts 10 seconds has returned, and it
    has returned the payment as it was given. *)
Theorem payment_lookup_times_out payment userPubkey env :
  silent env = true -> (OVERALL_TIMEOUT <= elapsed env)%N ->
  fetchZapReceiptForPayment payment userPubkey env = Some payment.
Proof.
  intros Hsilent Helapsed. unfold fetchZapReceiptForPayment.
  case_match; [done|]. destruct (invoice payment) as [inv|]; [|done].
  unfold fetchZapReceiptForInvoice.
  by rewrite silent_call_returns_null.
Qed.

(** ** [enrichPaymentWithZapData] *)

Lemma marked_set_zapSenderPubkey v payment p :
  marked_like payment p -> marked_like payment (set_zapSenderPubkey v p).
Proof. by intros [? ?]. Qed.

Lemma marked_set_zapRecipientPubkey v payment p :
  marked_like payment p -> marked_like payment (set_zapRecipientPubkey v p).
Proof. by intros [? ?]. Qed.

Lemma marked_set_zapComment v payment p :
  marked_like payment p -> marked_like payment (set_zapComment v p).
Proof. by intros [? ?]. Qed.

Lemma marked_set_zapEventId v payment p :
  marked_like payment p -> marked_like payment (set_zapEventId v p).
Proof. by intros [? ?]. Qed.

Lemma marked_set_if_truthy set v payment p :
  (forall v p, marked_like payment p -> marked_like payment (set v p)) ->
  marked_like payment p -> marked_like payment (set_if_truthy set v p).
Proof. intros Hset Hp. unfold set_if_truthy. case_match; auto. Qed.

Lemma marked_set_isZap payment : marked_like payment (set_isZap payment).
Proof. done. Qed.

Local Hint Resolve marked_set_zapSenderPubkey marked_set_zapRecipientPubkey
  marked_set_zapComment marked_set_zapEventId marked_set_if_truthy
  marked_set_isZap : marked.

(** The first block marks the payment, however it is left. *)
Lemma enrich_from_storage_marked zapData payment :
  marked_like payment (fst (enrich_from_storage zapData payment)).
Proof.
  unfold enrich_from_storage, enrich_from_stored.
  repeat case_match; simpl; auto 10 with marked.
Qed.

(** The second block marks the payment or leaves it as it is. *)
Lemma enrich_from_description_marked zapRequest payment :
  marked_like payment (fst (enrich_from_description zapRequest payment))
  \/ fst (enrich_from_description zapRequest payment) = payment.
Proof.
  unfold enrich_from_description.
  destruct (get_prop zapRequest "kind") as [kind|]; [|by right].
  destruct (template_throws kind); [by right|].
  destruct (strict_ne_9734 kind); [by right|].
  left. repeat case_match; simpl; auto 10 with marked.
Qed.

Lemma enrich_second_try_marked payment :
  marked_like payment (enrich_second_try payment)
  \/ enrich_second_try payment = payment.
Proof.
  unfold enrich_second_try.
  destruct (truthy_str (description payment)); simpl; [|by right].
  destruct (description payment) as [d|]; [|by right].
  destruct (JSON_parse d) as [zapRequest|]; [|by right].
  apply enrich_from_description_marked.
Qed.

Lemma marked_trans payment p p' :
  marked_like payment p -> marked_like p p' -> marked_like payment p'.
Proof. intros [? ?] [? ?]. split; [congruence|done]. Qed.

(** X13. [enrichPaymentWithZapData] changes nothing but the five zap
    fields, and it changes them only on a payment that it marks as a zap:
    the result is marked, or it is the payment that was given.  A payment
    that is marked stays marked. *)
Theorem enrichment_touches_zap_fields_only
    (localStorage : gmap string string) payment :
  let payment' := enrichPaymentWithZapData inherited localStorage payment in
  payment_data payment' = payment_data payment
  /\ (isZap payment' = Some true \/ payment' = payment)
  /\ (isZap payment = Some true -> isZap payment' = Some true).
Proof.
  assert (marked_like payment (enrichPaymentWithZapData inherited localStorage payment)
          \/ enrichPaymentWithZapData inherited localStorage payment = payment) as H.
  { unfold enrichPaymentWithZapData.
    match goal with |- context [match ?x with Some _ => _ | None => _ end] =>
      destruct x as [zapData|]
    end; [|apply enrich_second_try_marked].
    pose proof (enrich_from_storage_marked zapData payment) as Hm.
    destruct (enrich_from_storage zapData payment) as [p' [u|]];
      simpl in Hm; [by left|].
    left. destruct (enrich_second_try_marked p') as [H| ->]; [|done].
    by eapply marked_trans. }
  simpl. destruct H as [[Hd Hz]| ->]; [by auto|]. by auto.
Qed.

(** X14. A payment for whose hash [localStorage] has any truthy entry is
    marked as a zap, also when the entry is not of the expected form, or
    is a built-in property that the stored value inherits: the mark is set
    before the entry is read. *)
Theorem stored_entry_marks_zap (localStorage : gmap string string) payment
    (paymentHash' : string) (zapData : property) :
  paymentHash payment = Some paymentHash' -> paymentHash' <> "" ->
  getZapData inherited localStorage paymentHash' = Some zapData ->
  isZap (enrichPaymentWithZapData inherited localStorage payment) = Some true.
Proof.
  intros Hh Hne Hz. unfold enrichPaymentWithZapData. rewrite Hh.
  assert (truthy_str (Some paymentHash') = true) as ->
    by (apply truthy_str_Some; by exists paymentHash').
  simpl. rewrite Hz.
  pose proof (enrich_from_storage_marked zapData payment) as Hm.
  destruct (enrich_from_storage zapData payment) as [p' [u|]];
    simpl in Hm; [by destruct Hm|].
  destruct (enrich_second_try_marked p') as [[_ H]| ->]; [done|].
  by destruct Hm.
Qed.

(** X15. A payment with no stored zap data whose description is missing,
    empty, no JSON text, or a JSON value whose [kind] is not the number
    9734, is returned as it was given. *)
Theorem plain_payment_is_unchanged (localStorage : gmap string string)
    payment :
  (forall h, paymentHash payment = Some h -> h <> "" ->
             getZapData inherited localStorage h = None) ->
  (forall d zapRequest,
      description payment = Some d -> JSON_parse d = Some zapRequest ->
      get_prop zapRequest "kind" <> Normal (Some (JNumber 9734 0))) ->
  enrichPaymentWithZapData inherited localStorage payment = payment.
Proof.
  intros Hhash Hdesc. unfold enrichPaymentWithZapData.
  assert ((if truthy_str (paymentHash payment)
           then h ← paymentHash payment; getZapData inherited localStorage h
           else None) = None) as ->.
  { destruct (truthy_str (paymentHash payment)) eqn:Ht; [|done].
    apply truthy_str_Some in Ht as (h & Hh & Hne). rewrite Hh. simpl.
    by apply Hhash. }
  unfold enrich_second_try.
  destruct (truthy_str (description payment)); simpl; [|done].
  destruct (description payment) as [d|]; [|done].
  destruct (JSON_parse d) as [zapRequest|] eqn:Hp; [|done].
  specialize (Hdesc d zapRequest eq_refl Hp).
  unfold enrich_from_description.
  destruct (get_prop zapRequest "kind") as [kind|]; [|done].
  destruct (template_throws kind); [done|].
  destruct (strict_ne_9734 kind) eqn:Hk; [done|].
  apply strict_ne_9734_false in Hk. by subst.
Qed.

(** ** Typed tags *)

Lemma truthy_JString (v : option string) :
  truthy (JString <$> v) = truthy_str v.
Proof. by destruct v. Qed.

Lemma index_key_array (l : list json) :
  index_key (JArray l) "0" = Normal (l !! 0)
  /\ index_key (JArray l) "1" = Normal (l !! 1).
Proof. done. Qed.

Lemma tag_key_is_typed k (t : list string) :
  tag_key_is k (JArray (JString <$> t))
  = Normal (match t !! 0 with
            | Some x => String.eqb x k
            | None => false
            end).
Proof.
  unfold tag_key_is. rewrite (proj1 (index_key_array _)). simpl.
  rewrite list_lookup_fmap. by destruct (t !! 0).
Qed.

Lemma array_find_typed k (ts : list (list string)) :
  array_find (tag_key_is k)
    ((fun t : list string => JArray (JString <$> t)) <$> ts)
  = Normal ((fun t : list string => JArray (JString <$> t))
              <$> List.find
                    (fun t : list string =>
                       match t !! 0 with
                       | Some x => String.eqb x k
                       | None => false
                       end) ts).
Proof.
  induction ts as [|t ts IH]; [done|].
  rewrite fmap_cons. cbn [array_find]. rewrite tag_key_is_typed.
  cbn [mbind completion_bind List.find].
  destruct (match t !! 0 with
            | Some x => String.eqb x k
            | None => false
            end); [done|].
  apply IH.
Qed.

Lemma find_tag_in_typed ts k :
  find_tag_in (Some (json_tags ts)) k
  = Normal ((fun t : list string => JArray (JString <$> t))
              <$> find_tag (mkEvent (Some ts)) k).
Proof. apply array_find_typed. Qed.

Lemma guarded_second_typed (t : option (list string)) :
  guarded_second ((fun t : list string => JArray (JString <$> t)) <$> t)
  = Normal (if truthy_str (second t) then JString <$> second t else None).
Proof.
  destruct t as [t|]; [|done]. unfold guarded_second. cbn [fmap option_fmap option_map truthy].
  rewrite (proj2 (index_key_array _)). simpl.
  rewrite list_lookup_fmap, truthy_JString. done.
Qed.

(** The value that the wallet reads for the tag [k] of a typed request. *)
Lemma tag_of_typed_request l ts k :
  obj_lookup "tags" l = Some (json_tags ts) ->
  (tags ← get_prop (JObject l) "tags";
   tag ← find_tag_in tags k;
   guarded_second tag)
  = Normal (if truthy_str (tag_value (mkEvent (Some ts)) k)
            then JString <$> tag_value (mkEvent (Some ts)) k
            else None).
Proof.
  intros Ht. cbn [get_prop mbind completion_bind]. rewrite Ht.
  rewrite find_tag_in_typed. cbn [mbind completion_bind].
  apply guarded_second_typed.
Qed.

Lemma set_if_truthy_typed set (v : option string) p :
  set_if_truthy set (if truthy_str v then JString <$> v else None) p
  = if truthy_str v then set (JString <$> v) p else p.
Proof.
  unfold set_if_truthy. destruct (truthy_str v) eqn:Hv; [|done].
  by rewrite truthy_JString, Hv.
Qed.

(** X16. For a payment with no stored zap data whose description is a zap
    request (a JSON object of kind 9734 with a list of tags), the payment
    is marked as a zap; the sender is the [pubkey] of the request, the
    recipient and the event id are the values of its first p and e tags,
    the comment is its [content]; a field whose source is missing or falsy
    (an empty string, say) keeps the value it had, and the other data are
    unchanged. *)
Theorem zap_request_in_description (localStorage : gmap string string)
    payment (d : string) (l : list (string * json))
    (ts : list (list string)) :
  (forall h, paymentHash payment = Some h -> h <> "" ->
             getZapData inherited localStorage h = None) ->
  description payment = Some d -> JSON_parse d = Some (JObject l) ->
  obj_lookup "kind" l = Some (JNumber 9734 0) ->
  obj_lookup "tags" l = Some (json_tags ts) ->
  let request := mkEvent (Some ts) in
  let payment' := enrichPaymentWithZapData inherited localStorage payment in
  isZap payment' = Some true
  /\ zapSenderPubkey payment'
     = (if truthy (obj_lookup "pubkey" l) then obj_lookup "pubkey" l
        else zapSenderPubkey payment)
  /\ zapRecipientPubkey payment'
     = (if truthy_str (tag_value request "p")
        then JString <$> tag_value request "p"
        else zapRecipientPubkey payment)
  /\ zapEventId payment'
     = (if truthy_str (tag_value request "e")
        then JString <$> tag_value request "e"
        else zapEventId payment)
  /\ zapComment payment'
     = (if truthy (obj_lookup "content" l) then obj_lookup "content" l
        else zapComment payment)
  /\ payment_data payment' = payment_data payment.
Proof.
  intros Hhash Hd Hp Hk Ht request payment'. subst payment'.
  unfold enrichPaymentWithZapData.
  assert ((if truthy_str (paymentHash payment)
           then h ← paymentHash payment; getZapData inherited localStorage h
           else None) = None) as ->.
  { destruct (truthy_str (paymentHash payment)) eqn:Hh; [|done].
    apply truthy_str_Some in Hh as (h & Hh & Hne). rewrite Hh. simpl.
    by apply Hhash. }
  unfold enrich_second_try. rewrite Hd.
  assert (truthy_str (Some d) = true) as ->.
  { apply truthy_str_Some. exists d. split; [done|]. intros ->.
    by rewrite JSON_parse_empty in Hp. }
  simpl negb. cbv iota. rewrite Hp.
  unfold enrich_from_description.
  rewrite !(tag_of_typed_request l ts) by done.
  cbn [get_prop]. rewrite Hk. cbn [template_throws to_string_throws
                                      strict_ne_9734].
  cbv iota. rewrite !set_if_truthy_typed. fold request.
  unfold set_if_truthy.
  destruct (truthy (obj_lookup "pubkey" l));
    destruct (truthy_str (tag_value request "p"));
    destruct (truthy_str (tag_value request "e"));
    destruct (truthy (obj_lookup "content" l)); done.
Qed.

(** X17. Stored zap data have precedence over the description.  For a
    payment whose hash has an entry in [localStorage] with a zap request
    (an object with a list of tags) whose values the log lines can print,
    the payment is marked as a zap; the sender is the [pubkey] of the
    stored request, also when there is none; the recipient is the stored
    [recipientPubkey]; the comment is the [content] of the request, or the
    empty string; the event id is the value of the first e tag when it is
    not empty, and is kept otherwise.  The description is not read. *)
Theorem stored_zap_data_has_precedence (localStorage : gmap string string)
    payment (h : string) (ld lz : list (string * json))
    (ts : list (list string)) :
  let request := mkEvent (Some ts) in
  let sender := obj_lookup "pubkey" lz in
  let recipient := obj_lookup "recipientPubkey" ld in
  let text := or_empty (obj_lookup "content" lz) in
  let event :=
    if truthy_str (tag_value request "e")
    then JString <$> tag_value request "e"
    else zapEventId payment in
  paymentHash payment = Some h -> h <> "" ->
  getZapData inherited localStorage h = Some (Own (JObject ld)) ->
  obj_lookup "zapRequest" ld = Some (JObject lz) ->
  obj_lookup "tags" lz = Some (json_tags ts) ->
  template_slice_throws sender = false ->
  template_slice_throws recipient = false ->
  template_or_throws event = false ->
  template_or_throws (Some text) = false ->
  let payment' := enrichPaymentWithZapData inherited localStorage payment in
  isZap payment' = Some true
  /\ zapSenderPubkey payment' = sender
  /\ zapRecipientPubkey payment' = recipient
  /\ zapComment payment' = Some text
  /\ zapEventId payment' = event
  /\ payment_data payment' = payment_data payment.
Proof.
  intros request sender recipient text event Hh Hne Hz Hzr Ht Hs Hr He Hc.
  intros payment'. subst payment'. unfold enrichPaymentWithZapData.
  rewrite Hh.
  assert (truthy_str (Some h) = true) as ->
    by (apply truthy_str_Some; by exists h).
  cbn [mbind option_bind]. rewrite Hz.
  unfold enrich_from_storage, enrich_from_stored.
  change (get_prop (JObject ld) "zapRequest")
    with (Normal (obj_lookup "zapRequest" ld)).
  rewrite Hzr. cbv iota beta.
  rewrite (tag_of_typed_request lz ts) by done.
  cbn [get_prop]. rewrite set_if_truthy_typed. fold request sender recipient text.
  assert (forall p,
             zapSenderPubkey p = sender -> zapRecipientPubkey p = recipient ->
             zapEventId p = event -> zapComment p = Some text ->
             zap_log_lines p = Normal ()) as Hlog.
  { intros p H1 H2 H3 H4. unfold zap_log_lines.
    by rewrite H1, H2, H3, H4, Hs, Hr, He, Hc. }
  subst event. destruct (truthy_str (tag_value request "e"));
    by rewrite Hlog.
Qed.

End WalletFacts.

(** X11 on the literal scenario: the payment comes back as a zap from
    sender1 to abc123... with the comment gm, and is final. *)
Lemma payment_enriched_from_delivered_record_witness :
  BreezWallet.fetchZapReceiptForPayment WalletScenarios.incoming_payment
    "abc123..." WalletScenarios.answering_relays
  = Some WalletScenarios.incoming_zap
  /\ WalletScenarios.incoming_zap <> WalletScenarios.incoming_payment
  /\ BreezWallet.fetchZapReceiptForPayment WalletScenarios.incoming_zap
       "abc123..." [Advance 10000]
     = Some WalletScenarios.incoming_zap.
Proof.
  assert (BreezWallet.fetchZapReceiptForPayment
            WalletScenarios.incoming_payment "abc123..."
            WalletScenarios.answering_relays
          = Some WalletScenarios.incoming_zap) as H1 by by vm_compute.
  assert (WalletScenarios.incoming_zap <> WalletScenarios.incoming_payment)
    as H2 by discriminate.
  split; [exact H1|]. split; [exact H2|].
  destruct (payment_enriched_from_delivered_record _ _ _ _ H1 H2)
    as (inv & tr1 & i & ev & tr2 & r & H).
  apply H.
Defined.

(** X12 for relays that never answer. *)
Lemma payment_lookup_times_out_witness :
  silent [Advance 10000] = true
  /\ (OVERALL_TIMEOUT <= elapsed [Advance 10000])%N
  /\ BreezWallet.fetchZapReceiptForPayment WalletScenarios.incoming_payment
       "abc123..." [Advance 10000]
     = Some WalletScenarios.incoming_payment.
Proof.
  assert (OVERALL_TIMEOUT <= elapsed [Advance 10000])%N as H by by vm_compute.
  split; [reflexivity|]. split; [exact H|].
  exact (payment_lookup_times_out WalletScenarios.incoming_payment
           "abc123..." [Advance 10000] eq_refl H).
Defined.

(** X14 for a store that has the number 1 under the payment hash. *)
Lemma stored_entry_marks_zap_witness :
  ZapStorage.getZapData object_prototype WalletScenarios.odd_storage "00ff"
  = Some (Own (JNumber 1 0))
  /\ BreezWallet.isZap
       (BreezWallet.enrichPaymentWithZapData object_prototype
          WalletScenarios.odd_storage WalletScenarios.hashed_payment)
     = Some true.
Proof.
  assert (ZapStorage.getZapData object_prototype WalletScenarios.odd_storage
            "00ff"
          = Some (Own (JNumber 1 0))) as H by by vm_compute.
  split; [exact H|].
  apply (stored_entry_marks_zap object_prototype WalletScenarios.odd_storage
           WalletScenarios.hashed_payment "00ff" (Own (JNumber 1 0)) eq_refl);
    [discriminate|exact H].
Defined.

(** A payment whose hash is [constructor], with nothing stored: the
    lookup finds the constructor that every object inherits, and the
    payment is marked as a zap. *)
Lemma builtin_entry_marks_zap :
  ZapStorage.getZapData object_prototype ∅ "constructor" = Some Inherited
  /\ BreezWallet.enrichPaymentWithZapData object_prototype ∅
       WalletScenarios.constructor_payment
     = BreezWallet.set_isZap WalletScenarios.constructor_payment.
Proof. by vm_compute. Qed.

(** X15 for a payment described as Coffee. *)
Lemma plain_payment_is_unchanged_witness :
  BreezWallet.enrichPaymentWithZapData object_prototype ∅
    WalletScenarios.coffee_payment
  = WalletScenarios.coffee_payment.
Proof.
  apply plain_payment_is_unchanged.
  - intros h Hh. discriminate Hh.
  - intros d zapRequest Hd Hp. injection Hd as <-. discriminate Hp.
Defined.

(** X16 for the zap request of the literal scenario. *)
Lemma zap_request_in_description_witness :
  let payment' :=
    BreezWallet.enrichPaymentWithZapData object_prototype ∅
      WalletScenarios.described_zap in
  BreezWallet.isZap payment' = Some true
  /\ BreezWallet.zapSenderPubkey payment' = Some (JString "sender1")
  /\ BreezWallet.zapRecipientPubkey payment' = Some (JString "abc123...")
  /\ BreezWallet.zapEventId payment' = None
  /\ BreezWallet.zapComment payment' = Some (JString "gm").
Proof.
  assert (forall h, BreezWallet.paymentHash WalletScenarios.described_zap
                    = Some h -> h <> "" ->
                    ZapStorage.getZapData object_prototype ∅ h = None)
    as H1 by (intros h Hh; discriminate Hh).
  destruct (zap_request_in_description object_prototype ∅
              WalletScenarios.described_zap
              fixture_description
              [("kind", JNumber 9734 0); ("pubkey", JString "sender1");
               ("tags", json_tags [["p"; "abc123..."]]);
               ("content", JString "gm")]
              [["p"; "abc123..."]] H1 eq_refl eq_refl eq_refl eq_refl)
    as (Hz & Hs & Hr & He & Hc & _).
  cbv zeta. split; [exact Hz|]. split; [exact Hs|]. split; [exact Hr|].
  split; [exact He|exact Hc].
Defined.

(** X17 for a store that has the zap request of the literal scenario
    under the payment hash: the description Coffee is not read. *)
Lemma stored_zap_data_has_precedence_witness :
  let payment' :=
    BreezWallet.enrichPaymentWithZapData object_prototype
      WalletScenarios.zap_storage WalletScenarios.hashed_payment in
  BreezWallet.isZap payment' = Some true
  /\ BreezWallet.zapSenderPubkey payment' = Some (JString "sender1")
  /\ BreezWallet.zapRecipientPubkey payment' = Some (JString "abc123...")
  /\ BreezWallet.zapComment payment' = Some (JString "gm")
  /\ BreezWallet.zapEventId payment' = None.
Proof.
  destruct (stored_zap_data_has_precedence object_prototype
              WalletScenarios.zap_storage
              WalletScenarios.hashed_payment "00ff"
              [("zapRequest",
                JObject
                  [("kind", JNumber 9734 0); ("pubkey", JString "sender1");
                   ("tags", json_tags [["p"; "abc123..."]]);
                   ("content", JString "gm")]);
               ("recipientPubkey", JString "abc123...")]
              [("kind", JNumber 9734 0); ("pubkey", JString "sender1");
               ("tags", json_tags [["p"; "abc123..."]]);
               ("content", JString "gm")]
              [["p"; "abc123..."]] eq_refl)
    as (Hz & Hs & Hr & Hc & He & _);
    [discriminate|by vm_compute|reflexivity..|].
  cbv zeta. split; [exact Hz|]. split; [exact Hs|]. split; [exact Hr|].
  split; [exact Hc|exact He].
Defined.

(** * The recipient of a query *)

Section RecipientFacts.

Implicit Types (s : state) (i : nat) (b : branch) (tr : list input)
  (inp : input) (q : query).














End RecipientFacts.
